(** * The Cube: selection state machine, tween registry and camera pose solver

    A shallow embedding of the interaction core of [src/App.jsx]:
    the angle helpers, the easing curves, the per-frame [Animator], the
    tween producers ([animateOpacity], [animateScale],
    [animateCameraToPreset]), the pose solver ([getCameraPoseForMesh]),
    the selection logic ([applyFaceSelection], [returnToDefault]), the
    pointer handlers with the hit resolution of [onModelPointerUp], the idle
    timer, the side panels, the intro producer [playIntroNow] and the frame
    pacer.

    JavaScript numbers are read as real numbers: rounding and overflow are
    outside this model.  A value that is not a number arises, in this
    reading, from a division by zero only; [JsMath.min1_div] and
    [CheckedSolver] make the divisions of the tween fraction and of the pose
    solver explicit.  Every [performance.now()] of one synchronous handler
    is the single reading [now] that the handler is given.

    The camera pass of the Animator comes twice: [Animator.stepCamera] is
    what the pass writes, [Orbit.stepCameraUpdated] adds the calls of
    [controls.update()], by which the orbit controls hold the pose within
    their polar and distance limits.  The two agree on everything but the
    camera rig ([sameButRig]), and on the rig as well where the pose lies
    within the limits ([update_inside]).

    Left out: the React state that mirrors the refs, the Leva store updates
    and the scripted demos. *)

From Stdlib Require Import Reals Lra Lia ZArith Ascii String.
From stdpp Require Import gmap strings list fin_maps.

#[local] Open Scope R_scope.

(** ** Numeric helpers (App.jsx, lines 255-291) *)

Module JsMath.

(** Boolean readings of the comparisons the code branches on. *)
Definition ltb (a b : R) : bool := if Rlt_dec a b then true else false.
Definition leb (a b : R) : bool := if Rle_dec a b then true else false.
Definition gtb (a b : R) : bool := ltb b a.
Definition geb (a b : R) : bool := leb b a.

Definition Math_min (a b : R) : R := if Rle_dec a b then a else b.
Definition Math_max (a b : R) : R := if Rle_dec a b then b else a.

(** Truncation toward zero, the quotient behind JavaScript's [%]. *)
Definition trunc (x : R) : Z :=
  if Rle_dec 0 x then Int_part x else (- Int_part (- x))%Z.

(** [a % b]: the remainder carries the sign of the dividend. *)
Definition rem (a b : R) : R := a - b * IZR (trunc (a / b)).

(** [Math.pow(x, 3)] *)
Definition pow3 (x : R) : R := x * x * x.
Definition pow2 (x : R) : R := x * x.

Definition clamp (v min max : R) : R := Math_max min (Math_min max v).

Definition easeInOutCubic (t : R) : R :=
  if ltb t (1/2) then 4 * t * t * t else 1 - pow3 (-2 * t + 2) / 2.

Definition easeOutCubic (t : R) : R := 1 - pow3 (1 - t).

Definition easeOutBack (t amplitude : R) : R :=
  let c1 := 1.70158 * amplitude in
  let c3 := c1 + 1 in
  1 + c3 * pow3 (t - 1) + c1 * pow2 (t - 1).

Definition tau : R := PI * 2.

Definition normalizeAngle0ToTau (angle : R) : R :=
  rem (rem angle tau + tau) tau.

Definition normalizeAngleMinusPiToPi (angle : R) : R :=
  rem (rem (angle + PI) tau + tau) tau - PI.

Definition shortestAngleDelta (from to : R) : R :=
  let a := normalizeAngle0ToTau from in
  let b := normalizeAngle0ToTau to in
  let d := b - a in
  let d := if gtb d PI then d - tau else d in
  let d := if ltb d (- PI) then d + tau else d in
  d.

(** [Math.min(1, a / b)].  JavaScript's division does not fail on a zero
    divisor: a positive [a] over 0 is [Infinity], and its minimum with 1 is
    1.  A zero or negative [a] over 0 is [NaN] or [-Infinity], which no real
    number stands for: in that one case the value below is not the code's. *)
Definition min1_div (a b : R) : R :=
  if Req_dec_T b 0 then
    if Rlt_dec 0 a then 1 else Math_min 1 (a / b)
  else Math_min 1 (a / b).

End JsMath.

(** ** Scene graph and configuration *)

(** A three.js [Object3D] as far as the interaction code reads it.  The
    parent link makes the type inductive, so every ancestor chain is finite.
    [material] is [None] where the code sees a falsy [mesh.material], and
    otherwise names the one material the object was loaded with;
    array-valued materials are not modelled. *)
#[warnings="-register-all"]
Inductive Object3D : Type := mkObject3D {
  uuid : string;
  name : string;
  isMesh : bool;
  material : option string;
  parent : option Object3D
}.

(** [a === b] on scene objects: three.js gives every object its own uuid,
    and the code itself keys its tween maps by it. *)
Definition same_object (a b : Object3D) : bool :=
  bool_decide (uuid a = uuid b).

Record Vector3 : Type := mkVector3 { vx : R; vy : R; vz : R }.

Record Pose : Type := mkPose { azimuth : R; polar : R; distance : R }.

Inductive CameraProfile := Cinematic | BabylonOriginal.
Inductive CameraMode := Babylon | Free.

Definition isBabylonOriginal (p : CameraProfile) : bool :=
  match p with BabylonOriginal => true | Cinematic => false end.
Definition isBabylon (m : CameraMode) : bool :=
  match m with Babylon => true | Free => false end.

(** The Leva values the modelled functions read. *)
Record Values : Type := mkValues {
  cameraProfile : CameraProfile;
  cameraMode : CameraMode;
  lockTargetToModelCenter : bool;
  cameraDistance : R;
  cameraFov : R;
  presetYawOffset : R;
  presetPolarOffset : R;
  babylonClickDistance : R;
  glowIntensity : R
}.

(** The lookups [onModelReady] stores in [interactionRef.current], and the
    model centre it computes.  [cubesByName] is a JavaScript [Map]: an
    association list in insertion order. *)
Record Interaction : Type := mkInteraction {
  cubesByName : list (string * Object3D);
  allFaceMeshes : list Object3D;
  faceMeshUUIDs : gset string;
  bodyMaterialUUIDs : gset string;
  modelCenterRef : Vector3
}.

Definition SELECTED_CUBE_SCALE : R := 1.28.
Definition SELECTED_CUBE_BOUNCE : R := 1.38.
Definition DIMMED_CUBE_SCALE : R := 0.82.
Definition DIMMED_CUBE_BOUNCE : R := 0.76.
Definition DIMMED_FACE_OPACITY : R := 0.15.
Definition CLICK_INTERACTION_FOV : R := 26.

(** ** Tweens and the mutable state *)

(** An opacity tween; its [material] is the prepared clone of the mesh whose
    uuid keys it in the map. *)
Record OpacityTween : Type := mkOpacityTween {
  op_from : R; op_to : R; op_t0 : R; op_dur : R
}.

(** A scale tween; its [obj] is the object whose uuid keys it. *)
Record ScaleTween : Type := mkScaleTween {
  sc_from : R; sc_bounce : R; sc_to : R; sc_t0 : R; sc_dur : R
}.

(** The intro tween of the ["Center"] object. *)
Record CenterTween : Type := mkCenterTween {
  ce_fromX : R; ce_toX : R; ce_fromRotY : R; ce_toRotY : R;
  ce_amplitude : R; ce_t0 : R; ce_dur : R
}.

Record CameraTween : Type := mkCameraTween {
  cam_t0 : R; cam_dur : R;
  cam_fromAz : R; cam_dAz : R;
  cam_fromPol : R; cam_toPol : R;
  cam_fromDist : R; cam_toDist : R;
  cam_target : Vector3;
  cam_lockDistanceAtEnd : bool;
  cam_fromFov : option R; cam_toFov : option R
}.

(** [animRef.current] *)
Record Anim : Type := mkAnim {
  opacity : gmap string OpacityTween;
  scale : gmap string ScaleTween;
  camera : option CameraTween;
  center : option CenterTween
}.

(** The material a face owns once [prepareFaceForFade] has cloned it.  The
    emissive colour is not tracked, its intensity is. *)
Record FaceMaterial : Type := mkFaceMaterial {
  mat_opacity : R;
  mat_emissiveIntensity : R
}.

(** The orbit pose of the camera about the controls' target, and its field
    of view.  [OrbitControls] is external: its getters are read as reporting
    the pose last written to the camera. *)
Record CameraState : Type := mkCameraState {
  c_azimuth : R; c_polar : R; c_distance : R; c_fov : R; c_lookAt : Vector3
}.

Record Controls : Type := mkControls {
  ctl_enabled : bool;
  ctl_minDistance : R;
  ctl_maxDistance : R;
  ctl_target : Vector3
}.

(** What the tweens write to.  [faceMaterials] is keyed by mesh uuid and
    holds exactly the prepared faces ([userData.__fadePrepared]);
    [bloomLayer] holds the meshes with layer 1 enabled; an object that
    [objectScale] does not list has scale 1. *)
Record World : Type := mkWorld {
  faceMaterials : gmap string FaceMaterial;
  bloomLayer : gset string;
  objectScale : gmap string R;
  centerPositionX : R;
  centerRotationY : R;
  cameraState : CameraState;
  controlsRef : option Controls
}.

(** [interactionRef.current.currentlyExpandedCubeName],
    [interactionRef.current.currentlyClickedFace],
    [selectedCubeNameRef.current] and [lastSelectionAtRef.current]. *)
Record Selection : Type := mkSelection {
  currentlyExpandedCubeName : option string;
  currentlyClickedFace : option Object3D;
  selectedCubeNameRef : option string;
  lastSelectionAtRef : R
}.

Record State : Type := mkState {
  selection : Selection;
  anim : Anim;
  world : World;
  cameraAnimLockRef : bool;
  defaultPoseRef : Pose
}.

Definition with_selection (s : Selection) (st : State) : State :=
  mkState s (anim st) (world st) (cameraAnimLockRef st) (defaultPoseRef st).
Definition with_anim (a : Anim) (st : State) : State :=
  mkState (selection st) a (world st) (cameraAnimLockRef st)
    (defaultPoseRef st).
Definition with_world (w : World) (st : State) : State :=
  mkState (selection st) (anim st) w (cameraAnimLockRef st) (defaultPoseRef st).
Definition with_cameraAnimLock (b : bool) (st : State) : State :=
  mkState (selection st) (anim st) (world st) b (defaultPoseRef st).

Definition with_opacity (m : gmap string OpacityTween) (a : Anim) : Anim :=
  mkAnim m (scale a) (camera a) (center a).
Definition with_scale (m : gmap string ScaleTween) (a : Anim) : Anim :=
  mkAnim (opacity a) m (camera a) (center a).
Definition with_camera (c : option CameraTween) (a : Anim) : Anim :=
  mkAnim (opacity a) (scale a) c (center a).
Definition with_center (c : option CenterTween) (a : Anim) : Anim :=
  mkAnim (opacity a) (scale a) (camera a) c.

Definition with_faceMaterials (m : gmap string FaceMaterial) (w : World)
    : World :=
  mkWorld m (bloomLayer w) (objectScale w) (centerPositionX w)
    (centerRotationY w) (cameraState w) (controlsRef w).
Definition with_bloomLayer (b : gset string) (w : World) : World :=
  mkWorld (faceMaterials w) b (objectScale w) (centerPositionX w)
    (centerRotationY w) (cameraState w) (controlsRef w).
Definition with_objectScale (m : gmap string R) (w : World) : World :=
  mkWorld (faceMaterials w) (bloomLayer w) m (centerPositionX w)
    (centerRotationY w) (cameraState w) (controlsRef w).
Definition with_centerObject (x rotY : R) (w : World) : World :=
  mkWorld (faceMaterials w) (bloomLayer w) (objectScale w) x rotY
    (cameraState w) (controlsRef w).
Definition with_cameraState (c : CameraState) (w : World) : World :=
  mkWorld (faceMaterials w) (bloomLayer w) (objectScale w) (centerPositionX w)
    (centerRotationY w) c (controlsRef w).
Definition with_controls (c : option Controls) (w : World) : World :=
  mkWorld (faceMaterials w) (bloomLayer w) (objectScale w) (centerPositionX w)
    (centerRotationY w) (cameraState w) c.

(** [obj.scale.x] *)
Definition scaleOf (w : World) (obj : Object3D) : R :=
  default 1 (objectScale w !! uuid obj).

(** ** Tween producers (App.jsx, lines 738-898) *)

Module Producers.
Import JsMath.

Definition prepareFaceForFade (mesh : Object3D) (w : World) : World :=
  match material mesh with
  | None => w
  | Some _ =>
      match faceMaterials w !! uuid mesh with
      | Some _ => w
      | None =>
          with_faceMaterials
            (<[uuid mesh := mkFaceMaterial 1 0]> (faceMaterials w)) w
      end
  end.

(** [mesh.material.opacity], read after the mesh was prepared. *)
Definition opacityOf (w : World) (mesh : Object3D) : R :=
  match faceMaterials w !! uuid mesh with
  | Some m => mat_opacity m
  | None => 1
  end.

Definition animateOpacity (now : R) (mesh : Object3D) (to dur : R)
    (st : State) : State :=
  match material mesh with
  | None => st
  | Some _ =>
      let w := prepareFaceForFade mesh (world st) in
      let tw := mkOpacityTween (opacityOf w mesh) to now dur in
      with_anim
        (with_opacity (<[uuid mesh := tw]> (opacity (anim st))) (anim st))
        (with_world w st)
  end.

Definition animateScale (now : R) (obj : Object3D) (to bounce dur : R)
    (st : State) : State :=
  let tw := mkScaleTween (scaleOf (world st) obj) bounce to now dur in
  with_anim (with_scale (<[uuid obj := tw]> (scale (anim st))) (anim st)) st.

Definition setEmissiveIntensity (mesh : Object3D) (v : R) (w : World) : World :=
  with_faceMaterials
    (alter (fun m => mkFaceMaterial (mat_opacity m) v) (uuid mesh)
       (faceMaterials w)) w.

Definition setFaceGlow (vals : Values) (mesh : Object3D) (st : State) : State :=
  match material mesh with
  | None => st
  | Some _ =>
      let w := prepareFaceForFade mesh (world st) in
      let w := setEmissiveIntensity mesh (glowIntensity vals) w in
      with_world (with_bloomLayer ({[uuid mesh]} ∪ bloomLayer w) w) st
  end.

(** On a face that was never prepared the write goes to the material the
    face still shares with others, which [faceMaterials] does not hold. *)
Definition removeFaceGlow (mesh : Object3D) (st : State) : State :=
  match material mesh with
  | None => st
  | Some _ =>
      let w := setEmissiveIntensity mesh 0 (world st) in
      with_world (with_bloomLayer (bloomLayer w ∖ {[uuid mesh]}) w) st
  end.

(** [resetAllCubes]; closing the panels is not modelled. *)
Definition resetAllCubes (sc : Interaction) (now : R) (st : State) : State :=
  let st :=
    foldl (fun st cube => animateScale now cube.2 1 0.8 260 st)
      st (cubesByName sc) in
  foldl (fun st face => removeFaceGlow face (animateOpacity now face 1 250 st))
    st (allFaceMeshes sc).

Definition forceCenter (vals : Values) : bool :=
  lockTargetToModelCenter vals || isBabylonOriginal (cameraProfile vals).

Definition lockDistanceAtEnd (vals : Values) : bool :=
  isBabylon (cameraMode vals) || isBabylonOriginal (cameraProfile vals).

(** [animateCameraToPreset(to, durationMs, { toFov })]; [optToFov] is
    [None] when the option is absent or not a finite number. *)
Definition animateCameraToPreset (vals : Values) (sc : Interaction)
    (now : R) (to : Pose) (durationMs : R) (optToFov : option R)
    (st : State) : State :=
  match controlsRef (world st) with
  | None => st
  | Some controls =>
      let cam := cameraState (world st) in
      let fromAz := c_azimuth cam in
      let fromPol := c_polar cam in
      let fromDist := c_distance cam in
      let fromFov := c_fov cam in
      let target :=
        if forceCenter vals then modelCenterRef sc else ctl_target controls in
      let controls :=
        if lockTargetToModelCenter vals
        then mkControls (ctl_enabled controls) (ctl_minDistance controls)
               (ctl_maxDistance controls) target
        else controls in
      let controls :=
        if lockDistanceAtEnd vals
        then mkControls (ctl_enabled controls)
               (Math_min fromDist (distance to))
               (Math_max fromDist (distance to)) (ctl_target controls)
        else controls in
      let controls :=
        mkControls false (ctl_minDistance controls)
          (ctl_maxDistance controls) (ctl_target controls) in
      let tw :=
        mkCameraTween now durationMs
          fromAz (shortestAngleDelta fromAz (azimuth to))
          fromPol (polar to)
          fromDist (distance to)
          target (lockDistanceAtEnd vals)
          (Some fromFov)
          (Some (default fromFov optToFov)) in
      with_anim (with_camera (Some tw) (anim st))
        (with_cameraAnimLock true
           (with_world (with_controls (Some controls) (world st)) st))
  end.

End Producers.

(** ** Camera pose solver (App.jsx, lines 957-1019) *)

(** The two three.js queries the solver makes: [getWorldPosition] of a mesh
    in the current scene graph, and the angles [(theta, phi)] that
    [Spherical.setFromVector3] gives a vector. *)
Record Three : Type := mkThree {
  getWorldPosition : World -> Object3D -> Vector3;
  setFromVector3 : Vector3 -> R * R
}.

Module PoseSolver.
Import JsMath Producers.

Definition sub (a b : Vector3) : Vector3 :=
  mkVector3 (vx a - vx b) (vy a - vy b) (vz a - vz b).
Definition lengthSq (v : Vector3) : R :=
  vx v * vx v + vy v * vy v + vz v * vz v.
Definition multiplyScalar (v : Vector3) (k : R) : Vector3 :=
  mkVector3 (vx v * k) (vy v * k) (vz v * k).
(** [normalize] of a vector that is not the zero vector. *)
Definition normalize (v : Vector3) : Vector3 :=
  multiplyScalar v (/ sqrt (lengthSq v)).

Definition defaultDistance (vals : Values) : R :=
  if isBabylonOriginal (cameraProfile vals)
  then babylonClickDistance vals else cameraDistance vals.

(** [(name || "").charAt(1)] selects the preset. *)
Definition presetAngles (name : string) : R * R :=
  match String.get 1 name with
  | Some "1"%char => (PI / (- 2.7), 1.5628)
  | Some "2"%char => (PI / (- 1.1), 1.5096)
  | Some "3"%char => ((2 * PI) / 3.2, 1.5352)
  | Some "4"%char => (PI / 7, 1.5638)
  | Some "b"%char => (1.5 * PI - 0.2, PI - 0.5)
  | _ => (1.5 * PI + 0.3, 0.3)
  end.

Definition getCameraPoseForFace (vals : Values) (name : string) : Pose :=
  let '(alpha, beta) := presetAngles name in
  mkPose
    (normalizeAngleMinusPiToPi (PI / 2 - alpha + presetYawOffset vals))
    (beta + presetPolarOffset vals)
    (defaultDistance vals).

(** [dir.lengthSq() < 1e-8] *)
Definition degenerate (dir : Vector3) : bool :=
  ltb (lengthSq dir) (/ 100000000).

(** The look-at point the solver measures the direction from. *)
Definition solverTarget (vals : Values) (sc : Interaction) (w : World)
    : Vector3 :=
  if forceCenter vals then modelCenterRef sc
  else match controlsRef w with
       | Some controls => ctl_target controls
       | None => modelCenterRef sc
       end.

Definition getCameraPoseForMesh (three : Three) (vals : Values)
    (sc : Interaction) (w : World) (mesh : Object3D)
    (distanceOverride : option R) : Pose :=
  let target := solverTarget vals sc w in
  let distance := default (defaultDistance vals) distanceOverride in
  let worldPos := getWorldPosition three w mesh in
  let dir := sub worldPos target in
  if degenerate dir then getCameraPoseForFace vals (name mesh)
  else
    let dir := multiplyScalar (normalize dir) distance in
    let '(theta, phi) := setFromVector3 three dir in
    mkPose
      (normalizeAngleMinusPiToPi (theta + presetYawOffset vals))
      (clamp (phi + presetPolarOffset vals) 0.001 (PI - 0.001))
      distance.

End PoseSolver.

(** ** Selection state machine (App.jsx, lines 906-914 and 1225-1316) *)

Module SelectionMachine.
Import JsMath Producers PoseSolver.

Definition hasCube (sc : Interaction) (n : string) : bool :=
  bool_decide (n ∈ (cubesByName sc).*1).

(** The [while (cur)] walk up the parent chain. *)
Fixpoint findCubeName (sc : Interaction) (obj : Object3D) : option string :=
  match obj with
  | mkObject3D _ n _ _ p =>
      if hasCube sc n then Some n
      else match p with
           | Some cur => findCubeName sc cur
           | None => None
           end
  end.

(** [!!name] for a name that may be [null]. *)
Definition truthy (n : option string) : bool :=
  match n with
  | Some s => negb (bool_decide (s = ""))
  | None => false
  end.

(** [mats.some((m) => m && body.has(m.uuid))].  A prepared mesh carries
    its clone, whose uuid was generated after every set was built. *)
Definition hitsBodyMaterial (sc : Interaction) (w : World)
    (clicked : Object3D) : bool :=
  match material clicked with
  | None => false
  | Some m =>
      match faceMaterials w !! uuid clicked with
      | Some _ => false
      | None => bool_decide (m ∈ bodyMaterialUUIDs sc)
      end
  end.

Definition clearedSelection : Selection := mkSelection None None None (- 1).

(** [returnToDefault]; the React state it mirrors is not modelled. *)
Definition returnToDefault (vals : Values) (sc : Interaction) (now : R)
    (st : State) : State :=
  let st :=
    animateCameraToPreset vals sc now (defaultPoseRef st) 900
      (Some (cameraFov vals)) st in
  let st := resetAllCubes sc now st in
  with_selection clearedSelection st.

(** [cubesByName.forEach]: expand the chosen cube, shrink the others. *)
Definition scaleCubes (sc : Interaction) (now : R) (cubeName : string)
    (st : State) : State :=
  foldl
    (fun st entry =>
       if bool_decide (entry.1 = cubeName)
       then animateScale now entry.2 SELECTED_CUBE_SCALE
              SELECTED_CUBE_BOUNCE 260 st
       else animateScale now entry.2 DIMMED_CUBE_SCALE
              DIMMED_CUBE_BOUNCE 260 st)
    st (cubesByName sc).

(** The [allFaceMeshes.forEach] of the same-cube branch. *)
Definition dimOtherFaces (sc : Interaction) (now : R) (clicked : Object3D)
    (st : State) : State :=
  foldl
    (fun st face =>
       if same_object face clicked then st
       else removeFaceGlow face
              (animateOpacity now face DIMMED_FACE_OPACITY 250 st))
    st (allFaceMeshes sc).

(** The [allFaceMeshes.forEach] of the final branch. *)
Definition focusFace (vals : Values) (sc : Interaction) (now : R)
    (clicked : Object3D) (st : State) : State :=
  foldl
    (fun st face =>
       let st :=
         animateOpacity now face
           (if same_object face clicked then 1 else DIMMED_FACE_OPACITY)
           250 st in
       if same_object face clicked then setFaceGlow vals face st
       else removeFaceGlow face st)
    st (allFaceMeshes sc).

Definition isHome (cubeName : string) : bool :=
  bool_decide (cubeName = "top_block_5").

(** [applyFaceSelection(clicked, { allowHomeReset, distanceOverride })].
    The side panels are not modelled. *)
Definition applyFaceSelection (three : Three) (vals : Values)
    (sc : Interaction) (now : R) (clicked : option Object3D)
    (allowHomeReset : bool) (distanceOverride : option R)
    (st : State) : State :=
  match clicked with
  | None => st
  | Some clicked =>
  match findCubeName sc clicked with
  | None => st
  | Some cubeName =>
  if negb (truthy (Some cubeName)) then st
  else if hitsBodyMaterial sc (world st) clicked then st
  else
    let currentFace := currentlyClickedFace (selection st) in
    let activeSelectedCubeName := selectedCubeNameRef (selection st) in
    let hasActiveSelection := truthy activeSelectedCubeName in
    let isSameCube :=
      hasActiveSelection
      && bool_decide (activeSelectedCubeName = Some cubeName) in
    if allowHomeReset && isHome cubeName && hasActiveSelection
    then returnToDefault vals sc now st
    else
      let isSameFace :=
        isSameCube
        && match currentFace with
           | Some f => same_object f clicked
           | None => false
           end in
      if isSameFace then
        if ltb (now - lastSelectionAtRef (selection st)) 500 then st
        else returnToDefault vals sc now st
      else
        let desiredDistance :=
          default (babylonClickDistance vals) distanceOverride in
        let camPreset :=
          getCameraPoseForMesh three vals sc (world st) clicked
            (Some desiredDistance) in
        let st :=
          animateCameraToPreset vals sc now camPreset 900
            (Some CLICK_INTERACTION_FOV) st in
        match currentFace with
        | Some previous =>
            if isSameCube && negb (same_object clicked previous) then
              let st := animateOpacity now previous 0.2 250 st in
              let st := removeFaceGlow previous st in
              let st := animateOpacity now clicked 1 250 st in
              let st := setFaceGlow vals clicked st in
              let st :=
                with_selection
                  (mkSelection
                     (currentlyExpandedCubeName (selection st))
                     (Some clicked) (Some cubeName) now) st in
              let st := scaleCubes sc now cubeName st in
              dimOtherFaces sc now clicked st
            else
              let st := scaleCubes sc now cubeName st in
              let st := focusFace vals sc now clicked st in
              with_selection
                (mkSelection (Some cubeName) (Some clicked) (Some cubeName)
                   now) st
        | None =>
            let st := scaleCubes sc now cubeName st in
            let st := focusFace vals sc now clicked st in
            with_selection
              (mkSelection (Some cubeName) (Some clicked) (Some cubeName)
                 now) st
        end
  end
  end.

End SelectionMachine.

(** ** Per-frame tween advance (App.jsx, lines 335-421) *)

Module Animator.
Import JsMath.

(** [Math.min(1, (now - tw.t0) / tw.dur)].  A tween of duration 0 is at
    fraction 1 from the first frame after its start; at a frame that is not
    after its start the code's fraction is not a number (see [min1_div]). *)
Definition progress (now t0 dur : R) : R := min1_div (now - t0) dur.

Definition sampleOpacity (tw : OpacityTween) (t : R) : R :=
  op_from tw + (op_to tw - op_from tw) * easeInOutCubic t.

Definition midT : R := 0.55.

Definition sampleScale (tw : ScaleTween) (t : R) : R :=
  if ltb t midT then
    sc_from tw + (sc_bounce tw - sc_from tw) * easeInOutCubic (t / midT)
  else
    sc_bounce tw
    + (sc_to tw - sc_bounce tw) * easeInOutCubic ((t - midT) / (1 - midT)).

(** [position.x] and [rotation.y] of the intro object. *)
Definition sampleCenter (tw : CenterTween) (t : R) : R * R :=
  (ce_fromX tw + (ce_toX tw - ce_fromX tw) * easeOutBack t (ce_amplitude tw),
   ce_fromRotY tw + (ce_toRotY tw - ce_fromRotY tw) * easeOutCubic t).

(** The dolly fraction leads the angular one. *)
Definition eDist (t : R) : R := easeInOutCubic (Math_min 1 (t * 1.12)).

Definition sampleCamera (tw : CameraTween) (fov : R) (t : R) : CameraState :=
  let e := easeInOutCubic t in
  mkCameraState
    (cam_fromAz tw + cam_dAz tw * e)
    (cam_fromPol tw + (cam_toPol tw - cam_fromPol tw) * e)
    (cam_fromDist tw + (cam_toDist tw - cam_fromDist tw) * eDist t)
    (match cam_fromFov tw, cam_toFov tw with
     | Some fromFov, Some toFov => fromFov + (toFov - fromFov) * eDist t
     | _, _ => fov
     end)
    (cam_target tw).

Definition finished (t : R) : bool := geb t 1.

Definition opacityProgress (now : R) (tw : OpacityTween) : R :=
  progress now (op_t0 tw) (op_dur tw).
Definition scaleProgress (now : R) (tw : ScaleTween) : R :=
  progress now (sc_t0 tw) (sc_dur tw).

Definition writeOpacity (now : R) (tw : option OpacityTween)
    (m : option FaceMaterial) : option FaceMaterial :=
  match tw, m with
  | Some tw, Some m =>
      Some (mkFaceMaterial (sampleOpacity tw (opacityProgress now tw))
              (mat_emissiveIntensity m))
  | _, _ => m
  end.

Definition writeScale (now : R) (tw : option ScaleTween) (s : option R)
    : option R :=
  match tw with
  | Some tw => Some (sampleScale tw (scaleProgress now tw))
  | None => s
  end.

Definition retire {T : Type} (t : T -> R) (tw : T) : option T :=
  if finished (t tw) then None else Some tw.

Definition stepOpacity (now : R) (st : State) : State :=
  let tweens := opacity (anim st) in
  with_anim
    (with_opacity (omap (retire (opacityProgress now)) tweens) (anim st))
    (with_world
       (with_faceMaterials
          (merge (writeOpacity now) tweens (faceMaterials (world st)))
          (world st)) st).

Definition stepScale (now : R) (st : State) : State :=
  let tweens := scale (anim st) in
  with_anim (with_scale (omap (retire (scaleProgress now)) tweens) (anim st))
    (with_world
       (with_objectScale
          (merge (writeScale now) tweens (objectScale (world st)))
          (world st)) st).

Definition stepCenter (now : R) (st : State) : State :=
  match center (anim st) with
  | None => st
  | Some tw =>
      let t := progress now (ce_t0 tw) (ce_dur tw) in
      let '(x, rotY) := sampleCenter tw t in
      with_anim
        (with_center (if finished t then None else Some tw) (anim st))
        (with_world (with_centerObject x rotY (world st)) st)
  end.

(** The camera pass as far as it writes: the pose it gives the camera and
    what it sets on the controls.  Its calls of [controls.update()], by
    which the orbit controls hold that pose within their limits, are added
    in [Orbit.stepCameraUpdated]; the Leva sync of [onCameraAnimEnd] is not
    modelled. *)
Definition stepCamera (now : R) (st : State) : State :=
  match camera (anim st) with
  | None => st
  | Some tw =>
      let t := progress now (cam_t0 tw) (cam_dur tw) in
      let w := world st in
      let cam := sampleCamera tw (c_fov (cameraState w)) t in
      let retarget (c : Controls) :=
        mkControls (ctl_enabled c) (ctl_minDistance c) (ctl_maxDistance c)
          (cam_target tw) in
      let w := with_cameraState cam w in
      let w := with_controls (retarget <$> controlsRef w) w in
      if finished t then
        let release (c : Controls) :=
          if cam_lockDistanceAtEnd tw
          then mkControls true (c_distance cam) (c_distance cam) (ctl_target c)
          else mkControls true (ctl_minDistance c) (ctl_maxDistance c)
                 (ctl_target c) in
        let w := with_controls (release <$> controlsRef w) w in
        with_cameraAnimLock false
          (with_anim (with_camera None (anim st)) (with_world w st))
      else with_world w st
  end.

(** One [useFrame] callback: opacity, scale, intro, camera, in that
    order, with the camera pass as [stepCamera] has it. *)
Definition frame (now : R) (st : State) : State :=
  stepCamera now (stepCenter now (stepScale now (stepOpacity now st))).

End Animator.

(** ** Hit resolution of [onModelPointerUp] (App.jsx, lines 1362-1366 and
    1436-1459) *)

(** What the handler reads of its event: the object it is invoked for, the
    objects of [e.intersections] nearest first ([None] when that is not an
    array), and the objects that [e.raycaster.intersectObjects] reports among
    the face meshes, nearest first. *)
Record PointerUpHits : Type := mkPointerUpHits {
  e_object : Object3D;
  e_intersections : option (list Object3D);
  e_raycastFaces : list Object3D
}.

Module Gesture.
Import SelectionMachine.

(** The guard that handles one invocation per physical pointer-up. *)
Definition isClosestIntersection (e : PointerUpHits) : bool :=
  match e_intersections e with
  | Some (first :: _) => same_object first (e_object e)
  | _ => true
  end.

Definition isKnownFace (sc : Interaction) (obj : Object3D) : bool :=
  isMesh obj
  && bool_decide (uuid obj ∈ faceMeshUUIDs sc)
  && truthy (findCubeName sc obj).

(** [clicked || fallback] *)
Definition resolvedFace (sc : Interaction) (e : PointerUpHits)
    : option Object3D :=
  let eventHits := default [] (e_intersections e) in
  let clickedFromEvent := List.find (isKnownFace sc) eventHits in
  let clicked :=
    match clickedFromEvent with
    | Some hit => Some hit
    | None => List.find (isKnownFace sc) (e_raycastFaces e)
    end in
  let fallback :=
    if isKnownFace sc (e_object e) then Some (e_object e) else None in
  match clicked with
  | Some face => Some face
  | None => fallback
  end.

(** The face a pointer-up is resolved to, if any.  The gates between the
    guard and the resolution (press duration, drag distance, camera
    movement, duplicate events) only ever suppress a tap and do not read
    the hit list; they are not modelled. *)
Definition resolveTap (sc : Interaction) (e : PointerUpHits)
    : option Object3D :=
  if isClosestIntersection e then resolvedFace sc e else None.

End Gesture.

(** ** State predicates used by the statements *)

Definition Default (st : State) : Prop :=
  selectedCubeNameRef (selection st) = None
  /\ currentlyClickedFace (selection st) = None.

Definition Selected (st : State) (block : string) (face : Object3D) : Prop :=
  selectedCubeNameRef (selection st) = Some block
  /\ currentlyClickedFace (selection st) = Some face.

(** The emphasis of a face: emissive intensity at the glow value and bloom
    layer enabled, or intensity zero and bloom layer disabled. *)
Definition emphasised (vals : Values) (w : World) (face : Object3D) : Prop :=
  (exists m, faceMaterials w !! uuid face = Some m
             /\ mat_emissiveIntensity m = glowIntensity vals)
  /\ uuid face ∈ bloomLayer w.

Definition emphasisCleared (w : World) (face : Object3D) : Prop :=
  (exists m, faceMaterials w !! uuid face = Some m
             /\ mat_emissiveIntensity m = 0)
  /\ uuid face ∉ bloomLayer w.

Definition opacityTarget (st : State) (face : Object3D) (v : R) : Prop :=
  exists tw, opacity (anim st) !! uuid face = Some tw /\ op_to tw = v.

Definition scaleTarget (st : State) (obj : Object3D) (to bounce : R) : Prop :=
  exists tw, scale (anim st) !! uuid obj = Some tw
             /\ sc_to tw = to /\ sc_bounce tw = bounce.

(** A face whose opacity tween targets [v] and whose emphasis is cleared. *)
Definition dimmedTo (v : R) (face : Object3D) (st : State) : Prop :=
  opacityTarget st face v /\ emphasisCleared (world st) face.

(** What [onModelReady] guarantees of the cube lookup: one entry per name,
    each holding the object of that name, and no object listed twice. *)
Definition wfCubes (sc : Interaction) : Prop :=
  NoDup ((cubesByName sc).*1)
  /\ NoDup ((fun entry => uuid entry.2) <$> cubesByName sc).

(** Every tween of the opacity map targets a prepared material. *)
Definition opacityTargetsPrepared (st : State) : Prop :=
  forall id, is_Some (opacity (anim st) !! id)
             -> is_Some (faceMaterials (world st) !! id).

(** Every face prepared in [st] is still prepared in [st']. *)
Definition preparedGrows (st st' : State) : Prop :=
  forall id, is_Some (faceMaterials (world st) !! id)
             -> is_Some (faceMaterials (world st') !! id).

(** The object and its ancestors, nearest first. *)
Fixpoint ancestorChain (obj : Object3D) : list Object3D :=
  match obj with
  | mkObject3D _ _ _ _ p =>
      obj :: match p with
             | Some cur => ancestorChain cur
             | None => []
             end
  end.

(** The selection is [Default], or the recorded face is a mesh that lies
    under the recorded cube, which the lookup knows. *)
Definition selectionConsistent (sc : Interaction) (st : State) : Prop :=
  Default st
  \/ exists block face,
       Selected st block face
       /\ block ∈ (cubesByName sc).*1
       /\ isMesh face = true
       /\ SelectionMachine.findCubeName sc face = Some block
       /\ exists cube, cube ∈ ancestorChain face /\ name cube = block.

(** The scale tweens a selection of [cubeName] issues at [now]: the chosen
    cube toward the expanded value, every other toward the dimmed one. *)
Definition scalesIssued (sc : Interaction) (now : R) (cubeName : string)
    (st' : State) : Prop :=
  forall n cube,
    (n, cube) ∈ cubesByName sc ->
    exists tw,
      scale (anim st') !! uuid cube = Some tw
      /\ sc_t0 tw = now
      /\ (n = cubeName ->
          sc_to tw = SELECTED_CUBE_SCALE /\ sc_bounce tw = SELECTED_CUBE_BOUNCE)
      /\ (n <> cubeName ->
          sc_to tw = DIMMED_CUBE_SCALE /\ sc_bounce tw = DIMMED_CUBE_BOUNCE).

(** The camera tween of a selection: toward [pose], zoomed in. *)
Definition cameraIssued (now : R) (pose : Pose) (fov : R) (st st' : State)
    : Prop :=
  exists tw,
    camera (anim st') = Some tw
    /\ cam_t0 tw = now
    /\ cam_fromAz tw = c_azimuth (cameraState (world st))
    /\ cam_dAz tw
       = JsMath.shortestAngleDelta (c_azimuth (cameraState (world st)))
           (azimuth pose)
    /\ cam_toPol tw = polar pose
    /\ cam_toDist tw = distance pose
    /\ cam_toFov tw = Some fov.

(** The effects of the Block-Switch transition onto [clicked] of
    [cubeName]. *)
Definition blockSwitchIssued (vals : Values) (sc : Interaction) (now : R)
    (cubeName : string) (clicked : Object3D) (st' : State) : Prop :=
  selection st' = mkSelection (Some cubeName) (Some clicked) (Some cubeName) now
  /\ scalesIssued sc now cubeName st'
  /\ forall face,
       face ∈ allFaceMeshes sc -> is_Some (material face) ->
       (uuid face = uuid clicked ->
        opacityTarget st' face 1 /\ emphasised vals (world st') face)
       /\ (uuid face <> uuid clicked ->
           dimmedTo DIMMED_FACE_OPACITY face st').

(** The effects of the switch to another face [clicked] of the selected
    cube. *)
Definition faceSwitchIssued (vals : Values) (sc : Interaction) (now : R)
    (cubeName : string) (clicked : Object3D) (st st' : State) : Prop :=
  selection st'
  = mkSelection (currentlyExpandedCubeName (selection st)) (Some clicked)
      (Some cubeName) now
  /\ scalesIssued sc now cubeName st'
  /\ opacityTarget st' clicked 1
  /\ emphasised vals (world st') clicked
  /\ forall face,
       face ∈ allFaceMeshes sc -> is_Some (material face) ->
       uuid face <> uuid clicked ->
       dimmedTo DIMMED_FACE_OPACITY face st'.

(** The effects of the Reset transition. *)
Definition resetIssued (vals : Values) (sc : Interaction) (now : R)
    (st st' : State) : Prop :=
  (forall n cube, (n, cube) ∈ cubesByName sc -> scaleTarget st' cube 1 0.8)
  /\ (forall face,
        face ∈ allFaceMeshes sc -> is_Some (material face) ->
        opacityTarget st' face 1 /\ emphasisCleared (world st') face)
  /\ cameraIssued now (defaultPoseRef st) (cameraFov vals) st st'
  /\ Default st'
  /\ currentlyExpandedCubeName (selection st') = None.

(** ** A small scene for the concrete runs *)

Module Example.

Definition root : Object3D := mkObject3D "u-root" "Scene" false None None.
Definition homeCube : Object3D :=
  mkObject3D "u-top5" "top_block_5" false None (Some root).
Definition midCube : Object3D :=
  mkObject3D "u-mid1" "mid_block_1" false None (Some root).
Definition homeFace : Object3D :=
  mkObject3D "u-top5-f1" "f5_top" true (Some "m-yellow") (Some homeCube).
Definition faceA : Object3D :=
  mkObject3D "u-mid1-f1" "f1_front" true (Some "m-red") (Some midCube).
Definition faceX : Object3D :=
  mkObject3D "u-mid1-f2" "f2_side" true (Some "m-blue") (Some midCube).
Definition midBody : Object3D :=
  mkObject3D "u-mid1-body" "body" true (Some "m-black") (Some midCube).

Definition origin : Vector3 := mkVector3 0 0 0.

Definition scene : Interaction :=
  mkInteraction
    [("mid_block_1", midCube); ("top_block_5", homeCube)]
    [faceA; faceX; homeFace]
    {["u-mid1-f1"; "u-mid1-f2"; "u-top5-f1"]}
    {["m-black"]}
    origin.

(** The defaults of the Leva store. *)
Definition vals : Values :=
  mkValues Cinematic Babylon true 20 45 0 0 18 1.2.

Definition three : Three :=
  mkThree (fun _ _ => mkVector3 0 0 5) (fun _ => (0, PI / 2)).

Definition defaultPose : Pose := mkPose (- 2.983) 2.051 20.

Definition preparedFaces : gmap string FaceMaterial :=
  <["u-mid1-f1" := mkFaceMaterial 1 0]>
    (<["u-mid1-f2" := mkFaceMaterial 1 0]>
       (<["u-top5-f1" := mkFaceMaterial 1 0]> ∅)).

Definition controls : Controls := mkControls true 5 120 origin.

(** The state once the model is ready and the intro has played out. *)
Definition ready : State :=
  mkState
    SelectionMachine.clearedSelection
    (mkAnim ∅ ∅ None None)
    (mkWorld preparedFaces ∅ ∅ 0 0
       (mkCameraState (- 2.983) 2.051 20 45 origin) (Some controls))
    false
    defaultPose.

(** A settled selection of [faceA] on [mid_block_1]. *)
Definition selectedA : State :=
  mkState
    (mkSelection (Some "mid_block_1") (Some faceA) (Some "mid_block_1") 1000)
    (mkAnim ∅ ∅ None None)
    (mkWorld
       (<["u-mid1-f1" := mkFaceMaterial 1 1.2]>
          (<["u-mid1-f2" := mkFaceMaterial 0.15 0]>
             (<["u-top5-f1" := mkFaceMaterial 0.15 0]> ∅)))
       {["u-mid1-f1"]}
       (<["u-mid1" := 1.28]> (<["u-top5" := 0.82]> ∅))
       0 0
       (mkCameraState 0 (PI / 2) 18 26 origin)
       (Some (mkControls true 18 18 origin)))
    false
    defaultPose.

Definition tap (now : R) (face : Object3D) (st : State) : State :=
  SelectionMachine.applyFaceSelection three vals scene now (Some face)
    true None st.

(** A pointer-up on the body of [mid_block_1] with [faceA] behind it. *)
Definition occludedHit : PointerUpHits :=
  mkPointerUpHits midBody (Some [midBody; faceA]) [faceA].

End Example.

(** ** The render loop *)

(** Successive [useFrame] callbacks, one per clock reading, with no handler
    running in between. *)
Definition frames (ts : list R) (st : State) : State :=
  foldl (fun st now => Animator.frame now st) st ts.

(** ** Pointer gestures (App.jsx, lines 1318-1493) *)

(** A numeric field of a DOM event as the handlers test it: a finite number,
    a field that is absent ([undefined] or [null]), or a number that is not
    finite. *)
Inductive Coord : Type := Finite (x : R) | Missing | NonFinite.

(** What the handlers read of a pointer event.  [ev_pointerType] is the
    empty string when the field is absent; [ev_timeStamp] is [None] unless
    the field is a finite number; [ev_button] and [ev_delta] are [None]
    unless the field is a number. *)
Record PointerEvent : Type := mkPointerEvent {
  ev_pointerType : string;
  ev_isPrimary : option bool;
  ev_pointerId : option Z;
  ev_clientX : Coord;
  ev_clientY : Coord;
  ev_timeStamp : option R;
  ev_button : option Z;
  ev_delta : option R;
  ev_hits : PointerUpHits
}.

(** [pointerDownRef.current]; a coordinate is [None] when it is not a finite
    number, an orbit reading is [None] when the controls were not mounted.
    [downAt] is the initial -1 or a reading of [performance.now()], so the
    handler's [Number.isFinite(downAt)] always holds. *)
Record PointerDown : Type := mkPointerDown {
  down_active : bool;
  down_pointerId : option Z;
  down_x : option R;
  down_y : option R;
  downAt : R;
  maxFromStart : R;
  startAzimuth : option R;
  startPolar : option R;
  startDistance : option R
}.

(** [lastPointerUpRef.current] *)
Record LastPointerUp : Type := mkLastPointerUp {
  up_pointerId : option Z;
  up_timeStamp : R
}.

(** [lastResolvedTapRef.current] *)
Record LastResolvedTap : Type := mkLastResolvedTap {
  tap_time : R;
  tap_x : option R;
  tap_y : option R;
  tap_pointerType : option string;
  tap_faceUuid : option string
}.

Record GestureRefs : Type := mkGestureRefs {
  pointerDownRef : PointerDown;
  lastPointerUpRef : LastPointerUp;
  lastResolvedTapRef : LastResolvedTap;
  suppressOrbitSyncUntilRef : R
}.

Definition CLICK_DRAG_THRESHOLD_PX : R := 8.
Definition TOUCH_DRAG_THRESHOLD_PX : R := 22.
Definition MIN_CLICK_PRESS_MS : R := 30.

Module GestureClassifier.
Import JsMath SelectionMachine.

(** The refs as [useRef] initialises them. *)
Definition initialRefs : GestureRefs :=
  mkGestureRefs
    (mkPointerDown false None (Some 0) (Some 0) (- 1) 0 None None None)
    (mkLastPointerUp None (- 1))
    (mkLastResolvedTap (- 1) None None None None)
    0.

(** [Number.isFinite(v)], with the value when it holds. *)
Definition finiteOf (c : Coord) : option R :=
  match c with Finite x => Some x | _ => None end.

(** [v ?? 0], kept when it is a finite number. *)
Definition orZero (c : Coord) : option R :=
  match c with Finite x => Some x | Missing => Some 0 | NonFinite => None end.

(** [Math.hypot(a, b)] *)
Definition hypot (a b : R) : R := sqrt (a * a + b * b).

Definition eqbR (a b : R) : bool := if Req_dec_T a b then true else false.

(** [down.pointerId == null || ev?.pointerId == null
     || down.pointerId === ev.pointerId] *)
Definition samePointer (down ev : option Z) : bool :=
  match down, ev with
  | Some a, Some b => Z.eqb a b
  | _, _ => true
  end.

Definition isTouch (e : PointerEvent) : bool :=
  String.eqb (ev_pointerType e) "touch".

(** [ev?.pointerType === "touch" && ev?.isPrimary === false] *)
Definition secondaryTouch (e : PointerEvent) : bool :=
  isTouch e && bool_decide (ev_isPrimary e = Some false).

(** [ev?.pointerType === "mouse" && typeof ev?.button === "number"
     && ev.button !== 0] *)
Definition otherMouseButton (e : PointerEvent) : bool :=
  String.eqb (ev_pointerType e) "mouse"
  && match ev_button e with
     | Some b => negb (Z.eqb b 0)
     | None => false
     end.

Definition dragThreshold (e : PointerEvent) : R :=
  if isTouch e then TOUCH_DRAG_THRESHOLD_PX else CLICK_DRAG_THRESHOLD_PX.

(** [controls ? controls.getAzimuthalAngle() : null] and its two
    companions. *)
Definition orbitReading (w : World) (f : CameraState -> R) : option R :=
  match controlsRef w with
  | Some _ => Some (f (cameraState w))
  | None => None
  end.

Definition with_pointerDown (d : PointerDown) (refs : GestureRefs)
    : GestureRefs :=
  mkGestureRefs d (lastPointerUpRef refs) (lastResolvedTapRef refs)
    (suppressOrbitSyncUntilRef refs).

Definition onModelPointerDown (isGuidedRunning : bool) (now : R)
    (e : PointerEvent) (w : World) (refs : GestureRefs) : GestureRefs :=
  if isGuidedRunning then refs
  else if secondaryTouch e then refs
  else
    with_pointerDown
      (mkPointerDown true (ev_pointerId e)
         (orZero (ev_clientX e)) (orZero (ev_clientY e)) now 0
         (orbitReading w c_azimuth) (orbitReading w c_polar)
         (orbitReading w c_distance))
      refs.

Definition onModelPointerMove (e : PointerEvent) (refs : GestureRefs)
    : GestureRefs :=
  let down := pointerDownRef refs in
  if negb (down_active down) then refs
  else if negb (samePointer (down_pointerId down) (ev_pointerId e)) then refs
  else
    match finiteOf (ev_clientX e), finiteOf (ev_clientY e) with
    | Some x, Some y =>
        match down_x down, down_y down with
        | Some x0, Some y0 =>
            let fromStart := hypot (x - x0) (y - y0) in
            if gtb fromStart (maxFromStart down) then
              with_pointerDown
                (mkPointerDown (down_active down) (down_pointerId down)
                   (down_x down) (down_y down) (downAt down) fromStart
                   (startAzimuth down) (startPolar down) (startDistance down))
                refs
            else refs
        | _, _ => refs
        end
    | _, _ => refs
    end.

(** The duplicate-callback guard on the native event. *)
Definition sameNativeEvent (e : PointerEvent) (last : LastPointerUp) : bool :=
  let timeStamp := default (- 1) (ev_timeStamp e) in
  leb 0 timeStamp
  && eqbR (up_timeStamp last) timeStamp
  && bool_decide (up_pointerId last = ev_pointerId e).

(** [if (dragDistance > dragThreshold) return], where the coordinates and
    the pointer allow the test. *)
Definition dragged (e : PointerEvent) (down : PointerDown) : bool :=
  match down_x down, down_y down,
        finiteOf (ev_clientX e), finiteOf (ev_clientY e) with
  | Some x0, Some y0, Some x, Some y =>
      samePointer (down_pointerId down) (ev_pointerId e)
      && gtb (Math_max (hypot (x - x0) (y - y0)) (maxFromStart down))
           (dragThreshold e)
  | _, _, _, _ => false
  end.

(** The orbit moved between press and release. *)
Definition cameraMoved (w : World) (down : PointerDown) : bool :=
  match controlsRef w with
  | None => false
  | Some _ =>
      match startAzimuth down, startPolar down, startDistance down with
      | Some az, Some pol, Some dist =>
          let cam := cameraState w in
          let azMoved := Rabs (shortestAngleDelta az (c_azimuth cam)) in
          let polMoved := Rabs (c_polar cam - pol) in
          let distMoved := Rabs (c_distance cam - dist) in
          gtb azMoved 0.01 || gtb polMoved 0.01 || gtb distMoved 0.05
      | _, _, _ => false
      end
  end.

(** [typeof e.delta === "number" && e.delta > dragThreshold] *)
Definition deltaDragged (e : PointerEvent) : bool :=
  match ev_delta e with
  | Some d => gtb d (dragThreshold e)
  | None => false
  end.

(** [ev?.pointerType || "mouse"] *)
Definition pointerTypeOf (e : PointerEvent) : string :=
  if String.eqb (ev_pointerType e) "" then "mouse" else ev_pointerType e.

(** [resolvedFace?.uuid || null] *)
Definition faceUuidOf (face : Object3D) : option string :=
  if String.eqb (uuid face) "" then None else Some (uuid face).

Definition sameFace (last : LastResolvedTap) (face : Object3D) : bool :=
  match tap_faceUuid last with
  | Some u =>
      negb (String.eqb u "") && negb (String.eqb (uuid face) "")
      && String.eqb u (uuid face)
  | None => false
  end.

Definition sameSpot (last : LastResolvedTap) (e : PointerEvent) : bool :=
  match tap_x last, tap_y last,
        finiteOf (ev_clientX e), finiteOf (ev_clientY e) with
  | Some lx, Some ly, Some x, Some y => ltb (hypot (x - lx) (y - ly)) 2
  | _, _, _, _ => false
  end.

(** A second dispatch of the same physical tap. *)
Definition duplicateTap (now : R) (e : PointerEvent) (last : LastResolvedTap)
    (face : Object3D) : bool :=
  sameFace last face && sameSpot last e && ltb (now - tap_time last) 320.

(** The synthetic mouse event that follows a touch on some devices. *)
Definition mouseAfterTouch (now : R) (e : PointerEvent)
    (last : LastResolvedTap) : bool :=
  String.eqb (pointerTypeOf e) "mouse"
  && bool_decide (tap_pointerType last = Some "touch")
  && ltb (now - tap_time last) 800.

(** [onModelPointerUp] up to its last two calls, every gate included: the
    refs it leaves and the face it goes on to select, if any. *)
Definition pointerUpTap (isGuidedRunning : bool) (sc : Interaction) (now : R)
    (e : PointerEvent) (st : State) (refs : GestureRefs)
    : GestureRefs * option Object3D :=
  if isGuidedRunning then (refs, None)
  else if cameraAnimLockRef st then (refs, None)
  else if secondaryTouch e then (refs, None)
  else if otherMouseButton e then (refs, None)
  else if negb (Gesture.isClosestIntersection (ev_hits e)) then (refs, None)
  else if sameNativeEvent e (lastPointerUpRef refs) then (refs, None)
  else
    let down := pointerDownRef refs in
    let released :=
      mkPointerDown false (down_pointerId down) (down_x down) (down_y down)
        (downAt down) (maxFromStart down) (startAzimuth down)
        (startPolar down) (startDistance down) in
    let refs :=
      mkGestureRefs released
        (mkLastPointerUp (ev_pointerId e) (default (- 1) (ev_timeStamp e)))
        (lastResolvedTapRef refs) (suppressOrbitSyncUntilRef refs) in
    if negb (down_active down) then (refs, None)
    else if ltb (now - downAt down) MIN_CLICK_PRESS_MS then (refs, None)
    else if dragged e down then (refs, None)
    else if cameraMoved (world st) down then (refs, None)
    else if deltaDragged e then (refs, None)
    else
      match allFaceMeshes sc with
      | [] => (refs, None)
      | _ :: _ =>
          match Gesture.resolvedFace sc (ev_hits e) with
          | None => (refs, None)
          | Some face =>
              let lastTap := lastResolvedTapRef refs in
              if duplicateTap now e lastTap face then (refs, None)
              else if mouseAfterTouch now e lastTap then (refs, None)
              else
                (mkGestureRefs (pointerDownRef refs) (lastPointerUpRef refs)
                   (mkLastResolvedTap now (finiteOf (ev_clientX e))
                      (finiteOf (ev_clientY e)) (Some (pointerTypeOf e))
                      (faceUuidOf face))
                   (Math_max (suppressOrbitSyncUntilRef refs) (now + 1100)),
                 Some face)
          end
      end.

(** The [onEnd] callback of the orbit controls (App.jsx, lines 2066-2083):
    the pose it copies into the Leva store, if it does. *)
Definition orbitEndSync (isGuidedRunning syncLevaFromOrbit : bool) (now : R)
    (st : State) (refs : GestureRefs) : option (Pose * Vector3) :=
  if isGuidedRunning then None
  else if negb syncLevaFromOrbit then None
  else
    match controlsRef (world st) with
    | None => None
    | Some controls =>
        if cameraAnimLockRef st then None
        else if ltb now (suppressOrbitSyncUntilRef refs) then None
        else
          let cam := cameraState (world st) in
          Some (mkPose (c_azimuth cam) (c_polar cam) (c_distance cam),
                ctl_target controls)
    end.

End GestureClassifier.

(** ** Idle timer (App.jsx, lines 900-935) *)

(** [timerRef.current], with the browser's table of the timeouts this
    component has scheduled and not yet run or cleared, keyed by timeout id
    and holding the time each is due. *)
Record Timer : Type := mkTimer {
  timer_id : option nat;
  timer_active : bool;
  pendingTimeouts : gmap nat R;
  nextTimeoutId : nat
}.

Module IdleTimer.
Import SelectionMachine.

Definition IDLE_MS : R := 30000.

Definition initialTimer : Timer := mkTimer None false ∅ 1.

(** [clearTimeout(id)]; an id that names no pending timeout is ignored. *)
Definition clearTimeout (id : option nat) (tm : Timer) : Timer :=
  match id with
  | Some i =>
      mkTimer (timer_id tm) (timer_active tm) (delete i (pendingTimeouts tm))
        (nextTimeoutId tm)
  | None => tm
  end.

Definition resetTimer (tm : Timer) : Timer :=
  if negb (timer_active tm) then tm
  else
    let tm := clearTimeout (timer_id tm) tm in
    mkTimer (timer_id tm) false (pendingTimeouts tm) (nextTimeoutId tm).

(** [setTimeout] hands out a fresh id. *)
Definition startTimer (now : R) (tm : Timer) : Timer :=
  if timer_active tm then tm
  else
    let id := nextTimeoutId tm in
    mkTimer (Some id) true (<[id := now + IDLE_MS]> (pendingTimeouts tm))
      (S id).

Definition onInteraction (isGuidedRunning : bool) (now : R) (tm : Timer)
    : Timer :=
  if isGuidedRunning then tm else startTimer now (resetTimer tm).

(** The browser runs the callback of timeout [id] at [now]: nothing happens
    unless it is pending and due; otherwise it leaves the table and the
    callback of [startTimer] runs. *)
Definition runTimeout (vals : Values) (sc : Interaction) (now : R) (id : nat)
    (s : Timer * State) : Timer * State :=
  let '(tm, st) := s in
  match pendingTimeouts tm !! id with
  | Some due =>
      if JsMath.leb due now then
        (mkTimer (timer_id tm) false (delete id (pendingTimeouts tm))
           (nextTimeoutId tm),
         returnToDefault vals sc now st)
      else s
  | None => s
  end.

(** [handlePanelClose] *)
Definition handlePanelClose (isDemoRunning isGuidedRunning : bool)
    (vals : Values) (sc : Interaction) (now : R) (s : Timer * State)
    : Timer * State :=
  if isDemoRunning then s
  else (onInteraction isGuidedRunning now s.1, returnToDefault vals sc now s.2).

End IdleTimer.

(** ** The pointer-up handler, whole *)

Definition onModelPointerUp (isGuidedRunning : bool) (three : Three)
    (vals : Values) (sc : Interaction) (now : R) (e : PointerEvent)
    (s : GestureRefs * Timer * State) : GestureRefs * Timer * State :=
  let '(refs, tm, st) := s in
  match GestureClassifier.pointerUpTap isGuidedRunning sc now e st refs with
  | (refs, None) => (refs, tm, st)
  | (refs, Some face) =>
      (refs,
       IdleTimer.onInteraction isGuidedRunning now tm,
       SelectionMachine.applyFaceSelection three vals sc now (Some face)
         true None st)
  end.

(** What reaches the pointer handlers, in order. *)
Inductive PointerInput : Type :=
  | PointerDownAt (now : R) (e : PointerEvent) (w : World)
  | PointerMove (e : PointerEvent)
  | PointerUpAt (now : R) (e : PointerEvent) (st : State).

(** The handlers run over a stream of inputs; the faces selected, latest
    first. *)
Definition gestureStep (isGuidedRunning : bool) (sc : Interaction)
    (s : GestureRefs * list Object3D) (i : PointerInput)
    : GestureRefs * list Object3D :=
  match i with
  | PointerDownAt now e w =>
      (GestureClassifier.onModelPointerDown isGuidedRunning now e w s.1, s.2)
  | PointerMove e => (GestureClassifier.onModelPointerMove e s.1, s.2)
  | PointerUpAt now e st =>
      match GestureClassifier.pointerUpTap isGuidedRunning sc now e st s.1 with
      | (refs, Some face) => (refs, face :: s.2)
      | (refs, None) => (refs, s.2)
      end
  end.

Definition runGesture (isGuidedRunning : bool) (sc : Interaction)
    (inputs : list PointerInput) (refs : GestureRefs)
    : GestureRefs * list Object3D :=
  foldl (gestureStep isGuidedRunning sc) (refs, []) inputs.

Definition isPointerDown (i : PointerInput) : bool :=
  match i with PointerDownAt _ _ _ => true | _ => false end.

Definition isPointerUp (i : PointerInput) : bool :=
  match i with PointerUpAt _ _ _ => true | _ => false end.

(** The timer flag and the timeout table agree: armed means exactly one
    pending timeout, the one [timerRef] names; idle means none.  Ids still
    to be handed out are not in the table. *)
Definition timerConsistent (tm : Timer) : Prop :=
  (forall id, is_Some (pendingTimeouts tm !! id) -> (id < nextTimeoutId tm)%nat)
  /\ if timer_active tm
     then exists id due,
            timer_id tm = Some id /\ pendingTimeouts tm = {[id := due]}
     else pendingTimeouts tm = ∅.

(** ** A press and its release on the small scene *)

Module GestureExample.
Import GestureClassifier.

Definition hitA : PointerUpHits :=
  mkPointerUpHits Example.faceA (Some [Example.faceA]) [Example.faceA].

(** A mouse press on [faceA] at (100, 100). *)
Definition press : PointerEvent :=
  mkPointerEvent "mouse" (Some true) (Some 1%Z) (Finite 100) (Finite 100)
    (Some 5000) (Some 0%Z) None hitA.

(** Its release 120 ms later, on the same spot. *)
Definition release : PointerEvent :=
  mkPointerEvent "mouse" (Some true) (Some 1%Z) (Finite 100) (Finite 100)
    (Some 5120) (Some 0%Z) (Some 0) hitA.

(** A move 30 px to the right of the press. *)
Definition stray : PointerEvent :=
  mkPointerEvent "mouse" (Some true) (Some 1%Z) (Finite 130) (Finite 100)
    (Some 5060) None None hitA.

Definition pressed : GestureRefs :=
  onModelPointerDown false 5000 press (world Example.ready) initialRefs.

End GestureExample.

(** ** Side panels (App.jsx, lines 17-34 and 796-836; SidePanel.jsx) *)

Record PanelEntry : Type := mkPanelEntry { pc_title : string; pc_url : string }.

(** The [id] of a panel: the face's uuid, or [face-<Date.now()>]. *)
Inductive PanelId : Type := FaceId (u : string) | TimeId (t : R).

Record PanelData : Type := mkPanelData {
  panel_id : PanelId;
  panel_title : string;
  panel_iframeUrl : string;
  panel_faceUuid : option string
}.

(** [panelState] *)
Record PanelState : Type := mkPanelState {
  primary : option PanelData;
  secondary : option PanelData
}.

(** [panelContentRef.current] and [panelSlotRef.current] *)
Record PanelStore : Type := mkPanelStore {
  panelContentRef : gmap string nat;
  panelSlotRef : nat
}.

Module Panels.

Definition reel01 : PanelEntry :=
  mkPanelEntry "Product Reel 01" "https://www.youtube.com/embed/u3l139Txuk4".
Definition reel02 : PanelEntry :=
  mkPanelEntry "Product Reel 02" "https://www.youtube.com/embed/hAnTKmmMbXs".
Definition reel03 : PanelEntry :=
  mkPanelEntry "Product Reel 03" "https://www.youtube.com/embed/HK683qBU8SU".
Definition reel04 : PanelEntry :=
  mkPanelEntry "Product Reel 04" "https://www.youtube.com/embed/8KDBZVTm078".

Definition PANEL_CONTENT : list PanelEntry := [reel01; reel02; reel03; reel04].

Definition initialStore : PanelStore := mkPanelStore ∅ 0.
Definition initialPanels : PanelState := mkPanelState None None.

(** [PANEL_CONTENT[slot] || PANEL_CONTENT[0]] *)
Definition contentAt (slot : nat) : PanelEntry :=
  default reel01 (PANEL_CONTENT !! slot).

Definition getContentForFace (face : option Object3D) (store : PanelStore)
    : PanelEntry * PanelStore :=
  match face with
  | None => (contentAt 0, store)
  | Some face =>
      match panelContentRef store !! uuid face with
      | Some slot => (contentAt slot, store)
      | None =>
          let slot := (panelSlotRef store mod length PANEL_CONTENT)%nat in
          (contentAt slot,
           mkPanelStore (<[uuid face := slot]> (panelContentRef store))
             ((panelSlotRef store + 1) mod length PANEL_CONTENT)%nat)
      end
  end.

(** [face?.uuid || null] *)
Definition faceUuid (face : option Object3D) : option string :=
  match face with
  | Some face => if String.eqb (uuid face) "" then None else Some (uuid face)
  | None => None
  end.

(** [buildPanelData(face)], with the reading of [Date.now()]. *)
Definition buildPanelData (dateNow : R) (face : option Object3D)
    (store : PanelStore) : PanelData * PanelStore :=
  let '(content, store) := getContentForFace face store in
  (mkPanelData
     (match faceUuid face with Some u => FaceId u | None => TimeId dateNow end)
     (pc_title content) (pc_url content) (faceUuid face),
   store).

Definition clearPanels (prev : PanelState) : PanelState :=
  mkPanelState None None.

Definition focusPanelForFace (dateNow : R) (face : option Object3D)
    (s : PanelStore * PanelState) : PanelStore * PanelState :=
  let '(next, store) := buildPanelData dateNow face s.1 in
  let prev := s.2 in
  (store,
   match primary prev with
   | None => mkPanelState (Some next) None
   | Some p =>
       if bool_decide (panel_faceUuid p = panel_faceUuid next) then prev
       else mkPanelState (Some next) (Some p)
   end).

Definition swapPanels (prev : PanelState) : PanelState :=
  match primary prev, secondary prev with
  | Some p, Some s => mkPanelState (Some s) (Some p)
  | _, _ => prev
  end.

(** [SidePanel]: [panels.filter(Boolean)] of [[primary, secondary]], and
    what it shows. *)
Definition visiblePanels (ps : PanelState) : list PanelData :=
  omap (fun p => p) [primary ps; secondary ps].

Definition shouldShow (isDemoRunning : bool) (ps : PanelState) : bool :=
  negb (bool_decide (visiblePanels ps = [])) && negb isDemoRunning.

Definition shownPrimary (ps : PanelState) : option PanelData :=
  visiblePanels ps !! 0%nat.

Definition shownSecondary (ps : PanelState) : option PanelData :=
  visiblePanels ps !! 1%nat.

End Panels.

(** A secondary panel is only there beside a primary one, and the two are
    panels of different faces. *)
Definition panelsWellFormed (ps : PanelState) : Prop :=
  match secondary ps with
  | None => True
  | Some s =>
      exists p, primary ps = Some p /\ panel_faceUuid p <> panel_faceUuid s
  end.

(** The content store hands out slots of [PANEL_CONTENT] only. *)
Definition storeInRange (store : PanelStore) : Prop :=
  (panelSlotRef store < length Panels.PANEL_CONTENT)%nat
  /\ forall u slot,
       panelContentRef store !! u = Some slot ->
       (slot < length Panels.PANEL_CONTENT)%nat.

(** ** Intro (App.jsx, lines 1020-1074) *)

(** [introSettingsRef.current] *)
Record IntroSettings : Type := mkIntroSettings {
  intro_play : bool;
  intro_faceMs : R;
  intro_centerMs : R;
  intro_backEase : R;
  intro_spinTurns : R
}.

Module Intro.
Import Producers.

(** [originalPosition.x] and [originalRotation.y] of the ["Center"]
    object. *)
Definition CENTER_X : R := 0.055.
Definition CENTER_ROT_Y : R := 576.34 * PI / 180.

(** One turn of the [allFaces.forEach]; [None] is the [TypeError] of
    [face.material.opacity = 0] on a face without a material. *)
Definition introFace (intro : IntroSettings) (now : R) (acc : option State)
    (face : Object3D) : option State :=
  match acc with
  | None => None
  | Some st =>
      match material face with
      | None => None
      | Some _ =>
          let w := prepareFaceForFade face (world st) in
          let w :=
            with_faceMaterials
              (alter (fun m => mkFaceMaterial 0 (mat_emissiveIntensity m))
                 (uuid face) (faceMaterials w)) w in
          Some
            (with_anim
               (with_opacity
                  (<[uuid face := mkOpacityTween 0 1 now (intro_faceMs intro)]>
                     (opacity (anim st))) (anim st))
               (with_world w st))
      end
  end.

(** [playIntroNow]; [rootReady] is [modelRef.current] being set and
    [centerFound] is [root.getObjectByName("Center")] finding the object. *)
Definition playIntroNow (rootReady centerFound : bool) (intro : IntroSettings)
    (sc : Interaction) (now : R) (st : State) : option State :=
  if negb rootReady then Some st
  else
    match foldl (introFace intro now) (Some st) (allFaceMeshes sc) with
    | None => None
    | Some st =>
        if centerFound then
          let fromX := CENTER_X + 150 in
          let tw :=
            mkCenterTween fromX CENTER_X CENTER_ROT_Y
              (CENTER_ROT_Y + intro_spinTurns intro * PI * 2)
              (intro_backEase intro) now (intro_centerMs intro) in
          Some
            (with_anim (with_center (Some tw) (anim st))
               (with_world (with_centerObject fromX CENTER_ROT_Y (world st))
                  st))
        else Some st
    end.

End Intro.

(** ** Frame pacing of the Wong Kar-wai effect (App.jsx, lines 158-213) *)

Module FramePacer.
Import JsMath.

(** [1000 / fps] *)
Definition intervalOf (fps : R) : R := 1000 / fps.

(** One [tick(now)]: the new value of [then], and whether the frame was
    advanced and rendered. *)
Definition tick (interval : R) (now : R) (then_ : R) : R * bool :=
  let elapsed := now - then_ in
  if gtb elapsed interval then (now - rem elapsed interval, true)
  else (then_, false).

(** Ticks at the given clock readings; the frames rendered are counted. *)
Definition ticks (interval : R) (nows : list R) (s : R * nat) : R * nat :=
  foldl
    (fun s now =>
       let '(then_, rendered) := tick interval now s.1 in
       (then_, if rendered then S s.2 else s.2))
    s nows.

End FramePacer.

(** ** [captureFromOrbit] (App.jsx, lines 716-735) *)


(** ** The orbit controls' update (App.jsx, lines 400-414 and 475-505) *)

(** The polar limits the orbit controls hold, which [BabylonConstraints]
    sets; the distance limits are in [Controls]. *)
Record OrbitLimits : Type := mkOrbitLimits {
  minPolarAngle : R;
  maxPolarAngle : R
}.

Module Orbit.
Import JsMath Animator.

(** three.js keeps a polar angle this far from the poles. *)
Definition EPS : R := / 1000000.

(** The polar angle [controls.update()] leaves: within the polar limits,
    then away from the poles. *)
Definition polarWithin (lim : OrbitLimits) (v : R) : R :=
  clamp (clamp v (minPolarAngle lim) (maxPolarAngle lim)) EPS (PI - EPS).

(** [controls.update()] on a pose just written to the camera.  The library
    is not part of this repository; it is taken at its documented limits,
    with the controls at rest (no rotation pending from pointer input,
    auto-rotation or damping): the polar angle is held within
    [[minPolarAngle, maxPolarAngle]] and then [EPS] away from the poles, the
    distance within [[minDistance, maxDistance]]; the azimuth limits are
    infinite.  The controls read the pose back from the camera's position,
    so this is their reading for a written pose of positive distance with
    its polar angle strictly between 0 and PI, the azimuth up to whole
    turns. *)
Definition update (lim : OrbitLimits) (c : Controls) (cam : CameraState)
    : CameraState :=
  mkCameraState (c_azimuth cam) (polarWithin lim (c_polar cam))
    (clamp (c_distance cam) (ctl_minDistance c) (ctl_maxDistance c))
    (c_fov cam) (c_lookAt cam).

(** [if (controlsRef.current) { ...; controlsRef.current.update(); }] *)
Definition updated (lim : OrbitLimits) (w : World) : World :=
  match controlsRef w with
  | Some c => with_cameraState (update lim c (cameraState w)) w
  | None => w
  end.

(** The camera pass of the Animator, its two calls of [controls.update()]
    included. *)
Definition stepCameraUpdated (lim : OrbitLimits) (now : R) (st : State)
    : State :=
  match camera (anim st) with
  | None => st
  | Some tw =>
      let t := progress now (cam_t0 tw) (cam_dur tw) in
      let w := world st in
      let cam := sampleCamera tw (c_fov (cameraState w)) t in
      let retarget (c : Controls) :=
        mkControls (ctl_enabled c) (ctl_minDistance c) (ctl_maxDistance c)
          (cam_target tw) in
      let w := with_cameraState cam w in
      let w := with_controls (retarget <$> controlsRef w) w in
      let w := updated lim w in
      if finished t then
        let release (c : Controls) :=
          if cam_lockDistanceAtEnd tw
          then mkControls true (c_distance cam) (c_distance cam) (ctl_target c)
          else mkControls true (ctl_minDistance c) (ctl_maxDistance c)
                 (ctl_target c) in
        let w := with_controls (release <$> controlsRef w) w in
        let w := updated lim w in
        with_cameraAnimLock false
          (with_anim (with_camera None (anim st)) (with_world w st))
      else with_world w st
  end.

(** One [useFrame] callback, whole. *)
Definition frameUpdated (lim : OrbitLimits) (now : R) (st : State) : State :=
  stepCameraUpdated lim now
    (stepCenter now (stepScale now (stepOpacity now st))).

End Orbit.

(** Successive [useFrame] callbacks under the polar limits [lim], with no
    handler running in between. *)
Definition framesUpdated (lim : OrbitLimits) (ts : list R) (st : State)
    : State :=
  foldl (fun st now => Orbit.frameUpdated lim now st) st ts.

(** Two states that differ at most in the camera's pose, the controls and
    the interaction lock. *)
Definition sameButRig (a b : State) : Prop :=
  selection a = selection b
  /\ anim a = anim b
  /\ faceMaterials (world a) = faceMaterials (world b)
  /\ bloomLayer (world a) = bloomLayer (world b)
  /\ objectScale (world a) = objectScale (world b)
  /\ centerPositionX (world a) = centerPositionX (world b)
  /\ centerRotationY (world a) = centerRotationY (world b)
  /\ defaultPoseRef a = defaultPoseRef b.

(** A tween whose fraction the model gives as the code does: its duration is
    not zero, or the frame is after its start. *)
Definition fractionDefined (now t0 dur : R) : Prop := dur <> 0 \/ t0 < now.

(** The limits of [BabylonConstraints] in the Babylon mode. *)
Definition babylonLimits : OrbitLimits := mkOrbitLimits 0.5 2.64.

(** ** The pose solver with its divisions checked (App.jsx, lines 957-1019)

    A JavaScript number is a real number, an infinity or NaN.  Rounding and
    overflow apart, the arithmetic of the solver leaves the real numbers in
    one way only: a division or a remainder by zero, where [0 / 0] and
    [x % 0] are NaN and any other quotient by 0 is an infinity.  The
    functions below are those of [PoseSolver] with every such operation
    checked: [None] stands for a result that is not a real number.  The
    divisions of the preset angles are by literals other than 0. *)

Module CheckedSolver.
Import JsMath Producers PoseSolver.

(** [a % b] *)
Definition remChecked (a b : R) : option R :=
  if Req_dec_T b 0 then None else Some (rem a b).

Definition normalizeAngleMinusPiToPiChecked (angle : R) : option R :=
  r ← remChecked (angle + PI) tau;
  r ← remChecked (r + tau) tau;
  Some (r - PI).

(** [v.normalize()], the division of [v] by its length.  three.js is not
    part of this repository: no value is taken for the zero vector. *)
Definition normalizeChecked (v : Vector3) : option Vector3 :=
  let length := sqrt (lengthSq v) in
  if Req_dec_T length 0 then None
  else Some (multiplyScalar v (/ length)).

Definition getCameraPoseForFaceChecked (vals : Values) (name : string)
    : option Pose :=
  let '(alpha, beta) := presetAngles name in
  azimuth ←
    normalizeAngleMinusPiToPiChecked (PI / 2 - alpha + presetYawOffset vals);
  Some (mkPose azimuth (beta + presetPolarOffset vals) (defaultDistance vals)).

Definition getCameraPoseForMeshChecked (three : Three) (vals : Values)
    (sc : Interaction) (w : World) (mesh : Object3D)
    (distanceOverride : option R) : option Pose :=
  let target := solverTarget vals sc w in
  let distance := default (defaultDistance vals) distanceOverride in
  let worldPos := getWorldPosition three w mesh in
  let dir := sub worldPos target in
  if degenerate dir then getCameraPoseForFaceChecked vals (name mesh)
  else
    unit ← normalizeChecked dir;
    let dir := multiplyScalar unit distance in
    let '(theta, phi) := setFromVector3 three dir in
    azimuth ←
      normalizeAngleMinusPiToPiChecked (theta + presetYawOffset vals);
    Some (mkPose azimuth
            (clamp (phi + presetPolarOffset vals) 0.001 (PI - 0.001))
            distance).

End CheckedSolver.

(** Reduce the projections of the record updates. *)
Ltac record_step :=
  unfold with_selection, with_anim, with_world, with_cameraAnimLock,
    with_opacity, with_scale, with_camera, with_center,
    with_faceMaterials, with_bloomLayer, with_objectScale,
    with_centerObject, with_cameraState, with_controls,
    Producers.setEmissiveIntensity in *;
  cbn [selection anim world cameraAnimLockRef defaultPoseRef
       opacity scale camera center
       faceMaterials bloomLayer objectScale centerPositionX centerRotationY
       cameraState controlsRef
       currentlyExpandedCubeName currentlyClickedFace selectedCubeNameRef
       lastSelectionAtRef] in *.
Ltac record_simpl := repeat (progress record_step).

(** * Properties *)

Module JsMathFacts.
Import JsMath.

Lemma ltb_true a b : ltb a b = true <-> a < b.
Proof. unfold ltb. destruct (Rlt_dec a b); split; intros; try done; lra. Qed.

Lemma ltb_false a b : ltb a b = false <-> b <= a.
Proof. unfold ltb. destruct (Rlt_dec a b); split; intros; try done; lra. Qed.

Lemma leb_true a b : leb a b = true <-> a <= b.
Proof. unfold leb. destruct (Rle_dec a b); split; intros; try done; lra. Qed.

Lemma leb_false a b : leb a b = false <-> b < a.
Proof. unfold leb. destruct (Rle_dec a b); split; intros; try done; lra. Qed.

Lemma Math_min_spec a b :
  (a <= b /\ Math_min a b = a) \/ (b < a /\ Math_min a b = b).
Proof. unfold Math_min. destruct (Rle_dec a b); [left | right]; split; lra. Qed.

Lemma Math_max_spec a b :
  (a <= b /\ Math_max a b = b) \/ (b < a /\ Math_max a b = a).
Proof. unfold Math_max. destruct (Rle_dec a b); [left | right]; split; lra. Qed.

Lemma clamp_bounds v lo hi : lo <= hi -> lo <= clamp v lo hi <= hi.
Proof.
  intros Hle. unfold clamp.
  destruct (Math_min_spec hi v) as [[? ->] | [? ->]];
    destruct (Math_max_spec lo hi) as [[? ?] | [? ?]];
    destruct (Math_max_spec lo v) as [[? ?] | [? ?]]; lra.
Qed.

(** Floor brackets its argument. *)
Lemma Int_part_bounds x : IZR (Int_part x) <= x < IZR (Int_part x) + 1.
Proof.
  unfold Int_part. rewrite minus_IZR.
  destruct (archimed x) as [H1 H2]. lra.
Qed.

(** The truncated quotient is within one of its argument, on the side of
    zero. *)
Lemma trunc_bounds x :
  (0 <= x -> IZR (trunc x) <= x < IZR (trunc x) + 1) /\
  (x < 0 -> IZR (trunc x) - 1 < x <= IZR (trunc x)).
Proof.
  unfold trunc. destruct (Rle_dec 0 x) as [Hx | Hx]; split; intros H; try lra.
  - apply Int_part_bounds.
  - rewrite opp_IZR. pose proof (Int_part_bounds (- x)). lra.
Qed.

Lemma rem_congr a b : exists k : Z, rem a b = a - IZR k * b.
Proof. exists (trunc (a / b)). unfold rem. lra. Qed.

(** For a positive divisor the remainder of a non-negative dividend is in
    [[0, b)], and that of a negative one in [(-b, 0]]. *)
Lemma rem_bounds a b :
  0 < b ->
  (0 <= a -> 0 <= rem a b < b) /\ (a < 0 -> - b < rem a b <= 0).
Proof.
  intros Hb. unfold rem.
  assert (Hq : a / b * b = a) by (field; lra).
  assert (Hinv : 0 < / b) by (apply Rinv_0_lt_compat; lra).
  destruct (trunc_bounds (a / b)) as [Hpos Hneg].
  split; intros Ha.
  - assert (0 <= a / b) by (unfold Rdiv; nra).
    specialize (Hpos H). nra.
  - assert (a / b < 0) by (unfold Rdiv; nra).
    specialize (Hneg H). nra.
Qed.

Lemma tau_pos : 0 < tau.
Proof. unfold tau. pose proof PI_RGT_0. lra. Qed.

Lemma normalizeAngle0ToTau_range x : 0 <= normalizeAngle0ToTau x < tau.
Proof.
  unfold normalizeAngle0ToTau. pose proof tau_pos as Ht.
  destruct (rem_bounds x tau Ht) as [Hp Hn].
  assert (H0 : 0 <= rem x tau + tau).
  { destruct (Rle_dec 0 x) as [Hx | Hx].
    - specialize (Hp Hx). lra.
    - assert (Hx' : x < 0) by lra. specialize (Hn Hx'). lra. }
  destruct (rem_bounds (rem x tau + tau) tau Ht) as [Hp' _]. auto.
Qed.

Lemma normalizeAngle0ToTau_congr x :
  exists k : Z, normalizeAngle0ToTau x = x + IZR k * tau.
Proof.
  unfold normalizeAngle0ToTau.
  destruct (rem_congr x tau) as [k1 H1].
  destruct (rem_congr (rem x tau + tau) tau) as [k2 H2].
  exists (1 - k1 - k2)%Z. rewrite H2, H1.
  rewrite !minus_IZR. lra.
Qed.

(** Two reals of [[0, tau)] that differ by a whole number of turns are
    equal. *)
Lemma turn_unique x y (k : Z) :
  0 <= x < tau -> 0 <= y < tau -> x = y + IZR k * tau -> x = y.
Proof.
  intros Hx Hy Heq. pose proof tau_pos as Ht.
  assert (Hk : (k = 0)%Z).
  { destruct (Z_lt_le_dec k 1) as [Hlt | Hge].
    - destruct (Z_lt_le_dec (-1) k) as [Hgt | Hle]; [lia | ].
      exfalso. apply IZR_le in Hle. nra.
    - exfalso. apply IZR_le in Hge. nra. }
  subst k. lra.
Qed.

Lemma normalizeAngle0ToTau_turns x y (k : Z) :
  x = y + IZR k * tau -> normalizeAngle0ToTau x = normalizeAngle0ToTau y.
Proof.
  intros Heq.
  destruct (normalizeAngle0ToTau_congr x) as [kx Hx].
  destruct (normalizeAngle0ToTau_congr y) as [ky Hy].
  apply (turn_unique _ _ (kx + k - ky)%Z);
    try apply normalizeAngle0ToTau_range.
  rewrite Hx, Hy, Heq, minus_IZR, plus_IZR. lra.
Qed.

Lemma shortestAngleDelta_range from to :
  - PI <= shortestAngleDelta from to <= PI.
Proof.
  unfold shortestAngleDelta.
  pose proof (normalizeAngle0ToTau_range from).
  pose proof (normalizeAngle0ToTau_range to).
  pose proof PI_RGT_0. unfold tau in *. unfold gtb.
  destruct (ltb PI _) eqn:E1.
  - apply ltb_true in E1.
    destruct (ltb _ (- PI)) eqn:E2;
      [apply ltb_true in E2 | apply ltb_false in E2]; lra.
  - apply ltb_false in E1.
    destruct (ltb _ (- PI)) eqn:E2;
      [apply ltb_true in E2 | apply ltb_false in E2]; lra.
Qed.

Lemma shortestAngleDelta_congr from to :
  exists k : Z, shortestAngleDelta from to = to - from + IZR k * tau.
Proof.
  unfold shortestAngleDelta.
  destruct (normalizeAngle0ToTau_congr from) as [ka Ha].
  destruct (normalizeAngle0ToTau_congr to) as [kb Hb].
  rewrite Ha, Hb. unfold gtb.
  destruct (ltb PI _); destruct (ltb _ (- PI)).
  - exists (kb - ka)%Z. rewrite minus_IZR. lra.
  - exists (kb - ka - 1)%Z. rewrite !minus_IZR. lra.
  - exists (kb - ka + 1)%Z. rewrite plus_IZR, minus_IZR. lra.
  - exists (kb - ka)%Z. rewrite minus_IZR. lra.
Qed.

(** C5.  For all real angles [from] and [to], [shortestAngleDelta from to]
    lies in [[-PI, PI]], normalising [from + delta] gives the same angle as
    normalising [to], with either normaliser, and the delta is congruent to
    [to - from] modulo a full turn. *)
Theorem shortestAngleDelta_shortest_path (from to : R) :
  - PI <= shortestAngleDelta from to <= PI
  /\ normalizeAngle0ToTau (from + shortestAngleDelta from to)
     = normalizeAngle0ToTau to
  /\ normalizeAngleMinusPiToPi (from + shortestAngleDelta from to)
     = normalizeAngleMinusPiToPi to
  /\ exists k : Z, shortestAngleDelta from to = to - from + IZR k * tau.
Proof.
  split; [apply shortestAngleDelta_range | ].
  destruct (shortestAngleDelta_congr from to) as [k Hk].
  split; [ | split; [ | by exists k]].
  - apply (normalizeAngle0ToTau_turns _ _ k). rewrite Hk. lra.
  - change (normalizeAngle0ToTau (from + shortestAngleDelta from to + PI) - PI
            = normalizeAngle0ToTau (to + PI) - PI).
    f_equal. apply (normalizeAngle0ToTau_turns _ _ k). rewrite Hk. lra.
Qed.

End JsMathFacts.

(** ** Generic facts about [forEach] loops *)

Section Loops.
Context {A S : Type} (f : S -> A -> S).

Lemma foldl_preserves (P : S -> Prop) (l : list A) (s : S) :
  (forall s x, x ∈ l -> P s -> P (f s x)) -> P s -> P (foldl f s l).
Proof.
  revert s. induction l as [ | y l IH]; intros s Hstep Hs; simpl; [done | ].
  apply IH.
  - intros s' x Hx. apply Hstep. by right.
  - apply Hstep; [by left | done].
Qed.

(** A property that the loop body establishes for the element it visits,
    and that no later visit destroys, holds of every element at the end. *)
Lemma foldl_establishes (Q : A -> S -> Prop) (l : list A) :
  (forall s x, x ∈ l -> Q x (f s x)) ->
  (forall s x y, x ∈ l -> y ∈ l -> Q x s -> Q x (f s y)) ->
  forall s x, x ∈ l -> Q x (foldl f s l).
Proof.
  induction l as [ | y l IH] using rev_ind; intros Hvisit Hkeep s x Hx.
  - by apply elem_of_nil in Hx.
  - rewrite foldl_snoc. apply elem_of_app in Hx as [Hx | Hx].
    + apply Hkeep;
        [apply elem_of_app; by left | apply elem_of_app; right; by left | ].
      apply IH; [ | | done].
      * intros s' x' Hx'. apply Hvisit, elem_of_app. by left.
      * intros s' x' y' Hx' Hy'. apply Hkeep; apply elem_of_app; by left.
    + apply list_elem_of_singleton in Hx as ->.
      apply Hvisit, elem_of_app. right. by left.
Qed.

End Loops.

Lemma NoDup_fmap_eq {A B : Type} (g : A -> B) (l : list A) (x y : A) :
  NoDup (g <$> l) -> x ∈ l -> y ∈ l -> g x = g y -> x = y.
Proof.
  induction l as [ | z l IH]; intros Hnd Hx Hy Heq.
  - by apply elem_of_nil in Hx.
  - rewrite fmap_cons in Hnd. apply NoDup_cons in Hnd as [Hz Hnd].
    apply elem_of_cons in Hx as [-> | Hx]; apply elem_of_cons in Hy as [-> | Hy].
    + done.
    + exfalso. apply Hz. rewrite Heq. by apply list_elem_of_fmap_2.
    + exfalso. apply Hz. rewrite <- Heq. by apply list_elem_of_fmap_2.
    + by apply IH.
Qed.

(** ** Facts about the tween producers *)

Module ProducerFacts.
Import JsMath Producers.

Lemma prepareFaceForFade_prepared mesh w :
  is_Some (material mesh) ->
  is_Some (faceMaterials (prepareFaceForFade mesh w) !! uuid mesh).
Proof.
  intros [m Hm]. unfold prepareFaceForFade. rewrite Hm.
  destruct (faceMaterials w !! uuid mesh) eqn:E; simpl.
  - by rewrite E.
  - rewrite lookup_insert_eq. by eexists.
Qed.

Lemma prepareFaceForFade_id mesh w :
  is_Some (faceMaterials w !! uuid mesh) -> prepareFaceForFade mesh w = w.
Proof.
  intros [m Hm]. unfold prepareFaceForFade.
  destruct (material mesh); [ | done]. by rewrite Hm.
Qed.

Lemma prepareFaceForFade_keeps mesh w id :
  is_Some (faceMaterials w !! id) ->
  faceMaterials (prepareFaceForFade mesh w) !! id = faceMaterials w !! id.
Proof.
  intros Hid. unfold prepareFaceForFade.
  destruct (material mesh); [ | done].
  destruct (faceMaterials w !! uuid mesh) eqn:E; [done | ]. simpl.
  rewrite lookup_insert_ne; [done | ].
  intros <-. rewrite E in Hid. by destruct Hid.
Qed.

Lemma prepareFaceForFade_bloomLayer mesh w :
  bloomLayer (prepareFaceForFade mesh w) = bloomLayer w.
Proof.
  unfold prepareFaceForFade. destruct (material mesh); [ | done].
  by destruct (faceMaterials w !! uuid mesh).
Qed.

Lemma prepareFaceForFade_objectScale mesh w :
  objectScale (prepareFaceForFade mesh w) = objectScale w.
Proof.
  unfold prepareFaceForFade. destruct (material mesh); [ | done].
  by destruct (faceMaterials w !! uuid mesh).
Qed.

Lemma prepareFaceForFade_camera mesh w :
  cameraState (prepareFaceForFade mesh w) = cameraState w
  /\ controlsRef (prepareFaceForFade mesh w) = controlsRef w.
Proof.
  unfold prepareFaceForFade. destruct (material mesh); [ | done].
  by destruct (faceMaterials w !! uuid mesh).
Qed.

(** *** [animateOpacity] *)

Lemma animateOpacity_selection now mesh to dur st :
  selection (animateOpacity now mesh to dur st) = selection st.
Proof. unfold animateOpacity. by destruct (material mesh). Qed.

Lemma animateOpacity_scale now mesh to dur st :
  scale (anim (animateOpacity now mesh to dur st)) = scale (anim st).
Proof. unfold animateOpacity. by destruct (material mesh). Qed.

Lemma animateOpacity_camera now mesh to dur st :
  camera (anim (animateOpacity now mesh to dur st)) = camera (anim st).
Proof. unfold animateOpacity. by destruct (material mesh). Qed.

Lemma animateOpacity_bloomLayer now mesh to dur st :
  bloomLayer (world (animateOpacity now mesh to dur st)) = bloomLayer (world st).
Proof.
  unfold animateOpacity. destruct (material mesh); [ | done]. simpl.
  apply prepareFaceForFade_bloomLayer.
Qed.

Lemma animateOpacity_lookup now mesh to dur st :
  is_Some (material mesh) ->
  opacity (anim (animateOpacity now mesh to dur st)) !! uuid mesh
  = Some (mkOpacityTween
            (opacityOf (prepareFaceForFade mesh (world st)) mesh) to now dur).
Proof.
  intros [m Hm]. unfold animateOpacity. rewrite Hm. simpl.
  by rewrite lookup_insert_eq.
Qed.

Lemma animateOpacity_lookup_ne now mesh to dur st id :
  id <> uuid mesh ->
  opacity (anim (animateOpacity now mesh to dur st)) !! id
  = opacity (anim st) !! id.
Proof.
  intros Hne. unfold animateOpacity. destruct (material mesh); [ | done].
  simpl. by rewrite lookup_insert_ne.
Qed.

Lemma animateOpacity_target now mesh to dur st :
  is_Some (material mesh) ->
  opacityTarget (animateOpacity now mesh to dur st) mesh to.
Proof.
  intros Hm. eexists. split; [by apply animateOpacity_lookup | done].
Qed.

Lemma animateOpacity_prepared now mesh to dur st :
  is_Some (material mesh) ->
  is_Some (faceMaterials (world (animateOpacity now mesh to dur st)) !! uuid mesh).
Proof.
  intros Hm. unfold animateOpacity. destruct Hm as [m Hm]. rewrite Hm. simpl.
  apply prepareFaceForFade_prepared. by rewrite Hm.
Qed.

Lemma animateOpacity_keeps_material now mesh to dur st id :
  is_Some (faceMaterials (world st) !! id) ->
  faceMaterials (world (animateOpacity now mesh to dur st)) !! id
  = faceMaterials (world st) !! id.
Proof.
  intros Hid. unfold animateOpacity. destruct (material mesh); [ | done].
  simpl. by apply prepareFaceForFade_keeps.
Qed.

(** *** [animateScale] *)

Lemma animateScale_selection now obj to bounce dur st :
  selection (animateScale now obj to bounce dur st) = selection st.
Proof. done. Qed.

Lemma animateScale_world now obj to bounce dur st :
  world (animateScale now obj to bounce dur st) = world st.
Proof. done. Qed.

Lemma animateScale_opacity now obj to bounce dur st :
  opacity (anim (animateScale now obj to bounce dur st)) = opacity (anim st).
Proof. done. Qed.

Lemma animateScale_camera now obj to bounce dur st :
  camera (anim (animateScale now obj to bounce dur st)) = camera (anim st).
Proof. done. Qed.

Lemma animateScale_lookup now obj to bounce dur st :
  scale (anim (animateScale now obj to bounce dur st)) !! uuid obj
  = Some (mkScaleTween (scaleOf (world st) obj) bounce to now dur).
Proof. unfold animateScale. simpl. by rewrite lookup_insert_eq. Qed.

Lemma animateScale_lookup_ne now obj to bounce dur st id :
  id <> uuid obj ->
  scale (anim (animateScale now obj to bounce dur st)) !! id
  = scale (anim st) !! id.
Proof. intros Hne. unfold animateScale. simpl. by rewrite lookup_insert_ne. Qed.

(** *** Glow *)

Lemma setFaceGlow_selection vals mesh st :
  selection (setFaceGlow vals mesh st) = selection st.
Proof. unfold setFaceGlow. by destruct (material mesh). Qed.

Lemma setFaceGlow_anim vals mesh st :
  anim (setFaceGlow vals mesh st) = anim st.
Proof. unfold setFaceGlow. by destruct (material mesh). Qed.

Lemma removeFaceGlow_selection mesh st :
  selection (removeFaceGlow mesh st) = selection st.
Proof. unfold removeFaceGlow. by destruct (material mesh). Qed.

Lemma removeFaceGlow_anim mesh st :
  anim (removeFaceGlow mesh st) = anim st.
Proof. unfold removeFaceGlow. by destruct (material mesh). Qed.

Lemma setFaceGlow_emphasised vals mesh st :
  is_Some (material mesh) ->
  emphasised vals (world (setFaceGlow vals mesh st)) mesh.
Proof.
  intros Hm. pose proof (prepareFaceForFade_prepared mesh (world st) Hm) as [m Hp].
  destruct Hm as [mat Hm]. unfold setFaceGlow. rewrite Hm.
  unfold emphasised; record_simpl. split.
  - eexists. rewrite lookup_alter_eq, Hp. simpl. split; done.
  - apply elem_of_union_l. by apply elem_of_singleton.
Qed.

Lemma removeFaceGlow_cleared mesh st :
  is_Some (material mesh) ->
  is_Some (faceMaterials (world st) !! uuid mesh) ->
  emphasisCleared (world (removeFaceGlow mesh st)) mesh.
Proof.
  intros [mat Hm] [m Hp]. unfold removeFaceGlow. rewrite Hm.
  unfold emphasisCleared; record_simpl. split.
  - eexists. rewrite lookup_alter_eq, Hp. simpl. split; done.
  - rewrite elem_of_difference, elem_of_singleton. by intros [_ ?].
Qed.

Lemma removeFaceGlow_keeps_prepared mesh st id :
  is_Some (faceMaterials (world st) !! id) ->
  is_Some (faceMaterials (world (removeFaceGlow mesh st)) !! id).
Proof.
  intros Hid. unfold removeFaceGlow. destruct (material mesh); [ | done].
  record_simpl. rewrite lookup_alter. case_decide; [ | done].
  subst. by apply fmap_is_Some.
Qed.

(** Clearing the glow of another face keeps a face's emphasis as it is. *)
Lemma removeFaceGlow_other_emphasised vals mesh st face :
  uuid mesh <> uuid face ->
  emphasised vals (world st) face ->
  emphasised vals (world (removeFaceGlow mesh st)) face.
Proof.
  intros Hne [[m [Hm Hi]] Hb]. unfold removeFaceGlow.
  destruct (material mesh); [ | by split; [exists m | ]].
  unfold emphasised; record_simpl. split.
  - exists m. by rewrite lookup_alter_ne.
  - rewrite elem_of_difference, elem_of_singleton. split; [done | congruence].
Qed.

Lemma removeFaceGlow_same_cleared mesh st face :
  uuid mesh = uuid face ->
  is_Some (material mesh) ->
  emphasisCleared (world st) face ->
  emphasisCleared (world (removeFaceGlow mesh st)) face.
Proof.
  intros Heq [mat Hmat] [[m [Hm Hi]] Hb]. unfold removeFaceGlow.
  rewrite Hmat. unfold emphasisCleared; record_simpl. split.
  - eexists. rewrite Heq, lookup_alter_eq, Hm. simpl. split; done.
  - rewrite elem_of_difference. by intros [? _].
Qed.

Lemma removeFaceGlow_other_cleared mesh st face :
  uuid mesh <> uuid face ->
  emphasisCleared (world st) face ->
  emphasisCleared (world (removeFaceGlow mesh st)) face.
Proof.
  intros Hne [[m [Hm Hi]] Hb]. unfold removeFaceGlow.
  destruct (material mesh); [ | by split; [exists m | ]].
  unfold emphasisCleared; record_simpl. split.
  - exists m. by rewrite lookup_alter_ne.
  - rewrite elem_of_difference. by intros [? _].
Qed.

Lemma animateOpacity_keeps_cleared now mesh to dur st face :
  emphasisCleared (world st) face ->
  emphasisCleared (world (animateOpacity now mesh to dur st)) face.
Proof.
  intros [[m [Hm Hi]] Hb]. split.
  - exists m. rewrite animateOpacity_keeps_material; [done | by eexists].
  - by rewrite animateOpacity_bloomLayer.
Qed.

Lemma animateOpacity_keeps_emphasised vals now mesh to dur st face :
  emphasised vals (world st) face ->
  emphasised vals (world (animateOpacity now mesh to dur st)) face.
Proof.
  intros [[m [Hm Hi]] Hb]. split.
  - exists m. rewrite animateOpacity_keeps_material; [done | by eexists].
  - by rewrite animateOpacity_bloomLayer.
Qed.

Lemma setFaceGlow_other_emphasised vals mesh st face :
  uuid mesh <> uuid face ->
  emphasised vals (world st) face ->
  emphasised vals (world (setFaceGlow vals mesh st)) face.
Proof.
  intros Hne [[m [Hm Hi]] Hb]. unfold setFaceGlow.
  destruct (material mesh); [ | by split; [exists m | ]].
  unfold emphasised; record_simpl. split.
  - exists m. rewrite lookup_alter_ne by done.
    rewrite prepareFaceForFade_keeps; [done | by eexists].
  - rewrite prepareFaceForFade_bloomLayer. by apply elem_of_union_r.
Qed.

Lemma setFaceGlow_other_cleared vals mesh st face :
  uuid mesh <> uuid face ->
  emphasisCleared (world st) face ->
  emphasisCleared (world (setFaceGlow vals mesh st)) face.
Proof.
  intros Hne [[m [Hm Hi]] Hb]. unfold setFaceGlow.
  destruct (material mesh); [ | by split; [exists m | ]].
  unfold emphasisCleared; record_simpl. split.
  - exists m. rewrite lookup_alter_ne by done.
    rewrite prepareFaceForFade_keeps; [done | by eexists].
  - rewrite prepareFaceForFade_bloomLayer, elem_of_union, elem_of_singleton.
    intros [? | ?]; [congruence | done].
Qed.

(** The predicates on a face read nothing of it but its uuid. *)
Lemma opacityTarget_uuid st a b v :
  uuid a = uuid b -> opacityTarget st a v -> opacityTarget st b v.
Proof. unfold opacityTarget. by intros ->. Qed.

Lemma emphasised_uuid vals w a b :
  uuid a = uuid b -> emphasised vals w a -> emphasised vals w b.
Proof. unfold emphasised. by intros ->. Qed.

Lemma emphasisCleared_uuid w a b :
  uuid a = uuid b -> emphasisCleared w a -> emphasisCleared w b.
Proof. unfold emphasisCleared. by intros ->. Qed.

(** *** The loop body that dims a face: [animateOpacity] then
    [removeFaceGlow] *)

Lemma dim_visit now v face st :
  is_Some (material face) ->
  dimmedTo v face (removeFaceGlow face (animateOpacity now face v 250 st)).
Proof.
  intros Hm. split.
  - unfold opacityTarget. rewrite removeFaceGlow_anim.
    by apply animateOpacity_target.
  - apply removeFaceGlow_cleared; [done | ].
    by apply animateOpacity_prepared.
Qed.

Lemma dim_keep now v face other st :
  dimmedTo v face st ->
  dimmedTo v face (removeFaceGlow other (animateOpacity now other v 250 st)).
Proof.
  intros [Ht Hc]. destruct (decide (uuid other = uuid face)) as [Heq | Hne].
  - destruct (material other) eqn:Hm.
    + destruct (dim_visit now v other st) as [Ht' Hc']; [by eexists | ].
      split; [by eapply opacityTarget_uuid | by eapply emphasisCleared_uuid].
    + unfold removeFaceGlow, animateOpacity. rewrite Hm. by split.
  - split.
    + unfold opacityTarget. rewrite removeFaceGlow_anim.
      rewrite animateOpacity_lookup_ne by done. apply Ht.
    + apply removeFaceGlow_other_cleared; [done | ].
      by apply animateOpacity_keeps_cleared.
Qed.

(** Dimming another face leaves the tween and the emphasis of a face
    untouched. *)
Lemma dim_other now v face other st to vals :
  uuid other <> uuid face ->
  opacityTarget st face to /\ emphasised vals (world st) face ->
  opacityTarget (removeFaceGlow other (animateOpacity now other v 250 st)) face to
  /\ emphasised vals
       (world (removeFaceGlow other (animateOpacity now other v 250 st))) face.
Proof.
  intros Hne [Ht He]. split.
  - unfold opacityTarget. rewrite removeFaceGlow_anim.
    rewrite animateOpacity_lookup_ne by done. apply Ht.
  - apply removeFaceGlow_other_emphasised; [done | ].
    by apply animateOpacity_keeps_emphasised.
Qed.

(** *** [resetAllCubes] *)

Lemma resetAllCubes_selection sc now st :
  selection (resetAllCubes sc now st) = selection st.
Proof.
  unfold resetAllCubes.
  apply (foldl_preserves _ (fun s => selection s = selection st)).
  - intros s x _ Hs. by rewrite removeFaceGlow_selection, animateOpacity_selection.
  - by apply (foldl_preserves _ (fun s => selection s = selection st)).
Qed.

Lemma resetAllCubes_camera sc now st :
  camera (anim (resetAllCubes sc now st)) = camera (anim st).
Proof.
  unfold resetAllCubes.
  apply (foldl_preserves _ (fun s => camera (anim s) = camera (anim st))).
  - intros s x _ Hs. by rewrite removeFaceGlow_anim, animateOpacity_camera.
  - by apply (foldl_preserves _ (fun s => camera (anim s) = camera (anim st))).
Qed.

Lemma resetAllCubes_scales sc now st n cube :
  (n, cube) ∈ cubesByName sc ->
  scaleTarget (resetAllCubes sc now st) cube 1 0.8.
Proof.
  intros Hin. unfold resetAllCubes.
  apply (foldl_preserves _ (fun s => scaleTarget s cube 1 0.8)).
  - intros s x _ Hs. unfold scaleTarget.
    by rewrite removeFaceGlow_anim, animateOpacity_scale.
  - apply (foldl_establishes _ (fun e s => scaleTarget s e.2 1 0.8)
             (cubesByName sc)) with (x := (n, cube)); [ | | done].
    + intros s x _. eexists. by rewrite animateScale_lookup.
    + intros s x y _ _ [tw [Htw Hv]].
      destruct (decide (uuid x.2 = uuid y.2)) as [Heq | Hne].
      * eexists. rewrite Heq. by rewrite animateScale_lookup.
      * exists tw. by rewrite animateScale_lookup_ne.
Qed.

Lemma resetAllCubes_faces sc now st face :
  face ∈ allFaceMeshes sc ->
  is_Some (material face) ->
  dimmedTo 1 face (resetAllCubes sc now st).
Proof.
  intros Hin Hm. unfold resetAllCubes.
  apply (foldl_establishes _
           (fun f s => is_Some (material f) -> dimmedTo 1 f s)
           (allFaceMeshes sc)); [ | | done | done].
  - intros s x _ Hx. by apply dim_visit.
  - intros s x y _ _ Hq Hx. apply dim_keep. by apply Hq.
Qed.

End ProducerFacts.


(** ** Facts about the selection machine *)

Module SelectionFacts.
Import JsMath Producers PoseSolver SelectionMachine ProducerFacts JsMathFacts.

(** *** [animateCameraToPreset] *)

Lemma animateCameraToPreset_selection vals sc now to dur fov st :
  selection (animateCameraToPreset vals sc now to dur fov st) = selection st.
Proof. unfold animateCameraToPreset. by destruct (controlsRef (world st)). Qed.


Lemma animateCameraToPreset_scale vals sc now to dur fov st :
  scale (anim (animateCameraToPreset vals sc now to dur fov st))
  = scale (anim st).
Proof. unfold animateCameraToPreset. by destruct (controlsRef (world st)). Qed.

Lemma animateCameraToPreset_faceMaterials vals sc now to dur fov st :
  faceMaterials (world (animateCameraToPreset vals sc now to dur fov st))
  = faceMaterials (world st).
Proof. unfold animateCameraToPreset. by destruct (controlsRef (world st)). Qed.

Lemma animateCameraToPreset_bloomLayer vals sc now to dur fov st :
  bloomLayer (world (animateCameraToPreset vals sc now to dur fov st))
  = bloomLayer (world st).
Proof. unfold animateCameraToPreset. by destruct (controlsRef (world st)). Qed.

Lemma animateCameraToPreset_objectScale vals sc now to dur fov st :
  objectScale (world (animateCameraToPreset vals sc now to dur fov st))
  = objectScale (world st).
Proof. unfold animateCameraToPreset. by destruct (controlsRef (world st)). Qed.

Lemma animateCameraToPreset_cameraState vals sc now to dur fov st :
  cameraState (world (animateCameraToPreset vals sc now to dur fov st))
  = cameraState (world st).
Proof. unfold animateCameraToPreset. by destruct (controlsRef (world st)). Qed.

(** With the controls mounted the camera slot is overwritten by a tween that
    starts at the pose the controls report. *)
Lemma animateCameraToPreset_tween vals sc now to dur fov st c :
  controlsRef (world st) = Some c ->
  exists tw,
    camera (anim (animateCameraToPreset vals sc now to dur fov st)) = Some tw
    /\ cam_t0 tw = now /\ cam_dur tw = dur
    /\ cam_fromAz tw = c_azimuth (cameraState (world st))
    /\ cam_dAz tw
       = shortestAngleDelta (c_azimuth (cameraState (world st))) (azimuth to)
    /\ cam_fromPol tw = c_polar (cameraState (world st))
    /\ cam_toPol tw = polar to
    /\ cam_fromDist tw = c_distance (cameraState (world st))
    /\ cam_toDist tw = distance to
    /\ cam_fromFov tw = Some (c_fov (cameraState (world st)))
    /\ cam_toFov tw = Some (default (c_fov (cameraState (world st))) fov).
Proof.
  intros Hc. unfold animateCameraToPreset. rewrite Hc.
  eexists. split; [reflexivity | ]. repeat split.
Qed.

(** *** The [forEach] loops of a selection *)

Lemma scaleCubes_selection sc now cubeName st :
  selection (scaleCubes sc now cubeName st) = selection st.
Proof.
  unfold scaleCubes.
  apply (foldl_preserves _ (fun s => selection s = selection st)); [ | done].
  intros s x _ Hs. by case_bool_decide.
Qed.

Lemma scaleCubes_world sc now cubeName st :
  world (scaleCubes sc now cubeName st) = world st.
Proof.
  unfold scaleCubes.
  apply (foldl_preserves _ (fun s => world s = world st)); [ | done].
  intros s x _ Hs. by case_bool_decide.
Qed.

Lemma scaleCubes_opacity sc now cubeName st :
  opacity (anim (scaleCubes sc now cubeName st)) = opacity (anim st).
Proof.
  unfold scaleCubes.
  apply (foldl_preserves _ (fun s => opacity (anim s) = opacity (anim st)));
    [ | done].
  intros s x _ Hs. by case_bool_decide.
Qed.

Lemma scaleCubes_camera sc now cubeName st :
  camera (anim (scaleCubes sc now cubeName st)) = camera (anim st).
Proof.
  unfold scaleCubes.
  apply (foldl_preserves _ (fun s => camera (anim s) = camera (anim st)));
    [ | done].
  intros s x _ Hs. by case_bool_decide.
Qed.

(** The scale a selection of [cubeName] asks of the cube named [n]. *)
Lemma scaleCubes_targets sc now cubeName st n cube :
  wfCubes sc ->
  (n, cube) ∈ cubesByName sc ->
  exists tw,
    scale (anim (scaleCubes sc now cubeName st)) !! uuid cube = Some tw
    /\ sc_t0 tw = now
    /\ (n = cubeName ->
        sc_to tw = SELECTED_CUBE_SCALE /\ sc_bounce tw = SELECTED_CUBE_BOUNCE)
    /\ (n <> cubeName ->
        sc_to tw = DIMMED_CUBE_SCALE /\ sc_bounce tw = DIMMED_CUBE_BOUNCE).
Proof.
  intros [_ Hnd] Hin. unfold scaleCubes.
  apply (foldl_establishes _
           (fun e s =>
              exists tw,
                scale (anim s) !! uuid e.2 = Some tw
                /\ sc_t0 tw = now
                /\ (e.1 = cubeName ->
                    sc_to tw = SELECTED_CUBE_SCALE
                    /\ sc_bounce tw = SELECTED_CUBE_BOUNCE)
                /\ (e.1 <> cubeName ->
                    sc_to tw = DIMMED_CUBE_SCALE
                    /\ sc_bounce tw = DIMMED_CUBE_BOUNCE))
           (cubesByName sc)) with (x := (n, cube)); [ | | done].
  - intros s x _. case_bool_decide.
    + eexists. rewrite animateScale_lookup. by repeat split.
    + eexists. rewrite animateScale_lookup. by repeat split.
  - intros s x y Hx Hy [tw Htw].
    destruct (decide (uuid x.2 = uuid y.2)) as [Heq | Hne].
    + assert (x = y) as <-.
      { by apply (NoDup_fmap_eq (fun e => uuid e.2) (cubesByName sc)). }
      case_bool_decide.
      * eexists. rewrite animateScale_lookup. by repeat split.
      * eexists. rewrite animateScale_lookup. by repeat split.
    + exists tw. case_bool_decide; by rewrite animateScale_lookup_ne.
Qed.

Lemma same_object_true a b : same_object a b = true <-> uuid a = uuid b.
Proof. unfold same_object. by rewrite bool_decide_eq_true. Qed.

Lemma same_object_false a b : same_object a b = false <-> uuid a <> uuid b.
Proof. unfold same_object. by rewrite bool_decide_eq_false. Qed.

Lemma dimOtherFaces_selection sc now clicked st :
  selection (dimOtherFaces sc now clicked st) = selection st.
Proof.
  unfold dimOtherFaces.
  apply (foldl_preserves _ (fun s => selection s = selection st)); [ | done].
  intros s x _ Hs. destruct (same_object x clicked); [done | ].
  by rewrite removeFaceGlow_selection, animateOpacity_selection.
Qed.

Lemma dimOtherFaces_scale sc now clicked st :
  scale (anim (dimOtherFaces sc now clicked st)) = scale (anim st).
Proof.
  unfold dimOtherFaces.
  apply (foldl_preserves _ (fun s => scale (anim s) = scale (anim st)));
    [ | done].
  intros s x _ Hs. destruct (same_object x clicked); [done | ].
  by rewrite removeFaceGlow_anim, animateOpacity_scale.
Qed.

Lemma dimOtherFaces_camera sc now clicked st :
  camera (anim (dimOtherFaces sc now clicked st)) = camera (anim st).
Proof.
  unfold dimOtherFaces.
  apply (foldl_preserves _ (fun s => camera (anim s) = camera (anim st)));
    [ | done].
  intros s x _ Hs. destruct (same_object x clicked); [done | ].
  by rewrite removeFaceGlow_anim, animateOpacity_camera.
Qed.

(** Every listed face but the clicked one ends dimmed. *)
Lemma dimOtherFaces_others sc now clicked st face :
  face ∈ allFaceMeshes sc ->
  is_Some (material face) ->
  uuid face <> uuid clicked ->
  dimmedTo DIMMED_FACE_OPACITY face (dimOtherFaces sc now clicked st).
Proof.
  intros Hin Hm Hne. unfold dimOtherFaces.
  apply (foldl_establishes _
           (fun f s =>
              is_Some (material f) -> uuid f <> uuid clicked ->
              dimmedTo DIMMED_FACE_OPACITY f s)
           (allFaceMeshes sc)); [ | | done | done | done].
  - intros s x _ Hx Hxc. apply same_object_false in Hxc as ->.
    by apply dim_visit.
  - intros s x y _ _ Hq Hx Hxc. destruct (same_object y clicked); [by apply Hq | ].
    apply dim_keep. by apply Hq.
Qed.

(** The clicked face keeps the tween and the emphasis it was given. *)
Lemma dimOtherFaces_clicked vals sc now clicked st to :
  opacityTarget st clicked to /\ emphasised vals (world st) clicked ->
  opacityTarget (dimOtherFaces sc now clicked st) clicked to
  /\ emphasised vals (world (dimOtherFaces sc now clicked st)) clicked.
Proof.
  unfold dimOtherFaces.
  apply (foldl_preserves _
           (fun s => opacityTarget s clicked to
                     /\ emphasised vals (world s) clicked)).
  intros s x _ Hs. destruct (same_object x clicked) eqn:E; [done | ].
  apply same_object_false in E. by apply dim_other.
Qed.

Lemma focusFace_selection vals sc now clicked st :
  selection (focusFace vals sc now clicked st) = selection st.
Proof.
  unfold focusFace.
  apply (foldl_preserves _ (fun s => selection s = selection st)); [ | done].
  intros s x _ Hs. destruct (same_object x clicked).
  - by rewrite setFaceGlow_selection, animateOpacity_selection.
  - by rewrite removeFaceGlow_selection, animateOpacity_selection.
Qed.

Lemma focusFace_scale vals sc now clicked st :
  scale (anim (focusFace vals sc now clicked st)) = scale (anim st).
Proof.
  unfold focusFace.
  apply (foldl_preserves _ (fun s => scale (anim s) = scale (anim st)));
    [ | done].
  intros s x _ Hs. destruct (same_object x clicked).
  - by rewrite setFaceGlow_anim, animateOpacity_scale.
  - by rewrite removeFaceGlow_anim, animateOpacity_scale.
Qed.

Lemma focusFace_camera vals sc now clicked st :
  camera (anim (focusFace vals sc now clicked st)) = camera (anim st).
Proof.
  unfold focusFace.
  apply (foldl_preserves _ (fun s => camera (anim s) = camera (anim st)));
    [ | done].
  intros s x _ Hs. destruct (same_object x clicked).
  - by rewrite setFaceGlow_anim, animateOpacity_camera.
  - by rewrite removeFaceGlow_anim, animateOpacity_camera.
Qed.

(** What one visit of the final loop leaves of a face: lit and emphasised
    when it is the clicked one, dimmed otherwise. *)
Lemma focus_visit vals now clicked face st :
  is_Some (material face) ->
  let st' :=
    if same_object face clicked
    then setFaceGlow vals face (animateOpacity now face 1 250 st)
    else removeFaceGlow face
           (animateOpacity now face DIMMED_FACE_OPACITY 250 st) in
  (uuid face = uuid clicked ->
   opacityTarget st' face 1 /\ emphasised vals (world st') face)
  /\ (uuid face <> uuid clicked -> dimmedTo DIMMED_FACE_OPACITY face st').
Proof.
  intros Hm. destruct (same_object face clicked) eqn:E; simpl.
  - apply same_object_true in E. split; [ | done]. intros _. split.
    + unfold opacityTarget. rewrite setFaceGlow_anim.
      by apply animateOpacity_target.
    + by apply setFaceGlow_emphasised.
  - apply same_object_false in E. split; [done | ]. intros _.
    by apply dim_visit.
Qed.

Lemma focusFace_faces vals sc now clicked st face :
  face ∈ allFaceMeshes sc ->
  is_Some (material face) ->
  let st' := focusFace vals sc now clicked st in
  (uuid face = uuid clicked ->
   opacityTarget st' face 1 /\ emphasised vals (world st') face)
  /\ (uuid face <> uuid clicked -> dimmedTo DIMMED_FACE_OPACITY face st').
Proof.
  intros Hin Hm. unfold focusFace.
  apply (foldl_establishes _
           (fun f s =>
              is_Some (material f) ->
              (uuid f = uuid clicked ->
               opacityTarget s f 1 /\ emphasised vals (world s) f)
              /\ (uuid f <> uuid clicked ->
                  dimmedTo DIMMED_FACE_OPACITY f s))
           (allFaceMeshes sc)); [ | | done | done].
  - intros s x _ Hx.
    pose proof (focus_visit vals now clicked x s Hx) as Hv. simpl in Hv.
    by destruct (same_object x clicked).
  - intros s x y _ _ Hq Hx. specialize (Hq Hx).
    destruct (decide (uuid y = uuid x)) as [Heq | Hne].
    + destruct (material y) eqn:Hy.
      * pose proof (focus_visit vals now clicked y s) as Hv. simpl in Hv.
        destruct Hv as [Hlit Hdim]; [by eexists | ].
        destruct (same_object y clicked) eqn:E.
        -- split; intros Hc.
           ++ destruct Hlit as [Ht He]; [congruence | ].
              split; [by eapply opacityTarget_uuid | by eapply emphasised_uuid].
           ++ apply same_object_true in E. congruence.
        -- split; intros Hc.
           ++ apply same_object_false in E. congruence.
           ++ destruct Hdim as [Ht He]; [congruence | ].
              split; [by eapply opacityTarget_uuid
                     | by eapply emphasisCleared_uuid].
      * unfold animateOpacity, setFaceGlow, removeFaceGlow. rewrite Hy.
        by destruct (same_object y clicked).
    + destruct Hq as [Hlit Hdim].
      destruct (same_object y clicked) eqn:E.
      * split; intros Hc.
        -- destruct (Hlit Hc) as [Ht He]. split.
           ++ unfold opacityTarget. rewrite setFaceGlow_anim.
              rewrite animateOpacity_lookup_ne by done. apply Ht.
           ++ apply setFaceGlow_other_emphasised; [done | ].
              by apply animateOpacity_keeps_emphasised.
        -- destruct (Hdim Hc) as [Ht He]. split.
           ++ unfold opacityTarget. rewrite setFaceGlow_anim.
              rewrite animateOpacity_lookup_ne by done. apply Ht.
           ++ apply setFaceGlow_other_cleared; [done | ].
              by apply animateOpacity_keeps_cleared.
      * split; intros Hc.
        -- by apply dim_other, Hlit.
        -- by apply dim_keep, Hdim.
Qed.

(** *** [returnToDefault] *)


(** *** The branches of [applyFaceSelection] *)

Lemma truthy_name n : n <> "" -> truthy (Some n) = true.
Proof. intros Hn. unfold truthy. by rewrite bool_decide_eq_false_2. Qed.

Lemma isHome_nonempty n : isHome n = true -> n <> "".
Proof. unfold isHome. rewrite bool_decide_eq_true. by intros ->. Qed.

(** Past the early returns: a tap on an object under a known cube of a
    non-empty name that carries no body material. *)
Ltac enter_tap Hcube Hname Hbody :=
  unfold applyFaceSelection;
  rewrite Hcube, (truthy_name _ Hname), Hbody; cbn [negb].

Lemma apply_home_reset three vals sc now clicked override st cubeName :
  findCubeName sc clicked = Some cubeName ->
  isHome cubeName = true ->
  hitsBodyMaterial sc (world st) clicked = false ->
  truthy (selectedCubeNameRef (selection st)) = true ->
  applyFaceSelection three vals sc now (Some clicked) true override st
  = returnToDefault vals sc now st.
Proof.
  intros Hcube Hhome Hbody Hact.
  enter_tap Hcube (isHome_nonempty _ Hhome) Hbody.
  by rewrite Hhome, Hact.
Qed.

Lemma apply_same_face three vals sc now clicked allow override st cubeName prev :
  findCubeName sc clicked = Some cubeName ->
  cubeName <> "" ->
  hitsBodyMaterial sc (world st) clicked = false ->
  allow && isHome cubeName = false ->
  Selected st cubeName prev ->
  uuid prev = uuid clicked ->
  applyFaceSelection three vals sc now (Some clicked) allow override st
  = if ltb (now - lastSelectionAtRef (selection st)) 500 then st
    else returnToDefault vals sc now st.
Proof.
  intros Hcube Hname Hbody Hhome [Hsel Hface] Hsame.
  enter_tap Hcube Hname Hbody.
  rewrite Hhome, Hsel, Hface, (truthy_name _ Hname). cbn [andb].
  rewrite bool_decide_eq_true_2 by done.
  apply same_object_true in Hsame. by rewrite Hsame.
Qed.

Lemma apply_face_switch three vals sc now clicked allow override st cubeName prev :
  findCubeName sc clicked = Some cubeName ->
  cubeName <> "" ->
  hitsBodyMaterial sc (world st) clicked = false ->
  allow && isHome cubeName = false ->
  Selected st cubeName prev ->
  uuid prev <> uuid clicked ->
  applyFaceSelection three vals sc now (Some clicked) allow override st
  = let camPreset :=
      getCameraPoseForMesh three vals sc (world st) clicked
        (Some (default (babylonClickDistance vals) override)) in
    let st0 :=
      animateCameraToPreset vals sc now camPreset 900
        (Some CLICK_INTERACTION_FOV) st in
    let st1 :=
      setFaceGlow vals clicked
        (animateOpacity now clicked 1 250
           (removeFaceGlow prev (animateOpacity now prev 0.2 250 st0))) in
    dimOtherFaces sc now clicked
      (scaleCubes sc now cubeName
         (with_selection
            (mkSelection (currentlyExpandedCubeName (selection st1))
               (Some clicked) (Some cubeName) now) st1)).
Proof.
  intros Hcube Hname Hbody Hhome [Hsel Hface] Hne.
  enter_tap Hcube Hname Hbody.
  rewrite Hhome, Hsel, Hface, (truthy_name _ Hname). cbn [andb].
  rewrite bool_decide_eq_true_2 by done.
  pose proof Hne as Hne'. apply same_object_false in Hne as ->.
  assert (same_object clicked prev = false) as ->.
  { apply same_object_false. congruence. }
  reflexivity.
Qed.

Lemma apply_block_switch three vals sc now clicked allow override st cubeName :
  findCubeName sc clicked = Some cubeName ->
  cubeName <> "" ->
  hitsBodyMaterial sc (world st) clicked = false ->
  allow && isHome cubeName && truthy (selectedCubeNameRef (selection st)) = false ->
  truthy (selectedCubeNameRef (selection st))
  && bool_decide (selectedCubeNameRef (selection st) = Some cubeName) = false ->
  applyFaceSelection three vals sc now (Some clicked) allow override st
  = let camPreset :=
      getCameraPoseForMesh three vals sc (world st) clicked
        (Some (default (babylonClickDistance vals) override)) in
    let st0 :=
      animateCameraToPreset vals sc now camPreset 900
        (Some CLICK_INTERACTION_FOV) st in
    with_selection
      (mkSelection (Some cubeName) (Some clicked) (Some cubeName) now)
      (focusFace vals sc now clicked (scaleCubes sc now cubeName st0)).
Proof.
  intros Hcube Hname Hbody Hhome Hsame.
  enter_tap Hcube Hname Hbody.
  rewrite Hhome, Hsame. cbn [andb].
  by destruct (currentlyClickedFace (selection st)).
Qed.

(** *** Effects of the two selecting branches *)

Lemma block_switch_effects vals sc now cubeName clicked st0 :
  wfCubes sc ->
  blockSwitchIssued vals sc now cubeName clicked
    (with_selection
       (mkSelection (Some cubeName) (Some clicked) (Some cubeName) now)
       (focusFace vals sc now clicked (scaleCubes sc now cubeName st0))).
Proof.
  intros Hwf. split; [done | ]. split.
  - intros n cube Hin. record_simpl. rewrite focusFace_scale.
    by apply scaleCubes_targets.
  - intros face Hin Hm. record_simpl.
    by apply (focusFace_faces vals sc now clicked).
Qed.

Lemma face_switch_effects vals sc now cubeName clicked prev st st0 :
  wfCubes sc ->
  is_Some (material clicked) ->
  selection st0 = selection st ->
  let st1 :=
    setFaceGlow vals clicked
      (animateOpacity now clicked 1 250
         (removeFaceGlow prev (animateOpacity now prev 0.2 250 st0))) in
  faceSwitchIssued vals sc now cubeName clicked st
    (dimOtherFaces sc now clicked
       (scaleCubes sc now cubeName
          (with_selection
             (mkSelection (currentlyExpandedCubeName (selection st1))
                (Some clicked) (Some cubeName) now) st1))).
Proof.
  intros Hwf Hm Hsel st1.
  assert (Hsel1 : selection st1 = selection st).
  { unfold st1. by rewrite setFaceGlow_selection, animateOpacity_selection,
      removeFaceGlow_selection, animateOpacity_selection. }
  assert (Hlit : opacityTarget st1 clicked 1 /\ emphasised vals (world st1) clicked).
  { unfold st1. split.
    - unfold opacityTarget. rewrite setFaceGlow_anim.
      by apply animateOpacity_target.
    - by apply setFaceGlow_emphasised. }
  split; [ | split].
  - by rewrite dimOtherFaces_selection, scaleCubes_selection, Hsel1.
  - intros n cube Hin. rewrite dimOtherFaces_scale.
    by apply scaleCubes_targets.
  - pose proof (dimOtherFaces_clicked vals sc now clicked
                  (scaleCubes sc now cubeName
                     (with_selection
                        (mkSelection
                           (currentlyExpandedCubeName (selection st1))
                           (Some clicked) (Some cubeName) now) st1)) 1)
      as [Ht He].
    { unfold opacityTarget. by rewrite scaleCubes_opacity, scaleCubes_world. }
    split; [exact Ht | split; [exact He | ]].
    intros face Hin Hface Hne. by apply dimOtherFaces_others.
Qed.

Lemma returnToDefault_effects vals sc now st c :
  controlsRef (world st) = Some c ->
  resetIssued vals sc now st (returnToDefault vals sc now st).
Proof.
  intros Hc. unfold returnToDefault, resetIssued.
  split; [ | split; [ | split; [ | split; [by split | done]]]].
  - intros n cube Hin. unfold scaleTarget. record_simpl.
    by eapply resetAllCubes_scales.
  - intros face Hin Hm.
    destruct (resetAllCubes_faces sc now
                (animateCameraToPreset vals sc now (defaultPoseRef st) 900
                   (Some (cameraFov vals)) st) face Hin Hm) as [Ht Hcl].
    split; [exact Ht | exact Hcl].
  - unfold cameraIssued. record_simpl. rewrite resetAllCubes_camera.
    destruct (animateCameraToPreset_tween vals sc now (defaultPoseRef st) 900
                (Some (cameraFov vals)) st c Hc)
      as (tw & Htw & Ht0 & _ & Haz & Hd & _ & Hpol & _ & Hdist & _ & Hfov).
    exists tw. split; [exact Htw | ].
    split; [exact Ht0 | ]. split; [exact Haz | ]. split; [exact Hd | ].
    split; [exact Hpol | ]. split; [exact Hdist | exact Hfov].
Qed.

(** *** The cube a face is found under *)

Lemma findCubeName_known sc : forall obj n,
  findCubeName sc obj = Some n -> n ∈ (cubesByName sc).*1.
Proof.
  fix IH 1. intros [u nm im mat p] n. simpl.
  destruct (hasCube sc nm) eqn:E.
  - intros [= <-]. unfold hasCube in E. by apply bool_decide_eq_true in E.
  - destruct p as [cur | ]; [apply IH | done].
Qed.

Lemma findCubeName_ancestor sc : forall obj n,
  findCubeName sc obj = Some n ->
  exists cube, cube ∈ ancestorChain obj /\ name cube = n.
Proof.
  fix IH 1. intros [u nm im mat p] n. simpl.
  destruct (hasCube sc nm) eqn:E.
  - intros [= <-]. eexists. split; [by left | done].
  - destruct p as [cur | ]; [ | done]. intros Hcur.
    destruct (IH cur n Hcur) as (cube & Hin & Hname).
    exists cube. split; [by right | done].
Qed.

(** *** Prepared faces stay prepared *)

Lemma preparedGrows_refl st : preparedGrows st st.
Proof. by intros id. Qed.

Lemma preparedGrows_trans st1 st2 st3 :
  preparedGrows st1 st2 -> preparedGrows st2 st3 -> preparedGrows st1 st3.
Proof. intros H12 H23 id Hid. by apply H23, H12. Qed.

Lemma animateOpacity_grows now mesh to dur st :
  preparedGrows st (animateOpacity now mesh to dur st).
Proof. intros id Hid. by rewrite animateOpacity_keeps_material. Qed.

Lemma removeFaceGlow_grows mesh st : preparedGrows st (removeFaceGlow mesh st).
Proof. intros id Hid. by apply removeFaceGlow_keeps_prepared. Qed.

Lemma setFaceGlow_grows vals mesh st : preparedGrows st (setFaceGlow vals mesh st).
Proof.
  intros id Hid. unfold setFaceGlow. destruct (material mesh); [ | done].
  record_simpl. rewrite lookup_alter.
  assert (is_Some (faceMaterials (prepareFaceForFade mesh (world st)) !! id)).
  { by rewrite prepareFaceForFade_keeps. }
  case_decide; [subst id; by apply fmap_is_Some | done].
Qed.

Lemma scaleCubes_grows sc now cubeName st :
  preparedGrows st (scaleCubes sc now cubeName st).
Proof. intros id. by rewrite scaleCubes_world. Qed.

Lemma focusFace_grows vals sc now clicked st :
  preparedGrows st (focusFace vals sc now clicked st).
Proof.
  unfold focusFace. apply (foldl_preserves _ (preparedGrows st));
    [ | apply preparedGrows_refl].
  intros s x _ Hs. eapply preparedGrows_trans; [exact Hs | ].
  destruct (same_object x clicked).
  - eapply preparedGrows_trans;
      [apply animateOpacity_grows | apply setFaceGlow_grows].
  - eapply preparedGrows_trans;
      [apply animateOpacity_grows | apply removeFaceGlow_grows].
Qed.

Lemma animateCameraToPreset_grows vals sc now to dur fov st :
  preparedGrows st (animateCameraToPreset vals sc now to dur fov st).
Proof. intros id. by rewrite animateCameraToPreset_faceMaterials. Qed.

Lemma hitsBodyMaterial_grows sc st st' clicked :
  preparedGrows st st' ->
  hitsBodyMaterial sc (world st) clicked = false ->
  hitsBodyMaterial sc (world st') clicked = false.
Proof.
  intros Hg. unfold hitsBodyMaterial. destruct (material clicked); [ | done].
  destruct (faceMaterials (world st) !! uuid clicked) eqn:E.
  - destruct (Hg (uuid clicked)) as [m' ->]; [by rewrite E | done].
  - intros ->. by destruct (faceMaterials (world st') !! uuid clicked).
Qed.

End SelectionFacts.


(** ** The selection state machine: transitions *)

Import JsMath Producers PoseSolver SelectionMachine.
Import JsMathFacts ProducerFacts SelectionFacts.

Lemma example_wfCubes : wfCubes Example.scene.
Proof.
  split; apply (bool_decide_unpack _); vm_compute; exact I.
Defined.

(** C1, as stated, fails: from [Default], a tap on a face of the home block
    is not a no-op.  It selects that face and issues scale and opacity
    tweens. *)
Lemma home_tap_from_default_selects :
  Default Example.ready
  /\ Selected (Example.tap 1000 Example.homeFace Example.ready)
       "top_block_5" Example.homeFace
  /\ is_Some (scale (anim (Example.tap 1000 Example.homeFace Example.ready))
               !! "u-top5")
  /\ is_Some (opacity (anim (Example.tap 1000 Example.homeFace Example.ready))
               !! "u-top5-f1")
  /\ Example.tap 1000 Example.homeFace Example.ready <> Example.ready.
Proof.
  split; [by split | ]. split; [split; vm_compute; reflexivity | ].
  split; [vm_compute; by eexists | ]. split; [vm_compute; by eexists | ].
  intros Heq.
  apply (f_equal (fun st => selectedCubeNameRef (selection st))) in Heq.
  vm_compute in Heq. discriminate.
Qed.

(** C1 (amended).  A tap on a face of the home block [top_block_5] resets
    when a selection is active (home reset allowed); when no cube is
    selected it is an ordinary Block-Switch onto the home block: the face is
    selected and the scale and opacity tweens of a selection are issued. *)
Theorem home_block_tap three vals sc now clicked override st :
  wfCubes sc ->
  findCubeName sc clicked = Some "top_block_5" ->
  hitsBodyMaterial sc (world st) clicked = false ->
  (truthy (selectedCubeNameRef (selection st)) = true ->
   applyFaceSelection three vals sc now (Some clicked) true override st
   = returnToDefault vals sc now st)
  /\ (selectedCubeNameRef (selection st) = None ->
      forall allow,
        blockSwitchIssued vals sc now "top_block_5" clicked
          (applyFaceSelection three vals sc now (Some clicked) allow
             override st)).
Proof.
  intros Hwf Hcube Hbody. split.
  - intros Hact. by eapply apply_home_reset.
  - intros Hnone allow.
    rewrite (apply_block_switch three vals sc now clicked allow override st
               "top_block_5"); try done.
    + by apply block_switch_effects.
    + rewrite Hnone. simpl. by rewrite andb_false_r.
    + by rewrite Hnone.
Qed.

Lemma home_block_tap_witness :
  wfCubes Example.scene
  /\ findCubeName Example.scene Example.homeFace = Some "top_block_5"
  /\ hitsBodyMaterial Example.scene (world Example.ready) Example.homeFace
     = false
  /\ blockSwitchIssued Example.vals Example.scene 1000 "top_block_5"
       Example.homeFace (Example.tap 1000 Example.homeFace Example.ready)
  /\ Example.tap 3000 Example.homeFace Example.selectedA
     = returnToDefault Example.vals Example.scene 3000 Example.selectedA.
Proof.
  split; [exact example_wfCubes | ].
  split; [vm_compute; reflexivity | ].
  split; [vm_compute; reflexivity | ].
  split.
  - apply (home_block_tap Example.three Example.vals Example.scene 1000
             Example.homeFace None Example.ready);
      [exact example_wfCubes | vm_compute; reflexivity
      | vm_compute; reflexivity | reflexivity].
  - apply (home_block_tap Example.three Example.vals Example.scene 3000
             Example.homeFace None Example.selectedA);
      [exact example_wfCubes | vm_compute; reflexivity
      | vm_compute; reflexivity | vm_compute; reflexivity].
Defined.

(** C2, as stated, fails: a switch to another face of the selected cube
    issues a scale tween for every cube, where none was in flight. *)
Lemma face_switch_issues_scale_tweens :
  Selected Example.selectedA "mid_block_1" Example.faceA
  /\ findCubeName Example.scene Example.faceX = Some "mid_block_1"
  /\ scale (anim Example.selectedA) = ∅
  /\ sc_t0 <$> scale (anim (Example.tap 3000 Example.faceX Example.selectedA))
                 !! "u-mid1" = Some 3000
  /\ sc_t0 <$> scale (anim (Example.tap 3000 Example.faceX Example.selectedA))
                 !! "u-top5" = Some 3000.
Proof.
  split; [by split | ]. split; [vm_compute; reflexivity | ].
  split; [reflexivity | ]. split; vm_compute; reflexivity.
Qed.

(** C2 (amended).  From [Selected(B, A)], with [B] not resetting as the
    home block, a tap on another face [X] of [B] re-issues the scale tweens
    of a selection for every cube ([B] toward the expanded value, every other
    cube toward the dimmed one), sends [X]'s opacity to 1 and sets its
    emphasis, and sends every other listed face, [A] among them, to the
    dimmed constant with its emphasis cleared. *)
Theorem face_switch_within_block three vals sc now allow override st B A X :
  wfCubes sc ->
  Selected st B A ->
  findCubeName sc X = Some B ->
  B <> "" ->
  allow && isHome B = false ->
  hitsBodyMaterial sc (world st) X = false ->
  uuid A <> uuid X ->
  is_Some (material X) ->
  faceSwitchIssued vals sc now B X st
    (applyFaceSelection three vals sc now (Some X) allow override st).
Proof.
  intros Hwf Hsel Hcube Hname Hhome Hbody Hne Hm.
  rewrite (apply_face_switch three vals sc now X allow override st B A);
    try done.
  cbv zeta. apply face_switch_effects; try done.
  by rewrite animateCameraToPreset_selection.
Qed.

Lemma face_switch_within_block_witness :
  faceSwitchIssued Example.vals Example.scene 3000 "mid_block_1" Example.faceX
    Example.selectedA (Example.tap 3000 Example.faceX Example.selectedA).
Proof.
  apply (face_switch_within_block Example.three Example.vals Example.scene
           3000 true None Example.selectedA "mid_block_1" Example.faceA
           Example.faceX).
  - exact example_wfCubes.
  - by split.
  - vm_compute; reflexivity.
  - discriminate.
  - vm_compute; reflexivity.
  - vm_compute; reflexivity.
  - discriminate.
  - by eexists.
Defined.

(** C4, as stated, fails on the home block: selected from [Default] and
    tapped again 100 ms later, its face is not ignored; the second tap
    resets. *)
Lemma home_double_tap_resets :
  Default Example.ready
  /\ Selected (Example.tap 1000 Example.homeFace Example.ready)
       "top_block_5" Example.homeFace
  /\ 1100 - 1000 < 500
  /\ Default (Example.tap 1100 Example.homeFace
                (Example.tap 1000 Example.homeFace Example.ready))
  /\ Example.tap 1100 Example.homeFace
       (Example.tap 1000 Example.homeFace Example.ready)
     <> Example.tap 1000 Example.homeFace Example.ready.
Proof.
  split; [by split | ]. split; [split; vm_compute; reflexivity | ].
  split; [lra | ]. split; [split; vm_compute; reflexivity | ].
  intros Heq.
  apply (f_equal (fun st => selectedCubeNameRef (selection st))) in Heq.
  vm_compute in Heq. discriminate.
Qed.

Lemma block_switch_grows three vals sc now clicked override cubeName st :
  preparedGrows st
    (with_selection
       (mkSelection (Some cubeName) (Some clicked) (Some cubeName) now)
       (focusFace vals sc now clicked
          (scaleCubes sc now cubeName
             (animateCameraToPreset vals sc now
                (getCameraPoseForMesh three vals sc (world st) clicked
                   (Some (default (babylonClickDistance vals) override)))
                900 (Some CLICK_INTERACTION_FOV) st)))).
Proof.
  eapply preparedGrows_trans; [apply animateCameraToPreset_grows | ].
  eapply preparedGrows_trans; [apply scaleCubes_grows | ].
  eapply preparedGrows_trans; [apply focusFace_grows | ].
  intros id Hid. exact Hid.
Qed.

(** C4 (amended).  For a face [X] of a block [B] on which the home reset
    does not fire ([B] is not the home block, or home reset is not allowed):
    from [Selected(B, X)], selecting [X] again is ignored, state unchanged,
    when less than 500 ms have passed since the last selection, and is the
    Reset otherwise; and from a state with no cube selected, two selections
    of [X] less than 500 ms apart make one transition to [Selected(B, X)]
    and no Reset. *)
Theorem reselect_debounce three vals sc allow override B X :
  findCubeName sc X = Some B ->
  B <> "" ->
  allow && isHome B = false ->
  (forall st prev now,
     Selected st B prev -> uuid prev = uuid X ->
     hitsBodyMaterial sc (world st) X = false ->
     (now - lastSelectionAtRef (selection st) < 500 ->
      applyFaceSelection three vals sc now (Some X) allow override st = st)
     /\ (500 <= now - lastSelectionAtRef (selection st) ->
         applyFaceSelection three vals sc now (Some X) allow override st
         = returnToDefault vals sc now st))
  /\ (forall st now1 now2,
        selectedCubeNameRef (selection st) = None ->
        hitsBodyMaterial sc (world st) X = false ->
        now2 - now1 < 500 ->
        let st1 := applyFaceSelection three vals sc now1 (Some X) allow override st in
        let st2 := applyFaceSelection three vals sc now2 (Some X) allow override st1 in
        Selected st1 B X /\ st2 = st1).
Proof.
  intros Hcube Hname Hhome. split.
  - intros st prev now Hsel Hsame Hbody.
    rewrite (apply_same_face three vals sc now X allow override st B prev);
      try done.
    split; intros Ht.
    + apply ltb_true in Ht. by rewrite Ht.
    + apply ltb_false in Ht. by rewrite Ht.
  - intros st now1 now2 Hnone Hbody Hlt st1 st2.
    assert (Hst1 : st1
                   = with_selection
                       (mkSelection (Some B) (Some X) (Some B) now1)
                       (focusFace vals sc now1 X
                          (scaleCubes sc now1 B
                             (animateCameraToPreset vals sc now1
                                (getCameraPoseForMesh three vals sc (world st) X
                                   (Some (default (babylonClickDistance vals)
                                            override)))
                                900 (Some CLICK_INTERACTION_FOV) st)))).
    { unfold st1.
      rewrite (apply_block_switch three vals sc now1 X allow override st B);
        try done.
      - rewrite Hnone. simpl. by rewrite andb_false_r.
      - by rewrite Hnone. }
    assert (Hsel1 : Selected st1 B X) by (by rewrite Hst1).
    split; [exact Hsel1 | ]. unfold st2.
    rewrite (apply_same_face three vals sc now2 X allow override st1 B X);
      try done.
    + assert (Hlast : lastSelectionAtRef (selection st1) = now1)
        by (by rewrite Hst1).
      rewrite Hlast. apply ltb_true in Hlt. by rewrite Hlt.
    + apply (hitsBodyMaterial_grows sc st); [ | done].
      rewrite Hst1. apply block_switch_grows.
Qed.

Lemma reselect_debounce_witness :
  findCubeName Example.scene Example.faceA = Some "mid_block_1"
  /\ (Selected (Example.tap 1000 Example.faceA Example.ready)
        "mid_block_1" Example.faceA
      /\ Example.tap 1100 Example.faceA
           (Example.tap 1000 Example.faceA Example.ready)
         = Example.tap 1000 Example.faceA Example.ready).
Proof.
  split; [vm_compute; reflexivity | ].
  apply (reselect_debounce Example.three Example.vals Example.scene true None
           "mid_block_1" Example.faceA);
    [vm_compute; reflexivity | discriminate | vm_compute; reflexivity
    | reflexivity | vm_compute; reflexivity | lra].
Defined.

(** ** Reset *)

(** C7.  With the orbit controls mounted, the Reset transition
    ([returnToDefault]) issues for every cube a scale tween with target 1,
    for every face an opacity tween with target 1 and clears its emphasis,
    overwrites the camera slot by a tween from the current pose toward the
    stored default pose with the field of view going to the base value
    [cameraFov], and clears the selection to [Default]. *)
Theorem reset_transition_effects vals sc now st c :
  controlsRef (world st) = Some c ->
  resetIssued vals sc now st (returnToDefault vals sc now st).
Proof. apply returnToDefault_effects. Qed.

Lemma reset_transition_effects_witness :
  controlsRef (world Example.selectedA)
  = Some (mkControls true 18 18 Example.origin)
  /\ resetIssued Example.vals Example.scene 5000 Example.selectedA
       (returnToDefault Example.vals Example.scene 5000 Example.selectedA).
Proof.
  split; [reflexivity | ].
  by apply (reset_transition_effects Example.vals Example.scene 5000
              Example.selectedA (mkControls true 18 18 Example.origin)).
Defined.

(** ** Consistency of the selection *)

Lemma selected_consistent sc st block face :
  Selected st block face ->
  isMesh face = true ->
  findCubeName sc face = Some block ->
  selectionConsistent sc st.
Proof.
  intros Hsel Hmesh Hcube. right. exists block, face.
  split; [done | ].
  split; [by eapply findCubeName_known | ].
  split; [done | ]. split; [done | ]. by eapply findCubeName_ancestor.
Qed.

(** C10.  Both operations keep the selection consistent, for taps on
    meshes: afterwards either no cube and no face are recorded, or the
    recorded cube name is a key of [cubesByName] and the recorded face is a
    mesh found under a cube of that name. *)
Theorem selection_stays_consistent three vals sc now clicked allow override st :
  (forall face, clicked = Some face -> isMesh face = true) ->
  selectionConsistent sc st ->
  selectionConsistent sc
    (applyFaceSelection three vals sc now clicked allow override st)
  /\ selectionConsistent sc (returnToDefault vals sc now st).
Proof.
  intros Hmesh Hst. split; [ | by left].
  unfold applyFaceSelection.
  destruct clicked as [face | ]; [ | done].
  specialize (Hmesh face eq_refl).
  destruct (findCubeName sc face) as [cubeName | ] eqn:Hcube; [ | done].
  destruct (negb (truthy (Some cubeName))); [done | ].
  destruct (hitsBodyMaterial sc (world st) face); [done | ].
  destruct (allow && isHome cubeName
            && truthy (selectedCubeNameRef (selection st))); [by left | ].
  match goal with |- context [if ?c then _ else _] => destruct c end.
  { destruct (ltb _ 500); [done | by left]. }
  destruct (currentlyClickedFace (selection st)) as [previous | ].
  - match goal with |- context [if ?c then _ else _] => destruct c end.
    + apply (selected_consistent sc _ cubeName face); [ | done | done].
      unfold Selected.
      by rewrite dimOtherFaces_selection, scaleCubes_selection.
    + by apply (selected_consistent sc _ cubeName face).
  - by apply (selected_consistent sc _ cubeName face).
Qed.

Lemma selection_stays_consistent_witness :
  selectionConsistent Example.scene Example.selectedA
  /\ selectionConsistent Example.scene
       (Example.tap 3000 Example.faceX Example.selectedA)
  /\ selectionConsistent Example.scene
       (returnToDefault Example.vals Example.scene 3000 Example.selectedA).
Proof.
  assert (H0 : selectionConsistent Example.scene Example.selectedA).
  { apply (selected_consistent _ _ "mid_block_1" Example.faceA);
      [by split | reflexivity | vm_compute; reflexivity]. }
  split; [exact H0 | ].
  apply (selection_stays_consistent Example.three Example.vals Example.scene
           3000 (Some Example.faceX) true None Example.selectedA);
    [ | exact H0].
  by intros face [= <-].
Defined.

(** ** Hit resolution *)

Lemma find_skips {A : Type} (f : A -> bool) (before after : list A) (x : A) :
  Forall (fun y => f y = false) before ->
  f x = true ->
  List.find f (before ++ x :: after) = Some x.
Proof.
  induction before as [ | y before IH]; intros Hbefore Hx; simpl.
  - by rewrite Hx.
  - apply Forall_cons in Hbefore as [-> Hbefore]. by apply IH.
Qed.

Lemma find_holds {A : Type} (f : A -> bool) (l : list A) (x : A) :
  List.find f l = Some x -> f x = true.
Proof. intros H. by apply List.find_some in H as [_ ?]. Qed.

(** C6, as stated, fails: with the body of a cube as the nearest
    intersection and a face behind it, the pointer-up is not suppressed; it
    resolves to the farther face. *)
Lemma occluded_tap_falls_through :
  e_intersections Example.occludedHit = Some [Example.midBody; Example.faceA]
  /\ Gesture.isKnownFace Example.scene Example.midBody = false
  /\ Gesture.resolveTap Example.scene Example.occludedHit = Some Example.faceA.
Proof. split; [reflexivity | ]. split; vm_compute; reflexivity. Qed.

(** C6 (amended).  A pointer-up invocation is dropped when its object is
    not the nearest intersection.  Otherwise it resolves to a known face
    only, and to the nearest known face among the intersections, passing
    over every nearer surface that is not a known face. *)
Theorem resolveTap_nearest_known_face (sc : Interaction) (e : PointerUpHits) :
  (forall first rest,
     e_intersections e = Some (first :: rest) ->
     uuid first <> uuid (e_object e) ->
     Gesture.resolveTap sc e = None)
  /\ (forall face,
        Gesture.resolveTap sc e = Some face ->
        Gesture.isKnownFace sc face = true)
  /\ (forall before face after,
        e_intersections e = Some (before ++ face :: after) ->
        Gesture.isClosestIntersection e = true ->
        Forall (fun o => Gesture.isKnownFace sc o = false) before ->
        Gesture.isKnownFace sc face = true ->
        Gesture.resolveTap sc e = Some face).
Proof.
  unfold Gesture.resolveTap, Gesture.resolvedFace.
  split; [ | split].
  - intros first rest Hhits Hne. unfold Gesture.isClosestIntersection.
    rewrite Hhits. apply same_object_false in Hne. by rewrite Hne.
  - intros face. destruct (Gesture.isClosestIntersection e); [ | done].
    destruct (List.find _ (default [] (e_intersections e))) as [hit | ] eqn:E1.
    { intros [= <-]. by eapply find_holds. }
    destruct (List.find _ (e_raycastFaces e)) as [hit | ] eqn:E2.
    { intros [= <-]. by eapply find_holds. }
    destruct (Gesture.isKnownFace sc (e_object e)) eqn:E3; [ | done].
    by intros [= <-].
  - intros before face after Hhits Hclosest Hbefore Hface.
    rewrite Hclosest, Hhits. simpl. by rewrite find_skips.
Qed.

(** ** Camera pose solver *)

Lemma normalizeAngleMinusPiToPi_range x :
  - PI <= normalizeAngleMinusPiToPi x < PI.
Proof.
  pose proof (normalizeAngle0ToTau_range (x + PI)) as H.
  unfold normalizeAngleMinusPiToPi, normalizeAngle0ToTau, tau in *. lra.
Qed.

Lemma polar_clamp_open v :
  0.001 <= clamp v 0.001 (PI - 0.001) <= PI - 0.001
  /\ clamp v 0.001 (PI - 0.001) <> 0
  /\ clamp v 0.001 (PI - 0.001) <> PI.
Proof.
  pose proof PI2_1.
  assert (Hb : 0.001 <= clamp v 0.001 (PI - 0.001) <= PI - 0.001)
    by (apply clamp_bounds; lra).
  split; [exact Hb | split; lra].
Qed.

(** The two cases of the solver.  When the direction from the look-at point
    to the mesh is degenerate (squared length below 1e-8) it returns the
    name-based default pose; otherwise its polar angle lies in
    [[0.001, PI - 0.001]], so is neither 0 nor PI, its azimuth lies in
    [[-PI, PI)] and its distance is the requested one. *)
Lemma getCameraPoseForMesh_cases (three : Three) (vals : Values)
    (sc : Interaction) (w : World) (mesh : Object3D) (override : option R) :
  let dir := sub (getWorldPosition three w mesh) (solverTarget vals sc w) in
  let pose := getCameraPoseForMesh three vals sc w mesh override in
  (lengthSq dir < / 100000000 ->
   pose = getCameraPoseForFace vals (name mesh))
  /\ (/ 100000000 <= lengthSq dir ->
      0.001 <= polar pose <= PI - 0.001
      /\ polar pose <> 0 /\ polar pose <> PI
      /\ - PI <= azimuth pose < PI
      /\ distance pose = default (defaultDistance vals) override).
Proof.
  intros dir pose. unfold pose, getCameraPoseForMesh. fold dir.
  unfold degenerate. split; intros Hlen.
  - apply ltb_true in Hlen. by rewrite Hlen.
  - apply ltb_false in Hlen. rewrite Hlen.
    destruct (setFromVector3 three _) as [theta phi]. simpl.
    destruct (polar_clamp_open (phi + presetPolarOffset vals)) as (Hb & H0 & Hpi).
    split; [exact Hb | ]. split; [exact H0 | ]. split; [exact Hpi | ].
    split; [apply normalizeAngleMinusPiToPi_range | done].
Qed.

(** ** The per-frame advance *)

Module AnimatorFacts.
Import Animator.

Lemma easeInOutCubic_0 : easeInOutCubic 0 = 0.
Proof.
  unfold easeInOutCubic. assert (H : ltb 0 (1 / 2) = true) by (apply ltb_true; lra).
  rewrite H. lra.
Qed.

Lemma easeInOutCubic_1 : easeInOutCubic 1 = 1.
Proof.
  unfold easeInOutCubic, pow3.
  assert (H : ltb 1 (1 / 2) = false) by (apply ltb_false; lra).
  rewrite H. lra.
Qed.

Lemma easeOutCubic_0 : easeOutCubic 0 = 0.
Proof. unfold easeOutCubic, pow3. lra. Qed.

Lemma easeOutCubic_1 : easeOutCubic 1 = 1.
Proof. unfold easeOutCubic, pow3. lra. Qed.

Lemma easeOutBack_0 a : easeOutBack 0 a = 0.
Proof. unfold easeOutBack, pow3, pow2. lra. Qed.

Lemma easeOutBack_1 a : easeOutBack 1 a = 1.
Proof. unfold easeOutBack, pow3, pow2. lra. Qed.

Lemma eDist_0 : eDist 0 = 0.
Proof.
  unfold eDist. destruct (Math_min_spec 1 (0 * 1.12)) as [[? ->] | [? ->]];
    [lra | ].
  replace (0 * 1.12) with 0 by lra. apply easeInOutCubic_0.
Qed.

Lemma eDist_1 : eDist 1 = 1.
Proof.
  unfold eDist. destruct (Math_min_spec 1 (1 * 1.12)) as [[? ->] | [? ->]];
    [ | lra].
  apply easeInOutCubic_1.
Qed.

Lemma sampleOpacity_ends tw :
  sampleOpacity tw 0 = op_from tw /\ sampleOpacity tw 1 = op_to tw.
Proof.
  unfold sampleOpacity. rewrite easeInOutCubic_0, easeInOutCubic_1. lra.
Qed.

Lemma sampleScale_ends tw :
  sampleScale tw 0 = sc_from tw /\ sampleScale tw 1 = sc_to tw.
Proof.
  unfold sampleScale, midT.
  assert (H0 : ltb 0 0.55 = true) by (apply ltb_true; lra).
  assert (H1 : ltb 1 0.55 = false) by (apply ltb_false; lra).
  rewrite H0, H1.
  replace (0 / 0.55) with 0 by lra.
  replace ((1 - 0.55) / (1 - 0.55)) with 1 by (field; lra).
  rewrite easeInOutCubic_0, easeInOutCubic_1. lra.
Qed.

Lemma sampleCenter_ends tw :
  sampleCenter tw 0 = (ce_fromX tw, ce_fromRotY tw)
  /\ sampleCenter tw 1 = (ce_toX tw, ce_toRotY tw).
Proof.
  unfold sampleCenter.
  rewrite easeOutBack_0, easeOutBack_1, easeOutCubic_0, easeOutCubic_1.
  split; f_equal; lra.
Qed.

(** The camera tween starts at the pose it read and ends at its target:
    azimuth moved by the shortest delta, polar, distance and field of view
    at their end values. *)
Lemma sampleCamera_ends tw fov fromFov toFov :
  cam_fromFov tw = Some fromFov ->
  cam_toFov tw = Some toFov ->
  sampleCamera tw fov 0
  = mkCameraState (cam_fromAz tw) (cam_fromPol tw) (cam_fromDist tw) fromFov
      (cam_target tw)
  /\ sampleCamera tw fov 1
     = mkCameraState (cam_fromAz tw + cam_dAz tw) (cam_toPol tw)
         (cam_toDist tw) toFov (cam_target tw).
Proof.
  intros Hfrom Hto. unfold sampleCamera.
  rewrite Hfrom, Hto, easeInOutCubic_0, easeInOutCubic_1, eDist_0, eDist_1.
  split; f_equal; lra.
Qed.

Lemma progress_quotient now t0 dur :
  dur <> 0 -> progress now t0 dur = Math_min 1 ((now - t0) / dur).
Proof.
  intros Hd. unfold progress, min1_div. by destruct (Req_dec_T dur 0).
Qed.

Lemma progress_instant now t0 : t0 < now -> progress now t0 0 = 1.
Proof.
  intros Hlate. unfold progress, min1_div.
  destruct (Req_dec_T 0 0) as [_ | Hne]; [ | done].
  destruct (Rlt_dec 0 (now - t0)); [done | lra].
Qed.

Lemma progress_le_1 now t0 dur : progress now t0 dur <= 1.
Proof.
  unfold progress, min1_div.
  destruct (Req_dec_T dur 0); [destruct (Rlt_dec 0 (now - t0)); [lra | ] | ];
    destruct (Math_min_spec 1 ((now - t0) / dur)) as [[? ->] | [? ->]]; lra.
Qed.

(** A tween started no later than the frame's clock reading, of positive
    duration, has its fraction in [[0, 1]]. *)
Lemma progress_range now t0 dur :
  0 < dur -> t0 <= now -> 0 <= progress now t0 dur <= 1.
Proof.
  intros Hdur Hnow. split; [ | apply progress_le_1].
  rewrite progress_quotient by lra.
  assert (0 <= (now - t0) / dur).
  { apply Rmult_le_pos; [lra | ]. left. by apply Rinv_0_lt_compat. }
  destruct (Math_min_spec 1 ((now - t0) / dur)) as [[? ->] | [? ->]]; lra.
Qed.


Lemma finished_iff t : finished t = true <-> 1 <= t.
Proof. unfold finished, geb. apply leb_true. Qed.

Lemma finished_progress now t0 dur :
  finished (progress now t0 dur) = true <-> progress now t0 dur = 1.
Proof.
  rewrite finished_iff. pose proof (progress_le_1 now t0 dur). split; lra.
Qed.

(** What each pass of a frame leaves alone. *)
Lemma stepOpacity_frame now st :
  scale (anim (stepOpacity now st)) = scale (anim st)
  /\ center (anim (stepOpacity now st)) = center (anim st)
  /\ camera (anim (stepOpacity now st)) = camera (anim st)
  /\ objectScale (world (stepOpacity now st)) = objectScale (world st)
  /\ centerPositionX (world (stepOpacity now st)) = centerPositionX (world st)
  /\ centerRotationY (world (stepOpacity now st)) = centerRotationY (world st)
  /\ cameraState (world (stepOpacity now st)) = cameraState (world st)
  /\ controlsRef (world (stepOpacity now st)) = controlsRef (world st).
Proof. unfold stepOpacity. by repeat split. Qed.

Lemma stepScale_frame now st :
  opacity (anim (stepScale now st)) = opacity (anim st)
  /\ center (anim (stepScale now st)) = center (anim st)
  /\ camera (anim (stepScale now st)) = camera (anim st)
  /\ faceMaterials (world (stepScale now st)) = faceMaterials (world st)
  /\ centerPositionX (world (stepScale now st)) = centerPositionX (world st)
  /\ centerRotationY (world (stepScale now st)) = centerRotationY (world st)
  /\ cameraState (world (stepScale now st)) = cameraState (world st)
  /\ controlsRef (world (stepScale now st)) = controlsRef (world st).
Proof. unfold stepScale. by repeat split. Qed.

Lemma stepCenter_frame now st :
  opacity (anim (stepCenter now st)) = opacity (anim st)
  /\ scale (anim (stepCenter now st)) = scale (anim st)
  /\ camera (anim (stepCenter now st)) = camera (anim st)
  /\ faceMaterials (world (stepCenter now st)) = faceMaterials (world st)
  /\ objectScale (world (stepCenter now st)) = objectScale (world st)
  /\ cameraState (world (stepCenter now st)) = cameraState (world st)
  /\ controlsRef (world (stepCenter now st)) = controlsRef (world st).
Proof. unfold stepCenter. destruct (center (anim st)); by repeat split. Qed.

Lemma stepCamera_frame now st :
  opacity (anim (stepCamera now st)) = opacity (anim st)
  /\ scale (anim (stepCamera now st)) = scale (anim st)
  /\ center (anim (stepCamera now st)) = center (anim st)
  /\ faceMaterials (world (stepCamera now st)) = faceMaterials (world st)
  /\ objectScale (world (stepCamera now st)) = objectScale (world st)
  /\ centerPositionX (world (stepCamera now st)) = centerPositionX (world st)
  /\ centerRotationY (world (stepCamera now st)) = centerRotationY (world st).
Proof.
  unfold stepCamera. destruct (camera (anim st)) as [tw | ]; [ | by repeat split].
  destruct (finished (progress now (cam_t0 tw) (cam_dur tw))); by repeat split.
Qed.

Lemma stepCenter_center now st :
  center (anim (stepCenter now st))
  = match center (anim st) with
    | Some tw =>
        if finished (progress now (ce_t0 tw) (ce_dur tw)) then None else Some tw
    | None => None
    end
  /\ (centerPositionX (world (stepCenter now st)),
      centerRotationY (world (stepCenter now st)))
     = match center (anim st) with
       | Some tw => sampleCenter tw (progress now (ce_t0 tw) (ce_dur tw))
       | None => (centerPositionX (world st), centerRotationY (world st))
       end.
Proof.
  unfold stepCenter. destruct (center (anim st)) as [tw | ] eqn:E.
  - by split.
  - by rewrite E.
Qed.

Lemma stepCamera_camera now st :
  camera (anim (stepCamera now st))
  = match camera (anim st) with
    | Some tw =>
        if finished (progress now (cam_t0 tw) (cam_dur tw)) then None
        else Some tw
    | None => None
    end
  /\ cameraState (world (stepCamera now st))
     = match camera (anim st) with
       | Some tw =>
           sampleCamera tw (c_fov (cameraState (world st)))
             (progress now (cam_t0 tw) (cam_dur tw))
       | None => cameraState (world st)
       end
  /\ (is_Some (controlsRef (world st))
      -> is_Some (controlsRef (world (stepCamera now st)))).
Proof.
  unfold stepCamera. destruct (camera (anim st)) as [tw | ] eqn:E.
  - destruct (finished (progress now (cam_t0 tw) (cam_dur tw)));
      (split; [done | split; [done | ]]); intros [c Hc]; record_simpl;
      rewrite Hc; by eexists.
  - by rewrite E.
Qed.

Lemma frame_opacity now st :
  opacity (anim (frame now st))
  = omap (retire (opacityProgress now)) (opacity (anim st)).
Proof.
  unfold frame.
  destruct (stepCamera_frame now (stepCenter now (stepScale now (stepOpacity now st))))
    as (-> & _).
  destruct (stepCenter_frame now (stepScale now (stepOpacity now st))) as (-> & _).
  by destruct (stepScale_frame now (stepOpacity now st)) as (-> & _).
Qed.

Lemma frame_scale now st :
  scale (anim (frame now st))
  = omap (retire (scaleProgress now)) (scale (anim st)).
Proof.
  unfold frame.
  destruct (stepCamera_frame now (stepCenter now (stepScale now (stepOpacity now st))))
    as (_ & -> & _).
  destruct (stepCenter_frame now (stepScale now (stepOpacity now st)))
    as (_ & -> & _).
  destruct (stepOpacity_frame now st) as (Hs & _).
  unfold stepScale at 1. cbn [anim scale with_anim with_scale]. by rewrite Hs.
Qed.

Lemma frame_faceMaterials now st :
  faceMaterials (world (frame now st))
  = merge (writeOpacity now) (opacity (anim st)) (faceMaterials (world st)).
Proof.
  unfold frame.
  destruct (stepCamera_frame now (stepCenter now (stepScale now (stepOpacity now st))))
    as (_ & _ & _ & -> & _).
  destruct (stepCenter_frame now (stepScale now (stepOpacity now st)))
    as (_ & _ & _ & -> & _).
  by destruct (stepScale_frame now (stepOpacity now st)) as (_ & _ & _ & -> & _).
Qed.

Lemma frame_objectScale now st :
  objectScale (world (frame now st))
  = merge (writeScale now) (scale (anim st)) (objectScale (world st)).
Proof.
  unfold frame.
  destruct (stepCamera_frame now (stepCenter now (stepScale now (stepOpacity now st))))
    as (_ & _ & _ & _ & -> & _).
  destruct (stepCenter_frame now (stepScale now (stepOpacity now st)))
    as (_ & _ & _ & _ & -> & _).
  destruct (stepOpacity_frame now st) as (Hs & _ & _ & Ho & _).
  unfold stepScale at 1.
  cbn [world objectScale with_anim with_world with_objectScale].
  by rewrite Hs, Ho.
Qed.

Lemma frame_center now st :
  center (anim (frame now st))
  = match center (anim st) with
    | Some tw =>
        if finished (progress now (ce_t0 tw) (ce_dur tw)) then None else Some tw
    | None => None
    end.
Proof.
  unfold frame.
  destruct (stepCamera_frame now (stepCenter now (stepScale now (stepOpacity now st))))
    as (_ & _ & -> & _).
  destruct (stepCenter_center now (stepScale now (stepOpacity now st))) as [-> _].
  destruct (stepScale_frame now (stepOpacity now st)) as (_ & -> & _).
  by destruct (stepOpacity_frame now st) as (_ & -> & _).
Qed.

Lemma frame_centerObject now st :
  (centerPositionX (world (frame now st)), centerRotationY (world (frame now st)))
  = match center (anim st) with
    | Some tw => sampleCenter tw (progress now (ce_t0 tw) (ce_dur tw))
    | None => (centerPositionX (world st), centerRotationY (world st))
    end.
Proof.
  unfold frame.
  destruct (stepCamera_frame now (stepCenter now (stepScale now (stepOpacity now st))))
    as (_ & _ & _ & _ & _ & -> & ->).
  destruct (stepCenter_center now (stepScale now (stepOpacity now st))) as [_ ->].
  destruct (stepScale_frame now (stepOpacity now st))
    as (_ & -> & _ & _ & -> & -> & _).
  by destruct (stepOpacity_frame now st) as (_ & -> & _ & _ & -> & -> & _).
Qed.

Lemma frame_camera now st :
  camera (anim (frame now st))
  = match camera (anim st) with
    | Some tw =>
        if finished (progress now (cam_t0 tw) (cam_dur tw)) then None
        else Some tw
    | None => None
    end.
Proof.
  unfold frame.
  destruct (stepCamera_camera now (stepCenter now (stepScale now (stepOpacity now st))))
    as (-> & _).
  destruct (stepCenter_frame now (stepScale now (stepOpacity now st)))
    as (_ & _ & -> & _).
  destruct (stepScale_frame now (stepOpacity now st)) as (_ & _ & -> & _).
  by destruct (stepOpacity_frame now st) as (_ & _ & -> & _).
Qed.

Lemma frame_cameraState now st :
  cameraState (world (frame now st))
  = match camera (anim st) with
    | Some tw =>
        sampleCamera tw (c_fov (cameraState (world st)))
          (progress now (cam_t0 tw) (cam_dur tw))
    | None => cameraState (world st)
    end.
Proof.
  unfold frame.
  destruct (stepCamera_camera now (stepCenter now (stepScale now (stepOpacity now st))))
    as (_ & -> & _).
  destruct (stepCenter_frame now (stepScale now (stepOpacity now st)))
    as (_ & _ & -> & _ & _ & -> & _).
  destruct (stepScale_frame now (stepOpacity now st))
    as (_ & _ & -> & _ & _ & _ & -> & _).
  by destruct (stepOpacity_frame now st) as (_ & _ & -> & _ & _ & _ & -> & _).
Qed.


Lemma frame_opacity_lookup now st id tw :
  opacity (anim st) !! id = Some tw ->
  opacity (anim (frame now st)) !! id
  = if finished (opacityProgress now tw) then None else Some tw.
Proof. intros H. by rewrite frame_opacity, lookup_omap, H. Qed.

Lemma frame_scale_lookup now st id tw :
  scale (anim st) !! id = Some tw ->
  scale (anim (frame now st)) !! id
  = if finished (scaleProgress now tw) then None else Some tw.
Proof. intros H. by rewrite frame_scale, lookup_omap, H. Qed.

(** The value a frame writes to a prepared face with a tween in flight. *)
Lemma frame_writes_opacity now st id tw m :
  opacity (anim st) !! id = Some tw ->
  faceMaterials (world st) !! id = Some m ->
  faceMaterials (world (frame now st)) !! id
  = Some (mkFaceMaterial (sampleOpacity tw (opacityProgress now tw))
            (mat_emissiveIntensity m)).
Proof.
  intros Htw Hm. by rewrite frame_faceMaterials, lookup_merge, Htw, Hm.
Qed.

Lemma frame_keeps_opacity now st id :
  opacity (anim st) !! id = None ->
  faceMaterials (world (frame now st)) !! id = faceMaterials (world st) !! id.
Proof.
  intros Htw. rewrite frame_faceMaterials, lookup_merge, Htw.
  by destruct (faceMaterials (world st) !! id).
Qed.

Lemma frame_writes_scale now st id tw :
  scale (anim st) !! id = Some tw ->
  objectScale (world (frame now st)) !! id
  = Some (sampleScale tw (scaleProgress now tw)).
Proof.
  intros Htw. rewrite frame_objectScale, lookup_merge, Htw.
  by destruct (objectScale (world st) !! id).
Qed.

End AnimatorFacts.

(** ** Replacing a tween in flight *)

Import Animator AnimatorFacts.



Lemma frame_targets_prepared now st :
  opacityTargetsPrepared st -> opacityTargetsPrepared (frame now st).
Proof.
  intros Hinv id [tw Htw].
  rewrite frame_opacity in Htw. apply lookup_omap_Some in Htw as (old & _ & Hold).
  destruct (Hinv id) as [m Hm]; [by eexists | ].
  rewrite (frame_writes_opacity now st id old m Hold Hm). by eexists.
Qed.
















Lemma getCameraPoseForMesh_example :
  / 100000000 <= lengthSq (sub (mkVector3 0 0 5) Example.origin)
  /\ 0.001
     <= polar (getCameraPoseForMesh Example.three Example.vals Example.scene
                 (world Example.ready) Example.faceA None)
     <= PI - 0.001.
Proof.
  assert (Hlen : / 100000000 <= lengthSq (sub (mkVector3 0 0 5) Example.origin)).
  { unfold lengthSq, sub. simpl. lra. }
  split; [exact Hlen | ].
  destruct (getCameraPoseForMesh_cases Example.three Example.vals Example.scene
              (world Example.ready) Example.faceA None) as [_ Hpose].
  by destruct (Hpose Hlen) as [Hbounds _].
Defined.

Lemma resolveTap_nearest_known_face_witness :
  Gesture.resolveTap Example.scene Example.occludedHit = Some Example.faceA.
Proof.
  destruct (resolveTap_nearest_known_face Example.scene Example.occludedHit)
    as (_ & _ & Hnearest).
  apply (Hnearest [Example.midBody] Example.faceA []).
  - reflexivity.
  - vm_compute; reflexivity.
  - repeat constructor.
  - vm_compute; reflexivity.
Defined.

(** * Further properties of the code *)

(** ** Numeric helpers *)

(** X1.  [clamp] keeps its result between the bounds, leaves a value within them
    alone, is idempotent, and with crossed bounds returns the lower one. *)
Theorem clamp_contract (v lo hi : R) :
  (lo <= hi -> lo <= clamp v lo hi <= hi)
  /\ (lo <= v <= hi -> clamp v lo hi = v)
  /\ (lo <= hi -> clamp (clamp v lo hi) lo hi = clamp v lo hi)
  /\ (hi < lo -> clamp v lo hi = lo).
Proof.
  assert (Hval : forall x, lo <= x <= hi -> clamp x lo hi = x).
  { intros x Hx. unfold clamp.
    destruct (Math_min_spec hi x) as [[? ->] | [? ->]];
      [destruct (Math_max_spec lo hi) | destruct (Math_max_spec lo x)]; lra. }
  split; [apply clamp_bounds | ]. split; [apply Hval | ]. split.
  - intros Hle. apply Hval. by apply clamp_bounds.
  - intros Hcross. unfold clamp.
    destruct (Math_min_spec hi v) as [[? ->] | [? ->]];
      [destruct (Math_max_spec lo hi) | destruct (Math_max_spec lo v)]; lra.
Qed.

Lemma normalizeAngle0ToTau_fixed x :
  0 <= x < tau -> normalizeAngle0ToTau x = x.
Proof.
  intros Hx. destruct (normalizeAngle0ToTau_congr x) as [k Hk].
  apply (turn_unique _ _ k); [apply normalizeAngle0ToTau_range | done | done].
Qed.

Lemma normalizeAngle0ToTau_repr (x : R) :
  0 <= normalizeAngle0ToTau x < tau
  /\ (exists k : Z, normalizeAngle0ToTau x = x + IZR k * tau)
  /\ (0 <= x < tau -> normalizeAngle0ToTau x = x)
  /\ normalizeAngle0ToTau (normalizeAngle0ToTau x) = normalizeAngle0ToTau x
  /\ forall k : Z, normalizeAngle0ToTau (x + IZR k * tau) = normalizeAngle0ToTau x.
Proof.
  split; [apply normalizeAngle0ToTau_range | ].
  split; [apply normalizeAngle0ToTau_congr | ].
  split; [apply normalizeAngle0ToTau_fixed | ]. split.
  - apply normalizeAngle0ToTau_fixed, normalizeAngle0ToTau_range.
  - intros k. by apply (normalizeAngle0ToTau_turns _ _ k).
Qed.

Lemma normalizeAngleMinusPiToPi_repr (x : R) :
  - PI <= normalizeAngleMinusPiToPi x < PI
  /\ (exists k : Z, normalizeAngleMinusPiToPi x = x + IZR k * tau)
  /\ (- PI <= x < PI -> normalizeAngleMinusPiToPi x = x)
  /\ normalizeAngleMinusPiToPi (normalizeAngleMinusPiToPi x)
     = normalizeAngleMinusPiToPi x.
Proof.
  assert (Hunfold : forall y,
            normalizeAngleMinusPiToPi y = normalizeAngle0ToTau (y + PI) - PI)
    by reflexivity.
  assert (Hfixed : forall y, - PI <= y < PI -> normalizeAngleMinusPiToPi y = y).
  { intros y Hy. rewrite Hunfold, normalizeAngle0ToTau_fixed; [lra | ].
    unfold tau. lra. }
  split; [apply normalizeAngleMinusPiToPi_range | ]. split.
  - destruct (normalizeAngle0ToTau_congr (x + PI)) as [k Hk].
    exists k. rewrite Hunfold, Hk. lra.
  - split; [apply Hfixed | ].
    apply Hfixed, normalizeAngleMinusPiToPi_range.
Qed.

(** X2.  The two angle normalisations pick canonical representatives.
    [normalizeAngle0ToTau] returns the angle of [[0, 2 PI)] that differs from
    its argument by whole turns: an angle already in range is returned as it
    is, and angles whole turns apart get the same result.
    [normalizeAngleMinusPiToPi], which the camera-end handler applies before
    it writes the azimuth to a slider of range [[-PI, PI]], does the same for
    [[-PI, PI)]. *)
Theorem angle_normalisation_canonical (x : R) :
  (0 <= normalizeAngle0ToTau x < tau
   /\ (exists k : Z, normalizeAngle0ToTau x = x + IZR k * tau)
   /\ (0 <= x < tau -> normalizeAngle0ToTau x = x)
   /\ normalizeAngle0ToTau (normalizeAngle0ToTau x) = normalizeAngle0ToTau x
   /\ forall k : Z,
        normalizeAngle0ToTau (x + IZR k * tau) = normalizeAngle0ToTau x)
  /\ (- PI <= normalizeAngleMinusPiToPi x < PI
      /\ (exists k : Z, normalizeAngleMinusPiToPi x = x + IZR k * tau)
      /\ (- PI <= x < PI -> normalizeAngleMinusPiToPi x = x)
      /\ normalizeAngleMinusPiToPi (normalizeAngleMinusPiToPi x)
         = normalizeAngleMinusPiToPi x).
Proof.
  split; [apply normalizeAngle0ToTau_repr | apply normalizeAngleMinusPiToPi_repr].
Qed.

Lemma shortestAngleDelta_same x : shortestAngleDelta x x = 0.
Proof.
  unfold shortestAngleDelta, gtb. pose proof PI_RGT_0.
  replace (normalizeAngle0ToTau x - normalizeAngle0ToTau x) with 0 by lra.
  assert (H1 : ltb PI 0 = false) by (apply ltb_false; lra).
  assert (H2 : ltb 0 (- PI) = false) by (apply ltb_false; lra).
  by rewrite H1, H2.
Qed.

(** X3.  [shortestAngleDelta] is the shortest way round: no rotation from [from]
    that ends at [to], whatever its number of extra turns, is smaller in
    magnitude; and between equal angles it is zero. *)
Theorem shortestAngleDelta_minimal (from to : R) :
  (forall k : Z,
     Rabs (shortestAngleDelta from to) <= Rabs (to - from + IZR k * tau))
  /\ shortestAngleDelta from from = 0.
Proof.
  split; [ | apply shortestAngleDelta_same].
  intros k. destruct (shortestAngleDelta_congr from to) as [k0 Hk0].
  pose proof (shortestAngleDelta_range from to) as Hrange.
  pose proof tau_pos as Htau. pose proof PI_RGT_0 as Hpi.
  assert (Hv : to - from + IZR k * tau
               = shortestAngleDelta from to + IZR (k - k0)%Z * tau).
  { rewrite Hk0, minus_IZR. lra. }
  rewrite Hv. set (d := shortestAngleDelta from to) in *.
  assert (Hd : Rabs d <= PI) by (apply Rabs_le; lra).
  destruct (Z.eq_dec (k - k0)%Z 0%Z) as [-> | Hne].
  - replace (d + 0 * tau) with d by lra. lra.
  - assert (Hm : (k - k0 <= -1)%Z \/ (1 <= k - k0)%Z) by lia.
    unfold tau in *. destruct Hm as [Hm | Hm]; apply IZR_le in Hm.
    + assert (d + IZR (k - k0)%Z * (PI * 2) <= - PI) by nra.
      rewrite (Rabs_left1 (d + _)) by lra. lra.
    + assert (PI <= d + IZR (k - k0)%Z * (PI * 2)) by nra.
      rewrite (Rabs_right (d + _)) by lra. lra.
Qed.

(** ** Easing curves *)

Lemma easeInOutCubic_range t : 0 <= t <= 1 -> 0 <= easeInOutCubic t <= 1.
Proof.
  intros Ht. unfold easeInOutCubic, ltb, pow3.
  destruct (Rlt_dec t (1 / 2)) as [Hlt | Hge].
  - assert (0 <= t * t) by nra. assert (t * t <= 1 / 4) by nra. nra.
  - set (u := -2 * t + 2). assert (Hu : 0 <= u <= 1) by (unfold u; lra).
    assert (0 <= u * u <= 1) by nra. assert (0 <= u * u * u <= 1) by nra.
    lra.
Qed.

Lemma cube_mono a b : 0 <= a <= b -> a * a * a <= b * b * b.
Proof.
  intros H. assert (a * a <= b * b) by nra. assert (0 <= a * a) by nra. nra.
Qed.

Lemma easeInOutCubic_mono s t :
  0 <= s -> s <= t -> t <= 1 -> easeInOutCubic s <= easeInOutCubic t.
Proof.
  intros Hs Hst Ht. unfold easeInOutCubic, ltb, pow3.
  destruct (Rlt_dec s (1 / 2)) as [Hs2 | Hs2];
    destruct (Rlt_dec t (1 / 2)) as [Ht2 | Ht2]; try lra.
  - pose proof (cube_mono s t). lra.
  - pose proof (cube_mono s (1 / 2)). pose proof (cube_mono (-2 * t + 2) 1).
    lra.
  - pose proof (cube_mono (-2 * t + 2) (-2 * s + 2)). lra.
Qed.

Lemma easeInOutCubic_symmetric t :
  easeInOutCubic (1 - t) = 1 - easeInOutCubic t.
Proof.
  unfold easeInOutCubic, ltb, pow3.
  destruct (Rlt_dec (1 - t) (1 / 2)); destruct (Rlt_dec t (1 / 2));
    try lra; try field.
  assert (t = 1 / 2) as -> by lra. lra.
Qed.

(** X4.  [easeInOutCubic] is a proper easing curve on [[0, 1]]: it starts at 0,
    ends at 1, stays between them, never decreases, and its second half
    mirrors the first. *)
Theorem easeInOutCubic_curve :
  easeInOutCubic 0 = 0 /\ easeInOutCubic 1 = 1
  /\ (forall t, 0 <= t <= 1 -> 0 <= easeInOutCubic t <= 1)
  /\ (forall s t, 0 <= s -> s <= t -> t <= 1 ->
        easeInOutCubic s <= easeInOutCubic t)
  /\ (forall t, easeInOutCubic (1 - t) = 1 - easeInOutCubic t).
Proof.
  split; [apply easeInOutCubic_0 | ]. split; [apply easeInOutCubic_1 | ].
  split; [apply easeInOutCubic_range | ].
  split; [apply easeInOutCubic_mono | apply easeInOutCubic_symmetric].
Qed.

(** X5.  [easeOutBack]: with amplitude 0 it is [easeOutCubic]; with a positive
    amplitude it overshoots 1 on [[0, 1]] exactly on the open stretch after
    [1 - c1 / (c1 + 1)] and before 1, so the intro slide passes its final
    position before it settles there. *)
Theorem easeOutBack_overshoot (t amplitude : R) :
  easeOutBack t 0 = easeOutCubic t
  /\ (0 < amplitude -> 0 <= t <= 1 ->
      (1 < easeOutBack t amplitude <->
       t < 1 /\ (1.70158 * amplitude + 1) * (1 - t) < 1.70158 * amplitude)).
Proof.
  split.
  - unfold easeOutBack, easeOutCubic, pow3, pow2. cbv zeta. field.
  - intros Ha Ht. unfold easeOutBack, pow3, pow2. cbv zeta.
    set (c1 := 1.70158 * amplitude). assert (Hc1 : 0 < c1) by (unfold c1; lra).
    set (u := 1 - t). assert (Hu : 0 <= u <= 1) by (unfold u; lra).
    replace (1 + (c1 + 1) * ((t - 1) * (t - 1) * (t - 1))
             + c1 * ((t - 1) * (t - 1)))
      with (1 + u * u * (c1 - (c1 + 1) * u)) by (unfold u; ring).
    split.
    + intros Hover. assert (Hpos : 0 < u * u * (c1 - (c1 + 1) * u)) by lra.
      assert (Hne : u <> 0) by (intros ->; lra).
      assert (Huu : 0 < u * u) by nra.
      split; [unfold u in *; lra | ].
      destruct (Rlt_dec ((c1 + 1) * u) c1) as [ | Hn]; [done | ].
      assert (c1 - (c1 + 1) * u <= 0) by lra. nra.
    + intros [Hlt Hlead]. assert (0 < u) by (unfold u; lra).
      assert (0 < u * u) by nra.
      assert (0 < (u * u) * (c1 - (c1 + 1) * u))
        by (apply Rmult_lt_0_compat; lra).
      lra.
Qed.

(** ** Sampling of the tweens *)

Lemma lerp_between a b e :
  0 <= e <= 1 -> Rmin a b <= a + (b - a) * e <= Rmax a b.
Proof.
  intros He. unfold Rmin, Rmax. destruct (Rle_dec a b); nra.
Qed.

Lemma progress_mono now1 now2 t0 dur :
  0 < dur -> now1 <= now2 -> progress now1 t0 dur <= progress now2 t0 dur.
Proof.
  intros Hd Hn. rewrite !progress_quotient by lra.
  assert (H : (now1 - t0) / dur <= (now2 - t0) / dur).
  { unfold Rdiv. apply Rmult_le_compat_r; [ | lra].
    left. by apply Rinv_0_lt_compat. }
  destruct (Math_min_spec 1 ((now1 - t0) / dur)) as [[? ->] | [? ->]];
    destruct (Math_min_spec 1 ((now2 - t0) / dur)) as [[? ->] | [? ->]]; lra.
Qed.

(** X6.  A fade never leaves the interval between its start and its target, and
    it never runs backwards: towards a higher target the opacity written at a
    later frame is at least the one written at an earlier frame, towards a
    lower target at most. *)
Theorem opacity_fade_monotone (tw : OpacityTween) (now1 now2 : R) :
  0 < op_dur tw -> op_t0 tw <= now1 -> now1 <= now2 ->
  Rmin (op_from tw) (op_to tw)
    <= sampleOpacity tw (opacityProgress now1 tw)
    <= Rmax (op_from tw) (op_to tw)
  /\ (op_from tw <= op_to tw ->
      sampleOpacity tw (opacityProgress now1 tw)
      <= sampleOpacity tw (opacityProgress now2 tw))
  /\ (op_to tw <= op_from tw ->
      sampleOpacity tw (opacityProgress now2 tw)
      <= sampleOpacity tw (opacityProgress now1 tw)).
Proof.
  intros Hd H0 Hn. unfold opacityProgress, sampleOpacity.
  pose proof (progress_range now1 _ _ Hd H0) as Hr1.
  pose proof (progress_range now2 (op_t0 tw) _ Hd ltac:(lra)) as Hr2.
  pose proof (progress_mono now1 now2 (op_t0 tw) _ Hd Hn) as Hm.
  pose proof (easeInOutCubic_mono _ _ (proj1 Hr1) Hm (proj2 Hr2)) as He.
  split; [apply lerp_between, easeInOutCubic_range, Hr1 | ].
  split; intros Hdir; nra.
Qed.

Lemma opacity_fade_monotone_witness :
  let tw := mkOpacityTween 1 0.15 0 180 in
  sampleOpacity tw (opacityProgress 90 tw)
  <= sampleOpacity tw (opacityProgress 60 tw).
Proof.
  intros tw.
  apply (opacity_fade_monotone tw 60 90); cbn; lra.
Defined.

Lemma div_unit a b : 0 <= a -> a <= b -> 0 < b -> 0 <= a / b <= 1.
Proof.
  intros Ha Hab Hb. pose proof (Rinv_0_lt_compat b Hb) as Hinv.
  assert (Hone : b * / b = 1) by (apply Rinv_r; lra).
  unfold Rdiv. split; nra.
Qed.

(** X7.  The two-phase scale tween passes through its bounce value exactly at the
    joint [midT], stays between [from] and [bounce] before it and between
    [bounce] and [to] from it on. *)
Theorem sampleScale_phases (tw : ScaleTween) (t : R) :
  sampleScale tw midT = sc_bounce tw
  /\ (0 <= t < midT ->
      Rmin (sc_from tw) (sc_bounce tw) <= sampleScale tw t
      <= Rmax (sc_from tw) (sc_bounce tw))
  /\ (midT <= t <= 1 ->
      Rmin (sc_bounce tw) (sc_to tw) <= sampleScale tw t
      <= Rmax (sc_bounce tw) (sc_to tw)).
Proof.
  unfold sampleScale, midT. split; [ | split].
  - assert (H : ltb 0.55 0.55 = false) by (apply ltb_false; lra).
    rewrite H. replace ((0.55 - 0.55) / (1 - 0.55)) with 0 by lra.
    rewrite easeInOutCubic_0. lra.
  - intros Ht. assert (H : ltb t 0.55 = true) by (apply ltb_true; lra).
    rewrite H. apply lerp_between, easeInOutCubic_range, div_unit; lra.
  - intros Ht. assert (H : ltb t 0.55 = false) by (apply ltb_false; lra).
    rewrite H. apply lerp_between, easeInOutCubic_range, div_unit; lra.
Qed.

(** X8.  The dolly fraction of a camera tween leads the angular one: on [[0, 1]]
    it is never behind [easeInOutCubic], never above 1, and it has reached 1
    from progress [25/28] on, before the angles arrive. *)
Theorem eDist_leads (t : R) :
  0 <= t <= 1 ->
  easeInOutCubic t <= eDist t <= 1
  /\ (25 / 28 <= t -> eDist t = 1)
  /\ (25 / 28 <= t < 1 -> easeInOutCubic t < 1).
Proof.
  intros Ht. unfold eDist.
  destruct (Math_min_spec 1 (t * 1.12)) as [[Hc ->] | [Hc ->]].
  - rewrite easeInOutCubic_1. split; [ | split].
    + split; [apply easeInOutCubic_range, Ht | lra].
    + done.
    + intros Hlt. unfold easeInOutCubic, ltb, pow3.
      destruct (Rlt_dec t (1 / 2)); [lra | ].
      set (u := -2 * t + 2). assert (0 < u) by (unfold u; lra).
      assert (0 < u * u) by nra. assert (0 < u * u * u) by nra. lra.
  - split; [ | split].
    + split; [apply easeInOutCubic_mono; lra | apply easeInOutCubic_range; lra].
    + intros Hle. lra.
    + intros Hlt. lra.
Qed.

Lemma eDist_leads_witness : eDist (9 / 10) = 1.
Proof.
  apply (eDist_leads (9 / 10)); lra.
Defined.

(** ** Tweens played out by the render loop *)

Lemma progress_done now t0 dur :
  0 < dur -> t0 + dur <= now -> progress now t0 dur = 1.
Proof.
  intros Hd Hn. rewrite progress_quotient by lra.
  pose proof (Rinv_0_lt_compat dur Hd) as Hinv.
  assert (Hone : dur * / dur = 1) by (apply Rinv_r; lra).
  assert (1 <= (now - t0) / dur) by (unfold Rdiv; nra).
  destruct (Math_min_spec 1 ((now - t0) / dur)) as [[? ->] | [? ->]]; lra.
Qed.

Lemma frames_cons t ts st : frames (t :: ts) st = frames ts (frame t st).
Proof. reflexivity. Qed.

Lemma frame_rest now st :
  selection (frame now st) = selection st
  /\ defaultPoseRef (frame now st) = defaultPoseRef st
  /\ bloomLayer (world (frame now st)) = bloomLayer (world st).
Proof.
  unfold frame.
  assert (H1 : forall s,
            selection (stepOpacity now s) = selection s
            /\ defaultPoseRef (stepOpacity now s) = defaultPoseRef s
            /\ bloomLayer (world (stepOpacity now s)) = bloomLayer (world s))
    by (intros s; unfold stepOpacity; by repeat split).
  assert (H2 : forall s,
            selection (stepScale now s) = selection s
            /\ defaultPoseRef (stepScale now s) = defaultPoseRef s
            /\ bloomLayer (world (stepScale now s)) = bloomLayer (world s))
    by (intros s; unfold stepScale; by repeat split).
  assert (H3 : forall s,
            selection (stepCenter now s) = selection s
            /\ defaultPoseRef (stepCenter now s) = defaultPoseRef s
            /\ bloomLayer (world (stepCenter now s)) = bloomLayer (world s)).
  { intros s. unfold stepCenter. destruct (center (anim s)) as [tw | ];
      [ | by repeat split].
    destruct (sampleCenter tw _). by repeat split. }
  assert (H4 : forall s,
            selection (stepCamera now s) = selection s
            /\ defaultPoseRef (stepCamera now s) = defaultPoseRef s
            /\ bloomLayer (world (stepCamera now s)) = bloomLayer (world s)).
  { intros s. unfold stepCamera. destruct (camera (anim s)) as [tw | ];
      [ | by repeat split].
    destruct (finished _); by repeat split. }
  destruct (H4 (stepCenter now (stepScale now (stepOpacity now st))))
    as (-> & -> & ->).
  destruct (H3 (stepScale now (stepOpacity now st))) as (-> & -> & ->).
  destruct (H2 (stepOpacity now st)) as (-> & -> & ->).
  apply H1.
Qed.

Lemma frames_rest ts : forall st,
  selection (frames ts st) = selection st
  /\ defaultPoseRef (frames ts st) = defaultPoseRef st
  /\ bloomLayer (world (frames ts st)) = bloomLayer (world st).
Proof.
  induction ts as [ | t ts IH]; intros st; [done | ].
  rewrite frames_cons. destruct (IH (frame t st)) as (-> & -> & ->).
  apply frame_rest.
Qed.

Lemma frames_settled_opacity ts : forall st id,
  opacity (anim st) !! id = None ->
  opacity (anim (frames ts st)) !! id = None
  /\ faceMaterials (world (frames ts st)) !! id = faceMaterials (world st) !! id.
Proof.
  induction ts as [ | t ts IH]; intros st id Hnone; [done | ].
  rewrite frames_cons.
  assert (Hnext : opacity (anim (frame t st)) !! id = None)
    by (by rewrite frame_opacity, lookup_omap, Hnone).
  destruct (IH _ _ Hnext) as (-> & ->).
  split; [done | by apply frame_keeps_opacity].
Qed.

(** A fade in flight is played out by the first frame at or after its end:
    from then on the face holds the target opacity and the tween is gone. *)
Lemma opacity_settles ts : forall st id tw m,
  opacity (anim st) !! id = Some tw ->
  faceMaterials (world st) !! id = Some m ->
  0 < op_dur tw ->
  Exists (fun t => op_t0 tw + op_dur tw <= t) ts ->
  opacity (anim (frames ts st)) !! id = None
  /\ faceMaterials (world (frames ts st)) !! id
     = Some (mkFaceMaterial (op_to tw) (mat_emissiveIntensity m)).
Proof.
  induction ts as [ | t ts IH]; intros st id tw m Htw Hm Hd Hex;
    [by apply Exists_nil in Hex | ].
  rewrite frames_cons.
  pose proof (frame_opacity_lookup t st id tw Htw) as Hnext.
  pose proof (frame_writes_opacity t st id tw m Htw Hm) as Hwrite.
  destruct (finished (opacityProgress t tw)) eqn:Hfin.
  - apply finished_progress in Hfin. unfold opacityProgress in Hwrite.
    rewrite Hfin in Hwrite. rewrite (proj2 (sampleOpacity_ends tw)) in Hwrite.
    destruct (frames_settled_opacity ts _ _ Hnext) as (-> & ->). by split.
  - apply Exists_cons in Hex as [Hhead | Htail].
    + unfold opacityProgress in Hfin.
      rewrite (progress_done _ _ _ Hd Hhead) in Hfin.
      by rewrite (proj2 (finished_iff 1)) in Hfin by lra.
    + by apply (IH _ _ _ _ Hnext Hwrite Hd Htail).
Qed.

Lemma frame_keeps_scale now st id :
  scale (anim st) !! id = None ->
  objectScale (world (frame now st)) !! id = objectScale (world st) !! id.
Proof.
  intros Hnone. rewrite frame_objectScale, lookup_merge, Hnone.
  by destruct (objectScale (world st) !! id).
Qed.

Lemma frames_settled_scale ts : forall st id,
  scale (anim st) !! id = None ->
  scale (anim (frames ts st)) !! id = None
  /\ objectScale (world (frames ts st)) !! id = objectScale (world st) !! id.
Proof.
  induction ts as [ | t ts IH]; intros st id Hnone; [done | ].
  rewrite frames_cons.
  assert (Hnext : scale (anim (frame t st)) !! id = None)
    by (by rewrite frame_scale, lookup_omap, Hnone).
  destruct (IH _ _ Hnext) as (-> & ->).
  split; [done | by apply frame_keeps_scale].
Qed.

Lemma scale_settles ts : forall st id tw,
  scale (anim st) !! id = Some tw ->
  0 < sc_dur tw ->
  Exists (fun t => sc_t0 tw + sc_dur tw <= t) ts ->
  scale (anim (frames ts st)) !! id = None
  /\ objectScale (world (frames ts st)) !! id = Some (sc_to tw).
Proof.
  induction ts as [ | t ts IH]; intros st id tw Htw Hd Hex;
    [by apply Exists_nil in Hex | ].
  rewrite frames_cons.
  pose proof (frame_scale_lookup t st id tw Htw) as Hnext.
  pose proof (frame_writes_scale t st id tw Htw) as Hwrite.
  destruct (finished (scaleProgress t tw)) eqn:Hfin.
  - apply finished_progress in Hfin. unfold scaleProgress in Hwrite.
    rewrite Hfin in Hwrite. rewrite (proj2 (sampleScale_ends tw)) in Hwrite.
    destruct (frames_settled_scale ts _ _ Hnext) as (-> & ->). by split.
  - apply Exists_cons in Hex as [Hhead | Htail].
    + unfold scaleProgress in Hfin.
      rewrite (progress_done _ _ _ Hd Hhead) in Hfin.
      by rewrite (proj2 (finished_iff 1)) in Hfin by lra.
    + by apply (IH _ _ _ Hnext Hd Htail).
Qed.

Lemma early_passes_lock now st :
  cameraAnimLockRef (stepCenter now (stepScale now (stepOpacity now st)))
  = cameraAnimLockRef st.
Proof.
  unfold stepCenter.
  destruct (center (anim (stepScale now (stepOpacity now st)))) as [tw | ].
  - by destruct (sampleCenter tw _).
  - reflexivity.
Qed.

(** What a frame does to the orbit controls and to the interaction lock. *)
Lemma frame_controls now st :
  (controlsRef (world (frame now st)), cameraAnimLockRef (frame now st))
  = match camera (anim st) with
    | None => (controlsRef (world st), cameraAnimLockRef st)
    | Some tw =>
        let t := progress now (cam_t0 tw) (cam_dur tw) in
        let d := c_distance (sampleCamera tw (c_fov (cameraState (world st))) t) in
        if finished t then
          ((fun c =>
              if cam_lockDistanceAtEnd tw
              then mkControls true d d (cam_target tw)
              else mkControls true (ctl_minDistance c) (ctl_maxDistance c)
                     (cam_target tw)) <$> controlsRef (world st),
           false)
        else
          ((fun c =>
              mkControls (ctl_enabled c) (ctl_minDistance c) (ctl_maxDistance c)
                (cam_target tw)) <$> controlsRef (world st),
           cameraAnimLockRef st)
    end.
Proof.
  unfold frame.
  pose proof (early_passes_lock now st) as Hlock.
  set (s := stepCenter now (stepScale now (stepOpacity now st))) in *.
  assert (Hcam : camera (anim s) = camera (anim st)).
  { unfold s.
    destruct (stepCenter_frame now (stepScale now (stepOpacity now st)))
      as (_ & _ & -> & _).
    destruct (stepScale_frame now (stepOpacity now st)) as (_ & _ & -> & _).
    by destruct (stepOpacity_frame now st) as (_ & _ & -> & _). }
  assert (Hstate : cameraState (world s) = cameraState (world st)).
  { unfold s.
    destruct (stepCenter_frame now (stepScale now (stepOpacity now st)))
      as (_ & _ & _ & _ & _ & -> & _).
    destruct (stepScale_frame now (stepOpacity now st))
      as (_ & _ & _ & _ & _ & _ & -> & _).
    by destruct (stepOpacity_frame now st) as (_ & _ & _ & _ & _ & _ & -> & _). }
  assert (Hctl : controlsRef (world s) = controlsRef (world st)).
  { unfold s.
    destruct (stepCenter_frame now (stepScale now (stepOpacity now st)))
      as (_ & _ & _ & _ & _ & _ & ->).
    destruct (stepScale_frame now (stepOpacity now st))
      as (_ & _ & _ & _ & _ & _ & _ & ->).
    by destruct (stepOpacity_frame now st) as (_ & _ & _ & _ & _ & _ & _ & ->). }
  clearbody s. unfold stepCamera. rewrite Hcam.
  destruct (camera (anim st)) as [tw | ]; [ | by rewrite Hctl, Hlock].
  cbv zeta. rewrite Hstate.
  destruct (finished (progress now (cam_t0 tw) (cam_dur tw))); record_simpl;
    rewrite ?Hlock, Hctl; destruct (controlsRef (world st)) as [c | ];
    reflexivity.
Qed.

Lemma frames_settled_camera ts : forall st,
  camera (anim st) = None ->
  camera (anim (frames ts st)) = None
  /\ cameraState (world (frames ts st)) = cameraState (world st)
  /\ controlsRef (world (frames ts st)) = controlsRef (world st)
  /\ cameraAnimLockRef (frames ts st) = cameraAnimLockRef st.
Proof.
  induction ts as [ | t ts IH]; intros st Hnone; [done | ].
  rewrite frames_cons.
  assert (Hnext : camera (anim (frame t st)) = None)
    by (by rewrite frame_camera, Hnone).
  destruct (IH _ Hnext) as (-> & -> & -> & ->).
  pose proof (frame_controls t st) as Hc. rewrite Hnone in Hc.
  injection Hc as -> ->. rewrite frame_cameraState, Hnone. done.
Qed.

(** A camera tween in flight is played out by the first frame at or after
    its end: the camera is at the tween's end pose, the interaction lock is
    released and the controls are enabled again. *)
Lemma camera_settles ts : forall st tw c fromFov toFov,
  camera (anim st) = Some tw ->
  controlsRef (world st) = Some c ->
  cam_fromFov tw = Some fromFov ->
  cam_toFov tw = Some toFov ->
  0 < cam_dur tw ->
  Exists (fun t => cam_t0 tw + cam_dur tw <= t) ts ->
  camera (anim (frames ts st)) = None
  /\ cameraAnimLockRef (frames ts st) = false
  /\ cameraState (world (frames ts st))
     = mkCameraState (cam_fromAz tw + cam_dAz tw) (cam_toPol tw)
         (cam_toDist tw) toFov (cam_target tw)
  /\ controlsRef (world (frames ts st))
     = Some (if cam_lockDistanceAtEnd tw
             then mkControls true (cam_toDist tw) (cam_toDist tw)
                    (cam_target tw)
             else mkControls true (ctl_minDistance c) (ctl_maxDistance c)
                    (cam_target tw)).
Proof.
  induction ts as [ | t ts IH]; intros st tw c fromFov toFov Htw Hc Hfrom Hto
    Hd Hex; [by apply Exists_nil in Hex | ].
  rewrite frames_cons.
  pose proof (frame_camera t st) as Hnext.
  pose proof (frame_cameraState t st) as Hstate.
  pose proof (frame_controls t st) as Hctl.
  rewrite Htw in Hnext, Hstate, Hctl. cbv zeta in Hctl. rewrite Hc in Hctl.
  destruct (finished (progress t (cam_t0 tw) (cam_dur tw))) eqn:Hfin.
  - apply finished_progress in Hfin. rewrite Hfin in Hstate, Hctl.
    rewrite (proj2 (sampleCamera_ends tw _ _ _ Hfrom Hto)) in Hstate, Hctl.
    cbn in Hctl. injection Hctl as Hctl Hlock.
    destruct (frames_settled_camera ts _ Hnext) as (-> & -> & -> & ->).
    rewrite Hstate, Hctl, Hlock. by destruct (cam_lockDistanceAtEnd tw).
  - apply Exists_cons in Hex as [Hhead | Htail].
    + rewrite (progress_done _ _ _ Hd Hhead) in Hfin.
      by rewrite (proj2 (finished_iff 1)) in Hfin by lra.
    + cbn in Hctl. injection Hctl as Hctl Hlock.
      by apply (IH _ _ _ _ _ Hnext Hctl Hfrom Hto Hd Htail).
Qed.

(** X9.  [animateOpacity] followed by the render loop: once a frame has run at or
    after the end of the fade, the face is at the requested opacity and its
    tween has been retired, however many frames ran before or after. *)
Theorem fade_completes (now : R) (mesh : Object3D) (to dur : R)
    (ts : list R) (st : State) :
  is_Some (material mesh) ->
  0 < dur ->
  Exists (fun t => now + dur <= t) ts ->
  let st' := frames ts (animateOpacity now mesh to dur st) in
  opacityOf (world st') mesh = to
  /\ opacity (anim st') !! uuid mesh = None.
Proof.
  intros Hmat Hd Hex st'.
  destruct (animateOpacity_prepared now mesh to dur st Hmat) as [m Hm].
  pose proof (animateOpacity_lookup now mesh to dur st Hmat) as Htw.
  destruct (opacity_settles ts _ _ _ _ Htw Hm Hd Hex) as [Hgone Hval].
  unfold st', opacityOf. by rewrite Hval.
Qed.

Lemma fade_completes_witness :
  opacityOf
    (world (frames [1100; 1300]
              (animateOpacity 1000 Example.faceA 0.15 250 Example.ready)))
    Example.faceA = 0.15.
Proof.
  apply (fade_completes 1000 Example.faceA 0.15 250 [1100; 1300] Example.ready).
  - by eexists.
  - lra.
  - apply Exists_cons_tl, Exists_cons_hd. lra.
Defined.

(** X10.  [animateScale] followed by the render loop: once a frame has run at or
    after the end of the tween, the object is at the requested scale, not at
    the bounce value, and its tween has been retired. *)
Theorem scale_completes (now : R) (obj : Object3D) (to bounce dur : R)
    (ts : list R) (st : State) :
  0 < dur ->
  Exists (fun t => now + dur <= t) ts ->
  let st' := frames ts (animateScale now obj to bounce dur st) in
  scaleOf (world st') obj = to
  /\ scale (anim st') !! uuid obj = None.
Proof.
  intros Hd Hex st'.
  pose proof (animateScale_lookup now obj to bounce dur st) as Htw.
  destruct (scale_settles ts _ _ _ Htw Hd Hex) as [Hgone Hval].
  unfold st', scaleOf. by rewrite Hval.
Qed.

Lemma scale_completes_witness :
  scaleOf
    (world (frames [1100; 1300]
              (animateScale 1000 Example.midCube 1.28 1.38 260 Example.ready)))
    Example.midCube = 1.28.
Proof.
  apply (scale_completes 1000 Example.midCube 1.28 1.38 260 [1100; 1300]
           Example.ready).
  - lra.
  - apply Exists_cons_tl, Exists_cons_hd. lra.
Defined.

Lemma animateCameraToPreset_issue vals sc now to dur fov st c :
  controlsRef (world st) = Some c ->
  let st1 := animateCameraToPreset vals sc now to dur fov st in
  let cam := cameraState (world st) in
  camera (anim st1)
  = Some (mkCameraTween now dur
            (c_azimuth cam) (shortestAngleDelta (c_azimuth cam) (azimuth to))
            (c_polar cam) (polar to) (c_distance cam) (distance to)
            (if forceCenter vals then modelCenterRef sc else ctl_target c)
            (lockDistanceAtEnd vals)
            (Some (c_fov cam)) (Some (default (c_fov cam) fov)))
  /\ cameraAnimLockRef st1 = true
  /\ exists c1, controlsRef (world st1) = Some c1 /\ ctl_enabled c1 = false.
Proof.
  intros Hc. cbv zeta. unfold animateCameraToPreset. rewrite Hc.
  record_simpl. split; [reflexivity | ]. split; [reflexivity | ].
  eexists. split; reflexivity.
Qed.


Lemma Exists_later (a b : R) (ts : list R) :
  Exists (fun t => a <= t) ts -> b <= a -> Exists (fun t => b <= t) ts.
Proof.
  intros Hex Hba. induction Hex as [t ts Ht | t ts _ IH].
  - apply Exists_cons_hd. lra.
  - by apply Exists_cons_tl.
Qed.

(** *** The reset, played out *)






(** ** Pointer gestures *)

Module GestureFacts.
Import GestureClassifier.

Lemma resolvedFace_known sc hits face :
  Gesture.resolvedFace sc hits = Some face ->
  Gesture.isKnownFace sc face = true.
Proof.
  unfold Gesture.resolvedFace.
  destruct (List.find _ (default [] (e_intersections hits))) as [hit | ] eqn:E1.
  { intros [= <-]. by eapply find_holds. }
  destruct (List.find _ (e_raycastFaces hits)) as [hit | ] eqn:E2.
  { intros [= <-]. by eapply find_holds. }
  destruct (Gesture.isKnownFace sc (e_object hits)) eqn:E3; [ | done].
  by intros [= <-].
Qed.

(** What a pointer-up that selects a face has passed, and what it leaves in
    the refs. *)
Lemma pointerUpTap_emits g sc now e st refs refs' face :
  pointerUpTap g sc now e st refs = (refs', Some face) ->
  (g = false /\ cameraAnimLockRef st = false
   /\ secondaryTouch e = false /\ otherMouseButton e = false
   /\ Gesture.isClosestIntersection (ev_hits e) = true
   /\ sameNativeEvent e (lastPointerUpRef refs) = false)
  /\ (down_active (pointerDownRef refs) = true
      /\ ltb (now - downAt (pointerDownRef refs)) MIN_CLICK_PRESS_MS = false
      /\ dragged e (pointerDownRef refs) = false
      /\ cameraMoved (world st) (pointerDownRef refs) = false
      /\ deltaDragged e = false)
  /\ (Gesture.resolvedFace sc (ev_hits e) = Some face
      /\ duplicateTap now e (lastResolvedTapRef refs) face = false
      /\ mouseAfterTouch now e (lastResolvedTapRef refs) = false)
  /\ (down_active (pointerDownRef refs') = false
      /\ lastResolvedTapRef refs'
         = mkLastResolvedTap now (finiteOf (ev_clientX e))
             (finiteOf (ev_clientY e)) (Some (pointerTypeOf e))
             (faceUuidOf face)
      /\ suppressOrbitSyncUntilRef refs'
         = Math_max (suppressOrbitSyncUntilRef refs) (now + 1100)).
Proof.
  unfold pointerUpTap.
  destruct g; [done | ].
  destruct (cameraAnimLockRef st); [done | ].
  destruct (secondaryTouch e); [done | ].
  destruct (otherMouseButton e); [done | ].
  destruct (Gesture.isClosestIntersection (ev_hits e)); [ | done].
  destruct (sameNativeEvent e (lastPointerUpRef refs)); [done | ].
  cbn [negb]. cbv zeta. cbn [pointerDownRef lastResolvedTapRef
                               suppressOrbitSyncUntilRef lastPointerUpRef].
  destruct (down_active (pointerDownRef refs)); [ | done]. cbn [negb].
  destruct (ltb (now - downAt (pointerDownRef refs)) MIN_CLICK_PRESS_MS);
    [done | ].
  destruct (dragged e (pointerDownRef refs)); [done | ].
  destruct (cameraMoved (world st) (pointerDownRef refs)); [done | ].
  destruct (deltaDragged e); [done | ].
  destruct (allFaceMeshes sc); [done | ].
  destruct (Gesture.resolvedFace sc (ev_hits e)) as [f | ]; [ | done].
  destruct (duplicateTap now e (lastResolvedTapRef refs) f) eqn:Hdup; [done | ].
  destruct (mouseAfterTouch now e (lastResolvedTapRef refs)); [done | ].
  intros [= <- <-]. by repeat split.
Qed.

(** What a pointer-up that selects nothing leaves in the refs. *)
Lemma pointerUpTap_silent g sc now e st refs refs' :
  pointerUpTap g sc now e st refs = (refs', None) ->
  lastResolvedTapRef refs' = lastResolvedTapRef refs
  /\ suppressOrbitSyncUntilRef refs' = suppressOrbitSyncUntilRef refs
  /\ (down_active (pointerDownRef refs') = true ->
      down_active (pointerDownRef refs) = true).
Proof.
  unfold pointerUpTap.
  destruct g; [by intros [= <-] | ].
  destruct (cameraAnimLockRef st); [by intros [= <-] | ].
  destruct (secondaryTouch e); [by intros [= <-] | ].
  destruct (otherMouseButton e); [by intros [= <-] | ].
  destruct (Gesture.isClosestIntersection (ev_hits e)); [ | by intros [= <-]].
  destruct (sameNativeEvent e (lastPointerUpRef refs)); [by intros [= <-] | ].
  cbn [negb]. cbv zeta. cbn [pointerDownRef lastResolvedTapRef
                               suppressOrbitSyncUntilRef lastPointerUpRef].
  destruct (down_active (pointerDownRef refs)); [ | by intros [= <-]].
  cbn [negb].
  destruct (ltb (now - downAt (pointerDownRef refs)) MIN_CLICK_PRESS_MS);
    [by intros [= <-] | ].
  destruct (dragged e (pointerDownRef refs)); [by intros [= <-] | ].
  destruct (cameraMoved (world st) (pointerDownRef refs)); [by intros [= <-] | ].
  destruct (deltaDragged e); [by intros [= <-] | ].
  destruct (allFaceMeshes sc); [by intros [= <-] | ].
  destruct (Gesture.resolvedFace sc (ev_hits e)) as [f | ]; [ | by intros [= <-]].
  destruct (duplicateTap now e (lastResolvedTapRef refs) f); [by intros [= <-] | ].
  destruct (mouseAfterTouch now e (lastResolvedTapRef refs)); [by intros [= <-] | ].
  done.
Qed.

Lemma onModelPointerMove_keeps e refs :
  let refs' := onModelPointerMove e refs in
  down_active (pointerDownRef refs') = down_active (pointerDownRef refs)
  /\ down_pointerId (pointerDownRef refs') = down_pointerId (pointerDownRef refs)
  /\ down_x (pointerDownRef refs') = down_x (pointerDownRef refs)
  /\ down_y (pointerDownRef refs') = down_y (pointerDownRef refs)
  /\ downAt (pointerDownRef refs') = downAt (pointerDownRef refs)
  /\ maxFromStart (pointerDownRef refs) <= maxFromStart (pointerDownRef refs')
  /\ lastPointerUpRef refs' = lastPointerUpRef refs
  /\ lastResolvedTapRef refs' = lastResolvedTapRef refs
  /\ suppressOrbitSyncUntilRef refs' = suppressOrbitSyncUntilRef refs.
Proof.
  cbv zeta. unfold onModelPointerMove.
  destruct (down_active (pointerDownRef refs)) eqn:Hact; cbn [negb];
    [ | repeat split; first [done | lra]].
  destruct (samePointer _ _); cbn [negb]; [ | repeat split; first [done | lra]].
  destruct (finiteOf (ev_clientX e)) as [x | ]; [ | repeat split; first [done | lra]].
  destruct (finiteOf (ev_clientY e)) as [y | ]; [ | repeat split; first [done | lra]].
  destruct (down_x (pointerDownRef refs)) as [x0 | ] eqn:Hx;
    [ | repeat split; first [done | lra]].
  destruct (down_y (pointerDownRef refs)) as [y0 | ] eqn:Hy;
    [ | repeat split; first [done | lra]].
  unfold gtb.
  destruct (ltb (maxFromStart (pointerDownRef refs)) (hypot (x - x0) (y - y0)))
    eqn:Hgt; [ | repeat split; first [done | lra]].
  apply ltb_true in Hgt. cbn. repeat split; first [done | lra].
Qed.

Lemma hypot_nonneg a b : 0 <= hypot a b.
Proof. apply sqrt_pos. Qed.

Lemma hypot_origin a b : hypot (a - a) (b - b) = 0.
Proof.
  unfold hypot. replace ((a - a) * (a - a) + (b - b) * (b - b)) with 0 by ring.
  apply sqrt_0.
Qed.

Lemma hypot_ge_abs a b : Rabs a <= hypot a b.
Proof.
  unfold hypot. rewrite <- (sqrt_Rsqr_abs a). apply sqrt_le_1_alt.
  unfold Rsqr. nra.
Qed.

(** The press of the example, released in place, selects [faceA]. *)
Lemma example_release_selects :
  exists refs',
    pointerUpTap false Example.scene 5120 GestureExample.release Example.ready
      GestureExample.pressed = (refs', Some Example.faceA).
Proof.
  eexists. unfold pointerUpTap.
  change (cameraAnimLockRef Example.ready) with false. cbv iota.
  change (secondaryTouch GestureExample.release) with false. cbv iota.
  change (otherMouseButton GestureExample.release) with false. cbv iota.
  assert (Hclosest : Gesture.isClosestIntersection
                       (ev_hits GestureExample.release) = true)
    by (vm_compute; reflexivity).
  rewrite Hclosest. cbn [negb].
  assert (Hnative : sameNativeEvent GestureExample.release
                      (lastPointerUpRef GestureExample.pressed) = false).
  { unfold sameNativeEvent. cbn. unfold eqbR.
    destruct (Req_dec_T (- 1) 5120) as [Heq | _]; [lra | ].
    by rewrite andb_false_r. }
  rewrite Hnative. cbv zeta.
  change (down_active (pointerDownRef GestureExample.pressed)) with true.
  cbn [negb].
  change (downAt (pointerDownRef GestureExample.pressed)) with 5000.
  assert (Hpress : ltb (5120 - 5000) MIN_CLICK_PRESS_MS = false)
    by (apply ltb_false; unfold MIN_CLICK_PRESS_MS; lra).
  rewrite Hpress.
  assert (Hdrag : dragged GestureExample.release
                    (pointerDownRef GestureExample.pressed) = false).
  { unfold dragged. cbn. rewrite hypot_origin. unfold gtb.
    apply ltb_false. unfold CLICK_DRAG_THRESHOLD_PX.
    destruct (Math_max_spec 0 0) as [[_ ->] | [_ ->]]; lra. }
  rewrite Hdrag.
  assert (Hcam : cameraMoved (world Example.ready)
                   (pointerDownRef GestureExample.pressed) = false).
  { unfold cameraMoved. cbn. rewrite shortestAngleDelta_same.
    replace (2.051 - 2.051) with 0 by lra. replace (20 - 20) with 0 by lra.
    rewrite Rabs_R0. unfold gtb.
    assert (H1 : ltb 0.01 0 = false) by (apply ltb_false; lra).
    assert (H2 : ltb 0.05 0 = false) by (apply ltb_false; lra).
    by rewrite H1, H2. }
  rewrite Hcam.
  assert (Hdelta : deltaDragged GestureExample.release = false).
  { unfold deltaDragged, gtb. cbn. apply ltb_false.
    unfold CLICK_DRAG_THRESHOLD_PX. lra. }
  rewrite Hdelta.
  change (allFaceMeshes Example.scene)
    with [Example.faceA; Example.faceX; Example.homeFace].
  assert (Hface : Gesture.resolvedFace Example.scene
                    (ev_hits GestureExample.release) = Some Example.faceA)
    by (vm_compute; reflexivity).
  rewrite Hface. cbn [lastResolvedTapRef].
  change (lastResolvedTapRef GestureExample.pressed)
    with (mkLastResolvedTap (- 1) None None None None).
  change (duplicateTap 5120 GestureExample.release
            (mkLastResolvedTap (- 1) None None None None) Example.faceA)
    with (false && ltb (5120 - - 1) 320).
  cbn [andb].
  unfold mouseAfterTouch. cbn [tap_pointerType].
  replace (bool_decide (@None string = Some "touch")) with false
    by (symmetry; by apply bool_decide_eq_false).
  rewrite andb_false_r. cbn [andb]. reflexivity.
Qed.

End GestureFacts.

Import GestureClassifier GestureFacts.

(** X14.  A pointer-up selects a face only after a proper tap: outside the guided
    demos and with the camera lock released, on a press that was registered,
    held for at least 30 ms, not moved past the drag threshold when the
    coordinates are known, and with the orbit where it was at the press.
    The face is the one the hit resolution gives, a known face, and the
    press is consumed. *)
Theorem tap_soundness (g : bool) (sc : Interaction) (now : R)
    (e : PointerEvent) (st : State) (refs refs' : GestureRefs)
    (face : Object3D) :
  pointerUpTap g sc now e st refs = (refs', Some face) ->
  g = false /\ cameraAnimLockRef st = false
  /\ down_active (pointerDownRef refs) = true
  /\ MIN_CLICK_PRESS_MS <= now - downAt (pointerDownRef refs)
  /\ Gesture.resolveTap sc (ev_hits e) = Some face
  /\ Gesture.isKnownFace sc face = true
  /\ (forall x0 y0 x y,
        down_x (pointerDownRef refs) = Some x0 ->
        down_y (pointerDownRef refs) = Some y0 ->
        ev_clientX e = Finite x -> ev_clientY e = Finite y ->
        samePointer (down_pointerId (pointerDownRef refs)) (ev_pointerId e)
        = true ->
        hypot (x - x0) (y - y0) <= dragThreshold e
        /\ maxFromStart (pointerDownRef refs) <= dragThreshold e)
  /\ (forall az pol dist,
        is_Some (controlsRef (world st)) ->
        startAzimuth (pointerDownRef refs) = Some az ->
        startPolar (pointerDownRef refs) = Some pol ->
        startDistance (pointerDownRef refs) = Some dist ->
        Rabs (shortestAngleDelta az (c_azimuth (cameraState (world st))))
        <= 0.01
        /\ Rabs (c_polar (cameraState (world st)) - pol) <= 0.01
        /\ Rabs (c_distance (cameraState (world st)) - dist) <= 0.05)
  /\ down_active (pointerDownRef refs') = false.
Proof.
  intros Hemit.
  destruct (pointerUpTap_emits _ _ _ _ _ _ _ _ Hemit)
    as ((Hg & Hlock & _ & _ & Hclosest & _)
        & (Hact & Hpress & Hdrag & Hcam & _)
        & (Hface & _) & (Hdone & _)).
  split; [done | ]. split; [done | ]. split; [done | ].
  split; [by apply ltb_false in Hpress | ].
  split; [unfold Gesture.resolveTap; by rewrite Hclosest | ].
  split; [by eapply resolvedFace_known | ].
  split; [ | split; [ | done]].
  - intros x0 y0 x y Hx0 Hy0 Hx Hy Hsame. unfold dragged in Hdrag.
    rewrite Hx0, Hy0, Hx, Hy, Hsame in Hdrag. cbn in Hdrag.
    apply ltb_false in Hdrag.
    destruct (Math_max_spec (hypot (x - x0) (y - y0))
                (maxFromStart (pointerDownRef refs))) as [[? Hm] | [? Hm]];
      rewrite Hm in Hdrag; lra.
  - intros az pol dist [c Hc] Haz Hpol Hdist. unfold cameraMoved in Hcam.
    rewrite Hc, Haz, Hpol, Hdist in Hcam. cbv zeta in Hcam.
    apply orb_false_elim in Hcam as [Hcam Hd].
    apply orb_false_elim in Hcam as [Ha Hp].
    apply ltb_false in Ha, Hp, Hd. lra.
Qed.

Lemma tap_soundness_witness :
  Gesture.isKnownFace Example.scene Example.faceA = true.
Proof.
  destruct example_release_selects as [refs' Hemit].
  by destruct (tap_soundness _ _ _ _ _ _ _ _ Hemit) as (_ & _ & _ & _ & _ & H & _).
Defined.

Lemma runGesture_taps g sc inputs : forall refs acc,
  Forall (fun i => isPointerDown i = false) inputs ->
  let r := foldl (gestureStep g sc) (refs, acc) inputs in
  (length r.2 <= S (length acc))%nat
  /\ (down_active (pointerDownRef refs) = false -> r.2 = acc)
  /\ ((length r.2 = S (length acc))%nat ->
      down_active (pointerDownRef r.1) = false).
Proof.
  induction inputs as [ | i inputs IH]; intros refs acc Hno; cbv zeta.
  - cbn. split; [lia | ]. split; [done | lia].
  - apply Forall_cons in Hno as [Hi Hno]. cbn [foldl].
    destruct i as [now e w | e | now e st]; [done | | ].
    + cbn [gestureStep fst snd].
      destruct (onModelPointerMove_keeps e refs) as (Hact & _).
      destruct (IH (onModelPointerMove e refs) acc Hno) as (Hle & Hidle & Hfull).
      split; [done | ]. split; [ | done].
      intros Hoff. apply Hidle. by rewrite Hact.
    + cbn [gestureStep fst snd].
      destruct (pointerUpTap g sc now e st refs) as [refs' [face | ]] eqn:Hup.
      * destruct (pointerUpTap_emits _ _ _ _ _ _ _ _ Hup)
          as (_ & (Hact & _) & _ & (Hdone & _)).
        destruct (IH refs' (face :: acc) Hno) as (_ & Hidle & _).
        rewrite (Hidle Hdone). cbn [length].
        split; [lia | ]. split; [by rewrite Hact | ].
        intros _. specialize (Hidle Hdone).
        assert (Hrest : forall l r0,
                  Forall (fun i => isPointerDown i = false) l ->
                  down_active (pointerDownRef r0) = false ->
                  forall a,
                    down_active
                      (pointerDownRef (foldl (gestureStep g sc) (r0, a) l).1)
                    = false).
        { clear. induction l as [ | j l IHl]; intros r0 Hl Hr0 a; [done | ].
          apply Forall_cons in Hl as [Hj Hl]. cbn [foldl].
          destruct j as [now e w | e | now e st]; [done | | ].
          - cbn [gestureStep fst snd]. apply IHl; [done | ].
            destruct (onModelPointerMove_keeps e r0) as (-> & _). done.
          - cbn [gestureStep fst snd].
            destruct (pointerUpTap g sc now e st r0) as [r1 [f | ]] eqn:Hup.
            + destruct (pointerUpTap_emits _ _ _ _ _ _ _ _ Hup)
                as (_ & (Hact & _) & _). by rewrite Hr0 in Hact.
            + apply IHl; [done | ].
              destruct (pointerUpTap_silent _ _ _ _ _ _ _ Hup) as (_ & _ & Hk).
              destruct (down_active (pointerDownRef r1)); [ | done].
              by rewrite Hk in Hr0. }
        by apply Hrest.
      * destruct (pointerUpTap_silent _ _ _ _ _ _ _ Hup) as (_ & _ & Hk).
        destruct (IH refs' acc Hno) as (Hle & Hidle & Hfull).
        split; [done | ]. split; [ | done].
        intros Hoff. apply Hidle.
        destruct (down_active (pointerDownRef refs')); [ | done].
        by rewrite Hk in Hoff.
Qed.

(** X15.  One press gives at most one selection: over any run of pointer moves and
    pointer-ups with no pointer-down among them, the up handler selects a
    face at most once, and never when no press is registered. *)
Theorem one_tap_per_press (g : bool) (sc : Interaction)
    (inputs : list PointerInput) (refs : GestureRefs) :
  Forall (fun i => isPointerDown i = false) inputs ->
  (length (runGesture g sc inputs refs).2 <= 1)%nat
  /\ (down_active (pointerDownRef refs) = false ->
      (runGesture g sc inputs refs).2 = []).
Proof.
  intros Hno. destruct (runGesture_taps g sc inputs refs [] Hno) as (Hle & Hidle & _).
  split; [exact Hle | exact Hidle].
Qed.

Lemma one_tap_per_press_witness :
  (length
     (runGesture false Example.scene
        [PointerUpAt 5120 GestureExample.release Example.ready;
         PointerUpAt 5130 GestureExample.release Example.ready]
        GestureExample.pressed).2 <= 1)%nat.
Proof.
  apply (one_tap_per_press false Example.scene
           [PointerUpAt 5120 GestureExample.release Example.ready;
            PointerUpAt 5130 GestureExample.release Example.ready]
           GestureExample.pressed).
  repeat constructor.
Defined.

Lemma onModelPointerDown_keeps g now e w refs :
  lastPointerUpRef (onModelPointerDown g now e w refs) = lastPointerUpRef refs
  /\ lastResolvedTapRef (onModelPointerDown g now e w refs)
     = lastResolvedTapRef refs
  /\ suppressOrbitSyncUntilRef (onModelPointerDown g now e w refs)
     = suppressOrbitSyncUntilRef refs.
Proof.
  unfold onModelPointerDown. destruct g; [done | ].
  by destruct (secondaryTouch e).
Qed.

Lemma gestureStep_suppress g sc i refs acc :
  suppressOrbitSyncUntilRef refs
  <= suppressOrbitSyncUntilRef (gestureStep g sc (refs, acc) i).1.
Proof.
  destruct i as [now e w | e | now e st]; cbn [gestureStep fst snd].
  - destruct (onModelPointerDown_keeps g now e w refs) as (_ & _ & ->). lra.
  - destruct (onModelPointerMove_keeps e refs)
      as (_ & _ & _ & _ & _ & _ & _ & _ & ->). lra.
  - destruct (pointerUpTap g sc now e st refs) as [refs' [face | ]] eqn:Hup.
    + destruct (pointerUpTap_emits _ _ _ _ _ _ _ _ Hup)
        as (_ & _ & _ & (_ & _ & Hs)).
      cbn [fst]. rewrite Hs.
      destruct (Math_max_spec (suppressOrbitSyncUntilRef refs) (now + 1100))
        as [[? ->] | [? ->]]; lra.
    + destruct (pointerUpTap_silent _ _ _ _ _ _ _ Hup) as (_ & Hs & _).
      cbn [fst]. rewrite Hs. lra.
Qed.

Lemma runGesture_suppress g sc inputs : forall refs acc,
  suppressOrbitSyncUntilRef refs
  <= suppressOrbitSyncUntilRef (foldl (gestureStep g sc) (refs, acc) inputs).1.
Proof.
  induction inputs as [ | i inputs IH]; intros refs acc; [cbn; lra | ].
  cbn [foldl]. pose proof (gestureStep_suppress g sc i refs acc) as Hstep.
  destruct (gestureStep g sc (refs, acc) i) as [refs1 acc1].
  specialize (IH refs1 acc1). cbn [fst] in Hstep. lra.
Qed.

(** X18.  After a tap has selected a face, the orbit controls' end-of-gesture
    callback does not copy the orbit into the Leva store for 1100 ms,
    whatever pointer events arrive in between. *)
Theorem orbit_sync_suppressed (g sync : bool) (sc : Interaction) (t1 : R)
    (e1 : PointerEvent) (st1 : State) (refs0 refs1 : GestureRefs)
    (f : Object3D) (inputs : list PointerInput) (now : R) (st : State) :
  pointerUpTap g sc t1 e1 st1 refs0 = (refs1, Some f) ->
  now < t1 + 1100 ->
  orbitEndSync g sync now st (runGesture g sc inputs refs1).1 = None.
Proof.
  intros Hemit Hsoon.
  destruct (pointerUpTap_emits _ _ _ _ _ _ _ _ Hemit)
    as (_ & _ & _ & (_ & _ & Hs)).
  pose proof (runGesture_suppress g sc inputs refs1 []) as Hmono.
  fold (runGesture g sc inputs refs1) in Hmono.
  assert (Hlate : now < suppressOrbitSyncUntilRef (runGesture g sc inputs refs1).1).
  { rewrite Hs in Hmono.
    destruct (Math_max_spec (suppressOrbitSyncUntilRef refs0) (t1 + 1100))
      as [[? Hm] | [? Hm]]; rewrite Hm in Hmono; lra. }
  unfold orbitEndSync. destruct g; [done | ]. destruct sync; [ | done].
  cbn [negb]. destruct (controlsRef (world st)); [ | done].
  destruct (cameraAnimLockRef st); [done | ].
  apply ltb_true in Hlate. by rewrite Hlate.
Qed.

Lemma orbit_sync_suppressed_witness :
  exists refs',
    pointerUpTap false Example.scene 5120 GestureExample.release Example.ready
      GestureExample.pressed = (refs', Some Example.faceA)
    /\ orbitEndSync false true 6000 Example.ready
         (runGesture false Example.scene [PointerMove GestureExample.stray]
            refs').1
       = None.
Proof.
  destruct example_release_selects as [refs' Hemit].
  exists refs'. split; [exact Hemit | ].
  apply (orbit_sync_suppressed false true Example.scene 5120
           GestureExample.release Example.ready GestureExample.pressed refs'
           Example.faceA [PointerMove GestureExample.stray] 6000 Example.ready
           Hemit).
  lra.
Defined.

Lemma moves_run g sc ms : forall refs acc,
  exists refs',
    foldl (gestureStep g sc) (refs, acc) (PointerMove <$> ms) = (refs', acc)
    /\ down_active (pointerDownRef refs') = down_active (pointerDownRef refs)
    /\ down_pointerId (pointerDownRef refs') = down_pointerId (pointerDownRef refs)
    /\ down_x (pointerDownRef refs') = down_x (pointerDownRef refs)
    /\ down_y (pointerDownRef refs') = down_y (pointerDownRef refs)
    /\ maxFromStart (pointerDownRef refs) <= maxFromStart (pointerDownRef refs').
Proof.
  induction ms as [ | m ms IH]; intros refs acc.
  - exists refs. repeat split; first [done | lra].
  - cbn [fmap list_fmap foldl gestureStep fst snd].
    destruct (IH (onModelPointerMove m refs) acc)
      as (refs' & Hrun & Ha & Hp & Hx & Hy & Hm).
    destruct (onModelPointerMove_keeps m refs)
      as (Ha' & Hp' & Hx' & Hy' & _ & Hm' & _).
    exists refs'. rewrite Ha, Hp, Hx, Hy, Ha', Hp', Hx', Hy'.
    repeat split; first [done | lra].
Qed.

Lemma move_records m refs x0 y0 x y :
  down_active (pointerDownRef refs) = true ->
  samePointer (down_pointerId (pointerDownRef refs)) (ev_pointerId m) = true ->
  down_x (pointerDownRef refs) = Some x0 ->
  down_y (pointerDownRef refs) = Some y0 ->
  ev_clientX m = Finite x -> ev_clientY m = Finite y ->
  hypot (x - x0) (y - y0)
  <= maxFromStart (pointerDownRef (onModelPointerMove m refs)).
Proof.
  intros Ha Hp Hx0 Hy0 Hx Hy. unfold onModelPointerMove.
  rewrite Ha, Hp, Hx, Hy, Hx0, Hy0. cbn [negb finiteOf]. cbv zeta.
  unfold gtb.
  destruct (ltb (maxFromStart (pointerDownRef refs)) (hypot (x - x0) (y - y0)))
    eqn:Hgt.
  - cbn. lra.
  - apply ltb_false in Hgt. lra.
Qed.

(** X16.  A press that strays is not a tap: when any pointer move between the
    press and the release was farther from the press than the drag
    threshold, the release selects nothing, even if the pointer has come
    back to where it was pressed. *)
Theorem drag_cancels_tap (g : bool) (sc : Interaction) (t0 : R)
    (e0 : PointerEvent) (w0 : World) (refs0 : GestureRefs)
    (before after : list PointerEvent) (m : PointerEvent) (now : R)
    (e : PointerEvent) (st : State) (x0 y0 x y : R) :
  secondaryTouch e0 = false ->
  orZero (ev_clientX e0) = Some x0 -> orZero (ev_clientY e0) = Some y0 ->
  ev_clientX m = Finite x -> ev_clientY m = Finite y ->
  samePointer (ev_pointerId e0) (ev_pointerId m) = true ->
  dragThreshold e < hypot (x - x0) (y - y0) ->
  is_Some (finiteOf (ev_clientX e)) -> is_Some (finiteOf (ev_clientY e)) ->
  samePointer (ev_pointerId e0) (ev_pointerId e) = true ->
  (runGesture g sc
     (PointerDownAt t0 e0 w0
      :: (PointerMove <$> before ++ m :: after) ++ [PointerUpAt now e st])
     refs0).2 = [].
Proof.
  intros Hprimary Hx0 Hy0 Hx Hy Hpm Hfar [ex Hex] [ey Hey] Hpe.
  unfold runGesture. cbn [foldl gestureStep fst snd].
  rewrite foldl_app, fmap_app, foldl_app. cbn [fmap list_fmap foldl].
  destruct g.
  { destruct (moves_run true sc before
                (onModelPointerDown true t0 e0 w0 refs0) [])
      as (r1 & -> & _).
    cbn [gestureStep fst snd].
    destruct (moves_run true sc after (onModelPointerMove m r1) [])
      as (r2 & -> & _).
    by cbn [gestureStep fst snd pointerUpTap]. }
  set (pressed := onModelPointerDown false t0 e0 w0 refs0).
  assert (Hpressed : down_active (pointerDownRef pressed) = true
                     /\ down_pointerId (pointerDownRef pressed) = ev_pointerId e0
                     /\ down_x (pointerDownRef pressed) = Some x0
                     /\ down_y (pointerDownRef pressed) = Some y0).
  { unfold pressed, onModelPointerDown. rewrite Hprimary. cbn.
    by rewrite Hx0, Hy0. }
  destruct Hpressed as (Ha & Hp & Hdx & Hdy).
  destruct (moves_run false sc before pressed [])
    as (r1 & -> & Ha1 & Hp1 & Hx1 & Hy1 & _).
  cbn [gestureStep fst snd].
  rewrite Ha in Ha1. rewrite Hp in Hp1. rewrite Hdx in Hx1. rewrite Hdy in Hy1.
  assert (Hrec := move_records m r1 x0 y0 x y Ha1
                    ltac:(by rewrite Hp1) Hx1 Hy1 Hx Hy).
  destruct (onModelPointerMove_keeps m r1) as (Ha2 & Hp2 & Hx2 & Hy2 & _).
  destruct (moves_run false sc after (onModelPointerMove m r1) [])
    as (r2 & -> & Ha3 & Hp3 & Hx3 & Hy3 & Hm3).
  cbn [gestureStep fst snd].
  destruct (pointerUpTap false sc now e st r2) as [r3 [face | ]] eqn:Hup;
    [ | done].
  destruct (pointerUpTap_emits _ _ _ _ _ _ _ _ Hup)
    as (_ & (_ & _ & Hdrag & _) & _).
  unfold dragged in Hdrag.
  rewrite Hx3, Hx2, Hx1, Hy3, Hy2, Hy1, Hex, Hey, Hp3, Hp2, Hp1, Hpe in Hdrag.
  cbn [andb] in Hdrag. apply ltb_false in Hdrag.
  destruct (Math_max_spec (hypot (ex - x0) (ey - y0))
              (maxFromStart (pointerDownRef r2))) as [[? Hmax] | [? Hmax]];
    rewrite Hmax in Hdrag; lra.
Qed.

Lemma drag_cancels_tap_witness :
  (runGesture false Example.scene
     [PointerDownAt 5000 GestureExample.press (world Example.ready);
      PointerMove GestureExample.stray;
      PointerUpAt 5120 GestureExample.release Example.ready]
     initialRefs).2 = [].
Proof.
  apply (drag_cancels_tap false Example.scene 5000 GestureExample.press
           (world Example.ready) initialRefs [] [] GestureExample.stray 5120
           GestureExample.release Example.ready 100 100 130 100);
    try reflexivity; try (by eexists).
  pose proof (hypot_ge_abs (130 - 100) (100 - 100)) as Hge.
  rewrite Rabs_right in Hge by lra.
  change (dragThreshold GestureExample.release) with CLICK_DRAG_THRESHOLD_PX.
  unfold CLICK_DRAG_THRESHOLD_PX. lra.
Defined.

Lemma runGesture_keeps_lastTap g sc inputs : forall refs acc,
  Forall (fun i => isPointerUp i = false) inputs ->
  lastResolvedTapRef (foldl (gestureStep g sc) (refs, acc) inputs).1
  = lastResolvedTapRef refs.
Proof.
  induction inputs as [ | i inputs IH]; intros refs acc Hno; [done | ].
  apply Forall_cons in Hno as [Hi Hno]. cbn [foldl].
  destruct i as [now e w | e | now e st]; [ | | done];
    cbn [gestureStep fst snd]; rewrite IH by done.
  - by destruct (onModelPointerDown_keeps g now e w refs) as (_ & -> & _).
  - by destruct (onModelPointerMove_keeps e refs)
      as (_ & _ & _ & _ & _ & _ & _ & -> & _).
Qed.

(** X17.  Duplicate dispatches of one physical tap are dropped.  After a tap has
    selected a face, a release within 320 ms and 2 px of it does not select
    the same face again, and a mouse release within 800 ms of a touch tap
    selects nothing, whatever presses and moves came in between. *)
Theorem duplicate_tap_suppressed (g : bool) (sc : Interaction) (t1 : R)
    (e1 : PointerEvent) (st1 : State) (refs0 refs1 : GestureRefs)
    (f : Object3D) (inputs : list PointerInput) (t2 : R) (e2 : PointerEvent)
    (st2 : State) :
  pointerUpTap g sc t1 e1 st1 refs0 = (refs1, Some f) ->
  Forall (fun i => isPointerUp i = false) inputs ->
  let refs2 := (runGesture g sc inputs refs1).1 in
  (forall x1 y1 x2 y2 refs3 f2,
     ev_clientX e1 = Finite x1 -> ev_clientY e1 = Finite y1 ->
     ev_clientX e2 = Finite x2 -> ev_clientY e2 = Finite y2 ->
     hypot (x2 - x1) (y2 - y1) < 2 ->
     t2 - t1 < 320 ->
     uuid f <> "" ->
     pointerUpTap g sc t2 e2 st2 refs2 = (refs3, Some f2) ->
     uuid f2 <> uuid f)
  /\ (ev_pointerType e1 = "touch" ->
      ev_pointerType e2 = "mouse" \/ ev_pointerType e2 = "" ->
      t2 - t1 < 800 ->
      (pointerUpTap g sc t2 e2 st2 refs2).2 = None).
Proof.
  intros Hemit Hno refs2.
  destruct (pointerUpTap_emits _ _ _ _ _ _ _ _ Hemit)
    as (_ & _ & _ & (_ & Hlast & _)).
  assert (Hkept : lastResolvedTapRef refs2 = lastResolvedTapRef refs1)
    by (by apply runGesture_keeps_lastTap).
  rewrite Hlast in Hkept. split.
  - intros x1 y1 x2 y2 refs3 f2 Hx1 Hy1 Hx2 Hy2 Hnear Hsoon Hid Hagain Hsame.
    destruct (pointerUpTap_emits _ _ _ _ _ _ _ _ Hagain)
      as (_ & _ & (_ & Hdup & _) & _).
    rewrite Hkept in Hdup. unfold duplicateTap, sameFace, sameSpot in Hdup.
    cbn [tap_faceUuid tap_x tap_y tap_time] in Hdup.
    unfold faceUuidOf in Hdup. rewrite Hx1, Hy1, Hx2, Hy2 in Hdup.
    cbn [finiteOf] in Hdup.
    apply String.eqb_neq in Hid. rewrite Hid in Hdup.
    rewrite Hsame, Hid in Hdup. cbn [negb andb] in Hdup.
    rewrite String.eqb_refl in Hdup. cbn [andb] in Hdup.
    apply ltb_true in Hnear, Hsoon. by rewrite Hnear, Hsoon in Hdup.
  - intros Htouch Hmouse Hsoon.
    destruct (pointerUpTap g sc t2 e2 st2 refs2) as [refs3 [f2 | ]] eqn:Hagain;
      [ | done].
    destruct (pointerUpTap_emits _ _ _ _ _ _ _ _ Hagain)
      as (_ & _ & (_ & _ & Hmt) & _).
    rewrite Hkept in Hmt. unfold mouseAfterTouch in Hmt.
    cbn [tap_pointerType tap_time] in Hmt.
    assert (Htype1 : pointerTypeOf e1 = "touch")
      by (unfold pointerTypeOf; by rewrite Htouch).
    assert (Htype2 : pointerTypeOf e2 = "mouse")
      by (unfold pointerTypeOf; by destruct Hmouse as [-> | ->]).
    rewrite Htype1, Htype2 in Hmt. apply ltb_true in Hsoon.
    rewrite Hsoon in Hmt. cbn in Hmt.
    by rewrite bool_decide_eq_true_2 in Hmt.
Qed.

Lemma duplicate_tap_suppressed_witness :
  exists refs',
    pointerUpTap false Example.scene 5120 GestureExample.release Example.ready
      GestureExample.pressed = (refs', Some Example.faceA)
    /\ forall refs3 f2,
         pointerUpTap false Example.scene 5300 GestureExample.release
           Example.ready
           (runGesture false Example.scene
              [PointerDownAt 5200 GestureExample.press (world Example.ready)]
              refs').1 = (refs3, Some f2) ->
         uuid f2 <> uuid Example.faceA.
Proof.
  destruct example_release_selects as [refs' Hemit].
  exists refs'. split; [exact Hemit | ].
  intros refs3 f2.
  apply (proj1 (duplicate_tap_suppressed false Example.scene 5120
                  GestureExample.release Example.ready GestureExample.pressed
                  refs' Example.faceA
                  [PointerDownAt 5200 GestureExample.press (world Example.ready)]
                  5300 GestureExample.release Example.ready Hemit
                  ltac:(repeat constructor))
           100 100 100 100 refs3 f2);
    try reflexivity.
  - rewrite hypot_origin. lra.
  - lra.
  - done.
Defined.

(** ** The idle timer *)

Module IdleTimerFacts.
Import IdleTimer.

Lemma resetTimer_consistent tm :
  timerConsistent tm ->
  timerConsistent (resetTimer tm)
  /\ timer_active (resetTimer tm) = false
  /\ pendingTimeouts (resetTimer tm) = ∅
  /\ nextTimeoutId (resetTimer tm) = nextTimeoutId tm.
Proof.
  intros [Hfresh Hagree]. unfold resetTimer.
  destruct (timer_active tm) eqn:Hact; cbn [negb].
  - destruct Hagree as (id & due & Hid & Hpending).
    rewrite Hid. cbn. rewrite Hpending, delete_singleton_eq.
    split; [ | done]. split; [ | done].
    intros i [x Hx]. cbn in Hx. by rewrite lookup_empty in Hx.
  - split; [ | by rewrite Hact]. split; [done | by rewrite Hact].
Qed.

Lemma startTimer_idle now tm :
  timerConsistent tm ->
  timer_active tm = false ->
  timerConsistent (startTimer now tm)
  /\ timer_active (startTimer now tm) = true
  /\ timer_id (startTimer now tm) = Some (nextTimeoutId tm)
  /\ pendingTimeouts (startTimer now tm)
     = {[nextTimeoutId tm := now + IDLE_MS]}.
Proof.
  intros [Hfresh Hagree] Hact. rewrite Hact in Hagree.
  unfold startTimer. rewrite Hact. cbn. rewrite Hagree, insert_empty.
  split; [ | done]. split.
  - intros i Hi. cbn in Hi. apply lookup_singleton_is_Some in Hi. cbn. lia.
  - cbn. by exists (nextTimeoutId tm), (now + IDLE_MS).
Qed.

Lemma startTimer_consistent now tm :
  timerConsistent tm -> timerConsistent (startTimer now tm).
Proof.
  intros Hc. destruct (timer_active tm) eqn:Hact.
  - unfold startTimer. by rewrite Hact.
  - by apply startTimer_idle.
Qed.

Lemma onInteraction_consistent g now tm :
  timerConsistent tm -> timerConsistent (onInteraction g now tm).
Proof.
  intros Hc. unfold onInteraction. destruct g; [done | ].
  apply startTimer_consistent. by apply resetTimer_consistent.
Qed.

Lemma onInteraction_rearms now tm :
  timerConsistent tm ->
  timer_active (onInteraction false now tm) = true
  /\ timer_id (onInteraction false now tm) = Some (nextTimeoutId tm)
  /\ pendingTimeouts (onInteraction false now tm)
     = {[nextTimeoutId tm := now + IDLE_MS]}.
Proof.
  intros Hc. unfold onInteraction.
  destruct (resetTimer_consistent tm Hc) as (Hc' & Hoff & _ & Hnext).
  destruct (startTimer_idle now _ Hc' Hoff) as (_ & Hon & Hid & Hpending).
  rewrite Hnext in Hid, Hpending. done.
Qed.

Lemma runTimeout_consistent vals sc now id tm st :
  timerConsistent tm ->
  timerConsistent (runTimeout vals sc now id (tm, st)).1.
Proof.
  intros [Hfresh Hagree]. unfold runTimeout.
  destruct (pendingTimeouts tm !! id) as [due | ] eqn:Hdue; [ | done].
  destruct (JsMath.leb due now); [ | done]. cbn.
  assert (Hone : pendingTimeouts tm = {[id := due]}).
  { destruct (timer_active tm).
    - destruct Hagree as (i & d & _ & Hp). rewrite Hp in Hdue |- *.
      apply lookup_singleton_Some in Hdue as [-> ->]. done.
    - rewrite Hagree in Hdue. by rewrite lookup_empty in Hdue. }
  split; cbn.
  - intros i [x Hx]. rewrite Hone, delete_singleton_eq in Hx.
    by rewrite lookup_empty in Hx.
  - by rewrite Hone, delete_singleton_eq.
Qed.

End IdleTimerFacts.

Import IdleTimer IdleTimerFacts.

(** X20.  The idle timer never has more than one countdown pending.  The flag of
    [timerRef] and the browser's timeout table agree at the start and after
    each of [resetTimer], [startTimer], [onInteraction], the timeout callback
    and [handlePanelClose]: armed means exactly the one timeout the ref
    names, idle means none. *)
Theorem idle_timer_single_countdown (vals : Values) (sc : Interaction)
    (now : R) (tm : Timer) (st : State) :
  timerConsistent initialTimer
  /\ (timerConsistent tm ->
      timerConsistent (resetTimer tm)
      /\ timerConsistent (startTimer now tm)
      /\ (forall g, timerConsistent (onInteraction g now tm))
      /\ (forall id, timerConsistent (runTimeout vals sc now id (tm, st)).1)
      /\ (forall d g,
            timerConsistent (handlePanelClose d g vals sc now (tm, st)).1)).
Proof.
  split.
  - split; [ | done]. intros id [x Hx]. cbn in Hx.
    by rewrite lookup_empty in Hx.
  - intros Hc. split; [by apply resetTimer_consistent | ].
    split; [by apply startTimer_consistent | ].
    split; [intros g; by apply onInteraction_consistent | ].
    split; [intros id; by apply runTimeout_consistent | ].
    intros d g. unfold handlePanelClose. destruct d; [done | ].
    cbn [fst]. by apply onInteraction_consistent.
Qed.

(** X21.  An interaction restarts the idle countdown.  Outside the guided demos
    [onInteraction] leaves exactly one timeout pending, due 30 s later,
    under an id no earlier timeout had.  Run before it is due, or under an
    earlier id, the timeout callback does nothing; run when due it performs
    [returnToDefault] and leaves the timer idle with nothing pending. *)
Theorem idle_countdown_restarts (vals : Values) (sc : Interaction)
    (now : R) (tm : Timer) (st : State) :
  timerConsistent tm ->
  let tm' := onInteraction false now tm in
  let id := nextTimeoutId tm in
  pendingTimeouts tm' = {[id := now + IDLE_MS]}
  /\ timer_active tm' = true
  /\ pendingTimeouts tm !! id = None
  /\ (forall t old,
        t < now + IDLE_MS \/ old <> id ->
        runTimeout vals sc t old (tm', st) = (tm', st))
  /\ (forall t,
        now + IDLE_MS <= t ->
        let s := runTimeout vals sc t id (tm', st) in
        s.2 = SelectionMachine.returnToDefault vals sc t st
        /\ timer_active s.1 = false
        /\ pendingTimeouts s.1 = ∅).
Proof.
  intros Hc tm' id.
  destruct (onInteraction_rearms now tm Hc) as (Hon & Hid & Hpending).
  fold tm' in Hon, Hid, Hpending. fold id in Hid, Hpending.
  split; [done | ]. split; [done | ]. split.
  - destruct (pendingTimeouts tm !! id) as [x | ] eqn:Hx; [ | done].
    destruct Hc as [Hfresh _]. specialize (Hfresh id ltac:(by eexists)).
    unfold id in Hfresh. lia.
  - split.
    + intros t old Hcase. unfold runTimeout. rewrite Hpending.
      destruct (decide (old = id)) as [-> | Hne].
      * rewrite lookup_singleton_eq.
        destruct Hcase as [Hearly | ?]; [ | done].
        assert (Hnot : JsMath.leb (now + IDLE_MS) t = false)
          by (apply leb_false; lra).
        by rewrite Hnot.
      * by rewrite lookup_singleton_ne.
    + intros t Hdue. cbv zeta. unfold runTimeout. rewrite Hpending.
      rewrite lookup_singleton_eq.
      assert (Hyes : JsMath.leb (now + IDLE_MS) t = true)
        by (by apply leb_true).
      rewrite Hyes. cbn. by rewrite delete_singleton_eq.
Qed.

Lemma idle_countdown_restarts_witness :
  pendingTimeouts (onInteraction false 5120 initialTimer)
  = {[1%nat := 5120 + IDLE_MS]}.
Proof.
  apply (idle_countdown_restarts Example.vals Example.scene 5120 initialTimer
           Example.ready).
  split; [ | done]. intros id [x Hx]. cbn in Hx.
  by rewrite lookup_empty in Hx.
Defined.

(** X19.  The pointer-up handler, whole.  A pointer-up that selects nothing leaves
    the selection state and the idle timer as they were.  One that selects
    passes a known face to [applyFaceSelection] with the home reset allowed
    and no distance override, and restarts the idle countdown from the tap. *)
Theorem pointer_up_effect (g : bool) (three : Three) (vals : Values)
    (sc : Interaction) (now : R) (e : PointerEvent) (refs : GestureRefs)
    (tm : Timer) (st : State) :
  timerConsistent tm ->
  let s := onModelPointerUp g three vals sc now e (refs, tm, st) in
  (s.1.2 = tm /\ s.2 = st
   /\ (pointerUpTap g sc now e st refs).2 = None)
  \/ exists face,
       (pointerUpTap g sc now e st refs).2 = Some face
       /\ Gesture.isKnownFace sc face = true
       /\ s.2 = SelectionMachine.applyFaceSelection three vals sc now
                  (Some face) true None st
       /\ pendingTimeouts s.1.2 = {[nextTimeoutId tm := now + IDLE_MS]}.
Proof.
  intros Hc. cbv zeta. unfold onModelPointerUp.
  destruct (pointerUpTap g sc now e st refs) as [refs' [face | ]] eqn:Hup.
  - right. exists face. cbn [fst snd].
    destruct (pointerUpTap_emits _ _ _ _ _ _ _ _ Hup)
      as ((Hg & _) & _ & (Hface & _) & _).
    subst g. split; [done | ].
    split; [by eapply resolvedFace_known | ]. split; [done | ].
    by destruct (onInteraction_rearms now tm Hc) as (_ & _ & ->).
  - left. by cbn [fst snd].
Qed.

Lemma pointer_up_effect_witness :
  exists face,
    (pointerUpTap false Example.scene 5120 GestureExample.release
       Example.ready GestureExample.pressed).2 = Some face
    /\ (onModelPointerUp false Example.three Example.vals Example.scene 5120
          GestureExample.release
          (GestureExample.pressed, initialTimer, Example.ready)).2
       = SelectionMachine.applyFaceSelection Example.three Example.vals
           Example.scene 5120 (Some face) true None Example.ready.
Proof.
  assert (Hc : timerConsistent initialTimer).
  { split; [ | done]. intros id [x Hx]. cbn in Hx.
    by rewrite lookup_empty in Hx. }
  destruct (pointer_up_effect false Example.three Example.vals Example.scene
              5120 GestureExample.release GestureExample.pressed initialTimer
              Example.ready Hc) as [(_ & _ & Hnone) | (face & Hsome & _ & Hst & _)].
  - destruct example_release_selects as [refs' Hemit].
    rewrite Hemit in Hnone. discriminate.
  - exists face. by split.
Defined.

(** ** Side panels *)

Module PanelFacts.
Import Panels.

Lemma getContentForFace_keeps face store u slot :
  panelContentRef store !! u = Some slot ->
  panelContentRef (getContentForFace face store).2 !! u = Some slot.
Proof.
  intros Hu. unfold getContentForFace. destruct face as [face | ]; [ | done].
  destruct (panelContentRef store !! uuid face) as [s | ] eqn:Hs; [done | ].
  cbn. rewrite lookup_insert_ne; [done | ]. by intros <-; rewrite Hs in Hu.
Qed.

Lemma getContentForFace_known face store slot :
  panelContentRef store !! uuid face = Some slot ->
  getContentForFace (Some face) store = (contentAt slot, store).
Proof. intros Hs. unfold getContentForFace. by rewrite Hs. Qed.

Lemma mod4_lt n : (n mod 4 < 4)%nat.
Proof. apply Nat.mod_upper_bound. lia. Qed.

Lemma getContentForFace_range face store :
  storeInRange store -> storeInRange (getContentForFace face store).2.
Proof.
  intros [Hslot Hmap]. unfold getContentForFace.
  destruct face as [face | ]; [ | done].
  destruct (panelContentRef store !! uuid face) as [s | ] eqn:Hs; [done | ].
  split; cbn [snd panelSlotRef panelContentRef].
  - exact (mod4_lt (panelSlotRef store + 1)).
  - intros u slot Hu. destruct (decide (u = uuid face)) as [-> | Hne].
    + rewrite lookup_insert_eq in Hu. injection Hu as <-.
      exact (mod4_lt (panelSlotRef store)).
    + rewrite lookup_insert_ne in Hu by done. by eapply Hmap.
Qed.

Lemma contentAt_inj a b :
  (a < 4)%nat -> (b < 4)%nat -> contentAt a = contentAt b -> a = b.
Proof.
  intros Ha Hb.
  destruct a as [ | [ | [ | [ | a]]]]; [ | | | | lia];
    destruct b as [ | [ | [ | [ | b]]]]; try lia; by cbn.
Qed.

End PanelFacts.

Import Panels PanelFacts.

(** X22.  The content of a face's panel is assigned once and for all, in
    rotation.  [getContentForFace] returns one of the four reels; the face
    keeps that reel whatever other faces are looked up afterwards; and the
    next face that is new to the store gets a different reel. *)
Theorem panel_content_stable (face : Object3D) (store : PanelStore) :
  storeInRange store ->
  let r := getContentForFace (Some face) store in
  storeInRange r.2
  /\ r.1 ∈ PANEL_CONTENT
  /\ (forall others,
        let later := foldl (fun s f => (getContentForFace f s).2) r.2 others in
        (getContentForFace (Some face) later).1 = r.1
        /\ storeInRange later)
  /\ (forall other,
        panelContentRef store !! uuid face = None ->
        panelContentRef r.2 !! uuid other = None ->
        (getContentForFace (Some other) r.2).1 <> r.1).
Proof.
  intros Hrange r.
  assert (Hnext : storeInRange r.2) by (by apply getContentForFace_range).
  assert (Hslot : exists slot,
             (slot < 4)%nat /\ r.1 = contentAt slot
             /\ panelContentRef r.2 !! uuid face = Some slot
             /\ (panelContentRef store !! uuid face = None ->
                 slot = panelSlotRef store
                 /\ panelSlotRef r.2 = ((slot + 1) mod 4)%nat)).
  { unfold r, getContentForFace. destruct Hrange as [Hs Hmap].
    destruct (panelContentRef store !! uuid face) as [s | ] eqn:Hface.
    - exists s. split; [by eapply Hmap | ]. by repeat split.
    - exists (panelSlotRef store). cbn [fst snd panelContentRef panelSlotRef].
      cbn [length PANEL_CONTENT] in Hs |- *.
      rewrite (Nat.mod_small _ 4) by done.
      split; [done | ]. split; [done | ].
      split; [by rewrite lookup_insert_eq | done]. }
  destruct Hslot as (slot & Hlt & Hcontent & Hkept & Hfresh).
  split; [done | ]. split; [ | split].
  - rewrite Hcontent. unfold contentAt.
    destruct (PANEL_CONTENT !! slot) as [c | ] eqn:Hc.
    + cbn [default]. by eapply list_elem_of_lookup_2.
    + apply lookup_ge_None in Hc. cbn in Hc. lia.
  - intros others. cbv zeta.
    assert (Hrun : forall l s,
              storeInRange s ->
              panelContentRef s !! uuid face = Some slot ->
              let s' := foldl (fun s f => (getContentForFace f s).2) s l in
              storeInRange s'
              /\ panelContentRef s' !! uuid face = Some slot).
    { induction l as [ | f l IH]; intros s Hs Hm; [done | ].
      cbn [foldl]. apply IH;
        [by apply getContentForFace_range | by apply getContentForFace_keeps]. }
    destruct (Hrun others r.2 Hnext Hkept) as [Hr Hm].
    split; [ | done]. by rewrite (getContentForFace_known _ _ _ Hm), Hcontent.
  - intros other Hnew Hother. destruct (Hfresh Hnew) as [-> Hnextslot].
    unfold getContentForFace at 1. rewrite Hother. cbn [fst].
    rewrite Hnextslot, Hcontent. cbn [length PANEL_CONTENT].
    intros Heq. apply contentAt_inj in Heq; [ | | done].
    + rewrite Nat.Div0.mod_mod in Heq.
      destruct (panelSlotRef store) as [ | [ | [ | [ | n]]]]; cbn in Heq; lia.
    + apply Nat.mod_upper_bound. done.
Qed.

Lemma panel_content_stable_witness :
  (getContentForFace (Some Example.faceA)
     (foldl (fun s f => (getContentForFace f s).2)
        (getContentForFace (Some Example.faceA) initialStore).2
        [Some Example.faceX; Some Example.homeFace])).1
  = (getContentForFace (Some Example.faceA) initialStore).1.
Proof.
  apply (panel_content_stable Example.faceA initialStore).
  split; [cbn; lia | ]. intros u slot Hu. cbn in Hu.
  by rewrite lookup_empty in Hu.
Defined.

(** X23.  The two panels never show the same face, and the minimized panel never
    stands alone.  The property holds at the start and is kept by
    [focusPanelForFace], [swapPanels] and [clearPanels]; under it
    [SidePanel] shows the stored primary and secondary panels in their own
    places. *)
Theorem panels_well_formed (dateNow : R) (face : option Object3D)
    (store : PanelStore) (ps : PanelState) :
  panelsWellFormed initialPanels
  /\ (panelsWellFormed ps ->
      panelsWellFormed (focusPanelForFace dateNow face (store, ps)).2
      /\ panelsWellFormed (swapPanels ps)
      /\ panelsWellFormed (clearPanels ps)
      /\ shownPrimary ps = primary ps
      /\ shownSecondary ps = secondary ps).
Proof.
  split; [done | ]. intros Hwf. pose proof Hwf as Hwf0.
  unfold panelsWellFormed in Hwf.
  split; [ | split; [ | split; [done | ]]].
  - unfold focusPanelForFace, buildPanelData. cbn [fst snd].
    destruct (getContentForFace face store) as [content store'].
    cbn [snd]. destruct (primary ps) as [p | ] eqn:Hp; [ | done].
    case_bool_decide as Hsame; [exact Hwf0 | ].
    unfold panelsWellFormed. cbn. eexists. split; [done | ].
    cbn. by intros Heq.
  - unfold swapPanels, panelsWellFormed.
    destruct (primary ps) as [p | ] eqn:Hp;
      destruct (secondary ps) as [s | ] eqn:Hs; rewrite ?Hp, ?Hs; try done.
    cbn. destruct Hwf as (p' & [= <-] & Hne). exists s. by split.
  - unfold shownPrimary, shownSecondary, visiblePanels.
    destruct (primary ps) as [p | ] eqn:Hp;
      destruct (secondary ps) as [s | ] eqn:Hs; try done.
    by destruct Hwf as (p' & [=] & _).
Qed.

Lemma panels_well_formed_witness :
  panelsWellFormed
    (focusPanelForFace 0 (Some Example.faceX)
       (focusPanelForFace 0 (Some Example.faceA)
          (initialStore, initialPanels))).2.
Proof.
  assert (H0 : panelsWellFormed initialPanels)
    by exact (proj1 (panels_well_formed 0 None initialStore initialPanels)).
  assert (H1 : panelsWellFormed
                 (focusPanelForFace 0 (Some Example.faceA)
                    (initialStore, initialPanels)).2)
    by exact (proj1 (proj2 (panels_well_formed 0 (Some Example.faceA)
                              initialStore initialPanels) H0)).
  destruct (focusPanelForFace 0 (Some Example.faceA)
              (initialStore, initialPanels)) as [store1 ps1].
  exact (proj1 (proj2 (panels_well_formed 0 (Some Example.faceX) store1 ps1)
                  H1)).
Defined.

(** X24.  [focusPanelForFace] brings the face's panel to the front and minimizes
    the one it replaces; focusing the face that is already in front changes
    neither the panels nor the content store; [swapPanels] is its own
    inverse. *)
Theorem focus_panel_behaviour (dateNow dateNow' : R) (face : Object3D)
    (store : PanelStore) (ps : PanelState) :
  uuid face <> "" ->
  let r := focusPanelForFace dateNow (Some face) (store, ps) in
  panel_faceUuid <$> primary r.2 = Some (Some (uuid face))
  /\ (forall p,
        primary ps = Some p -> panel_faceUuid p <> Some (uuid face) ->
        secondary r.2 = Some p)
  /\ focusPanelForFace dateNow' (Some face) r = r
  /\ swapPanels (swapPanels ps) = ps.
Proof.
  intros Hid r.
  assert (Hu : faceUuid (Some face) = Some (uuid face)).
  { unfold faceUuid. apply String.eqb_neq in Hid. by rewrite Hid. }
  assert (Hfront : panel_faceUuid <$> primary r.2 = Some (Some (uuid face))).
  { unfold r, focusPanelForFace, buildPanelData. cbn [fst snd].
    destruct (getContentForFace (Some face) store) as [content store'].
    rewrite Hu. cbn [snd].
    destruct (primary ps) as [p | ] eqn:Hp; [ | done].
    case_bool_decide as Hsame; [ | done].
    cbn in Hsame. by rewrite Hp; cbn; rewrite Hsame. }
  split; [exact Hfront | ]. split; [ | split].
  - intros p Hp Hother. unfold r, focusPanelForFace, buildPanelData.
    cbn [fst snd].
    destruct (getContentForFace (Some face) store) as [content store'].
    rewrite Hu, Hp. cbn [snd].
    case_bool_decide as Hsame; [by cbn in Hsame | done].
  - assert (Hmemo : exists slot,
              panelContentRef r.1 !! uuid face = Some slot).
    { unfold r, focusPanelForFace, buildPanelData, getContentForFace.
      cbn [fst snd].
      destruct (panelContentRef store !! uuid face) as [s | ] eqn:Hs.
      - exists s. done.
      - eexists. cbn. by rewrite lookup_insert_eq. }
    destruct Hmemo as [slot Hslot].
    destruct r as [store1 ps1] eqn:Hr. cbn [fst snd] in *.
    unfold focusPanelForFace, buildPanelData. cbn [fst snd].
    rewrite (getContentForFace_known _ _ _ Hslot), Hu.
    destruct (primary ps1) as [p | ] eqn:Hp; [ | done].
    cbn in Hfront. injection Hfront as Hfront.
    by rewrite bool_decide_eq_true_2.
  - unfold swapPanels.
    destruct ps as [[p | ] [s | ]]; reflexivity.
Qed.

Lemma focus_panel_behaviour_witness :
  panel_faceUuid
  <$> primary (focusPanelForFace 0 (Some Example.faceA)
                 (initialStore, initialPanels)).2
  = Some (Some "u-mid1-f1").
Proof.
  apply (focus_panel_behaviour 0 0 Example.faceA initialStore initialPanels).
  done.
Defined.

(** ** The intro *)

Lemma frames_settled_center ts : forall st,
  center (anim st) = None ->
  center (anim (frames ts st)) = None
  /\ centerPositionX (world (frames ts st)) = centerPositionX (world st)
  /\ centerRotationY (world (frames ts st)) = centerRotationY (world st).
Proof.
  induction ts as [ | t ts IH]; intros st Hnone; [done | ].
  rewrite frames_cons.
  assert (Hnext : center (anim (frame t st)) = None)
    by (by rewrite frame_center, Hnone).
  destruct (IH _ Hnext) as (-> & -> & ->).
  pose proof (frame_centerObject t st) as Hobj. rewrite Hnone in Hobj.
  by injection Hobj as -> ->.
Qed.

Lemma center_settles ts : forall st tw,
  center (anim st) = Some tw ->
  0 < ce_dur tw ->
  Exists (fun t => ce_t0 tw + ce_dur tw <= t) ts ->
  center (anim (frames ts st)) = None
  /\ centerPositionX (world (frames ts st)) = ce_toX tw
  /\ centerRotationY (world (frames ts st)) = ce_toRotY tw.
Proof.
  induction ts as [ | t ts IH]; intros st tw Htw Hd Hex;
    [by apply Exists_nil in Hex | ].
  rewrite frames_cons.
  pose proof (frame_center t st) as Hnext.
  pose proof (frame_centerObject t st) as Hobj.
  rewrite Htw in Hnext, Hobj.
  destruct (finished (progress t (ce_t0 tw) (ce_dur tw))) eqn:Hfin.
  - apply finished_progress in Hfin. rewrite Hfin in Hobj.
    rewrite (proj2 (sampleCenter_ends tw)) in Hobj. injection Hobj as Hx Hr.
    destruct (frames_settled_center ts _ Hnext) as (-> & -> & ->). by split.
  - apply Exists_cons in Hex as [Hhead | Htail].
    + rewrite (progress_done _ _ _ Hd Hhead) in Hfin.
      by rewrite (proj2 (finished_iff 1)) in Hfin by lra.
    + by apply (IH _ _ Hnext Hd Htail).
Qed.

Module IntroFacts.
Import Intro.

Lemma prepareFaceForFade_center mesh w :
  centerPositionX (prepareFaceForFade mesh w) = centerPositionX w
  /\ centerRotationY (prepareFaceForFade mesh w) = centerRotationY w.
Proof.
  unfold prepareFaceForFade. destruct (material mesh); [ | done].
  by destruct (faceMaterials w !! uuid mesh).
Qed.

Lemma introFace_failed intro now faces :
  foldl (introFace intro now) None faces = None.
Proof. by induction faces. Qed.

(** What the face loop of the intro leaves: every face at opacity zero with
    a fade to one, and the rest of the state as it was. *)
Lemma intro_faces intro now faces : forall st,
  Forall (fun f => is_Some (material f)) faces ->
  exists st',
    foldl (introFace intro now) (Some st) faces = Some st'
    /\ (forall f, f ∈ faces ->
          opacity (anim st') !! uuid f
          = Some (mkOpacityTween 0 1 now (intro_faceMs intro))
          /\ exists m, faceMaterials (world st') !! uuid f = Some m
                       /\ mat_opacity m = 0)
    /\ center (anim st') = center (anim st)
    /\ centerPositionX (world st') = centerPositionX (world st)
    /\ centerRotationY (world st') = centerRotationY (world st).
Proof.
  induction faces as [ | y faces IH] using rev_ind; intros st Hmat.
  - exists st. split; [done | ]. split; [ | done].
    intros f Hf. by apply elem_of_nil in Hf.
  - apply Forall_app in Hmat as [Hfaces Hy].
    apply Forall_cons in Hy as [[my Hy] _].
    destruct (IH st Hfaces) as (st1 & Hrun & Hdone & Hc & Hx & Hr).
    rewrite foldl_app, Hrun. cbn [foldl introFace]. rewrite Hy.
    eexists. split; [reflexivity | ]. record_simpl.
    destruct (prepareFaceForFade_center y (world st1)) as [Hpx Hpr].
    split; [ | by rewrite Hc, Hpx, Hpr, Hx, Hr].
    assert (Hprep : is_Some (faceMaterials (prepareFaceForFade y (world st1))
                               !! uuid y))
      by (apply prepareFaceForFade_prepared; by rewrite Hy).
    intros f Hf. destruct (decide (uuid f = uuid y)) as [Heq | Hne].
    + rewrite Heq, lookup_insert_eq. split; [done | ].
      rewrite lookup_alter_eq. destruct Hprep as [m ->]. cbn. by eexists.
    + apply elem_of_app in Hf as [Hf | Hf];
        [ | apply list_elem_of_singleton in Hf; by subst].
      destruct (Hdone f Hf) as (Htw & m & Hm & Hzero).
      rewrite lookup_insert_ne by done. split; [done | ].
      rewrite lookup_alter_ne by done.
      rewrite prepareFaceForFade_keeps by (by rewrite Hm). by exists m.
Qed.

End IntroFacts.

Import Intro IntroFacts.

(** X25.  [playIntroNow] followed by the render loop.  With every face carrying a
    material, the intro hides all faces at once and parks the centre piece
    150 units to the side; once a frame has run at or after the longer of
    the two durations, every face is fully opaque again, the centre piece
    sits at its original position after the configured number of turns, and
    no intro tween is left. *)
Theorem intro_plays_out (intro : IntroSettings) (sc : Interaction)
    (now : R) (ts : list R) (st : State) :
  Forall (fun f => is_Some (material f)) (allFaceMeshes sc) ->
  0 < intro_faceMs intro -> 0 < intro_centerMs intro ->
  Exists (fun t => now + Rmax (intro_faceMs intro) (intro_centerMs intro) <= t)
    ts ->
  exists st1,
    playIntroNow true true intro sc now st = Some st1
    /\ (forall f, f ∈ allFaceMeshes sc -> opacityOf (world st1) f = 0)
    /\ centerPositionX (world st1) = CENTER_X + 150
    /\ (forall f, f ∈ allFaceMeshes sc ->
          opacityOf (world (frames ts st1)) f = 1
          /\ opacity (anim (frames ts st1)) !! uuid f = None)
    /\ centerPositionX (world (frames ts st1)) = CENTER_X
    /\ centerRotationY (world (frames ts st1))
       = CENTER_ROT_Y + intro_spinTurns intro * PI * 2
    /\ center (anim (frames ts st1)) = None.
Proof.
  intros Hmat Hface Hcenter Hex.
  destruct (intro_faces intro now (allFaceMeshes sc) st Hmat)
    as (st0 & Hrun & Hdone & _).
  unfold playIntroNow. cbn [negb]. rewrite Hrun.
  eexists. split; [reflexivity | ].
  set (st1 := with_anim _ _).
  assert (Hop : opacity (anim st1) = opacity (anim st0)) by reflexivity.
  assert (Hfm : faceMaterials (world st1) = faceMaterials (world st0))
    by reflexivity.
  pose proof (Rmax_l (intro_faceMs intro) (intro_centerMs intro)) as Hl.
  pose proof (Rmax_r (intro_faceMs intro) (intro_centerMs intro)) as Hr.
  split; [ | split; [reflexivity | split]].
  - intros f Hf. destruct (Hdone f Hf) as (_ & m & Hm & Hzero).
    unfold opacityOf. by rewrite Hfm, Hm.
  - intros f Hf. destruct (Hdone f Hf) as (Htw & m & Hm & _).
    rewrite <- Hop in Htw. rewrite <- Hfm in Hm.
    destruct (opacity_settles ts st1 _ _ m Htw Hm Hface) as [Hgone Hval].
    { apply (Exists_later _ _ _ Hex). cbn. lra. }
    unfold opacityOf. by rewrite Hval.
  - destruct (center_settles ts st1 _ eq_refl Hcenter) as (Hgone & Hx & Hrot).
    { apply (Exists_later _ _ _ Hex). cbn. lra. }
    by rewrite Hgone, Hx, Hrot.
Qed.

Lemma intro_plays_out_witness :
  exists st1,
    playIntroNow true true (mkIntroSettings true 3170 3200 0.92 8.3)
      Example.scene 0 Example.ready = Some st1
    /\ centerPositionX (world (frames [1000; 3300] st1)) = CENTER_X.
Proof.
  destruct (intro_plays_out (mkIntroSettings true 3170 3200 0.92 8.3)
              Example.scene 0 [1000; 3300] Example.ready)
    as (st1 & Hplay & _ & _ & _ & Hx & _).
  - repeat constructor; by eexists.
  - cbn. lra.
  - cbn. lra.
  - apply Exists_cons_tl, Exists_cons_hd. cbn.
    unfold Rmax. destruct (Rle_dec 3170 3200); lra.
  - by exists st1.
Defined.

(** X26.  The guards of [playIntroNow]: before the model is there it does
    nothing, and on a face list holding a face without a material it fails,
    whatever else the list holds. *)
Theorem playIntroNow_guards (centerFound : bool) (intro : IntroSettings)
    (sc : Interaction) (now : R) (st : State) :
  playIntroNow false centerFound intro sc now st = Some st
  /\ (Exists (fun f => material f = None) (allFaceMeshes sc) ->
      playIntroNow true centerFound intro sc now st = None).
Proof.
  split; [done | ]. intros Hbad. unfold playIntroNow. cbn [negb].
  assert (Hfail : forall faces acc,
            Exists (fun f => material f = None) faces ->
            foldl (introFace intro now) acc faces = None).
  { induction faces as [ | f faces IH]; intros acc Hex;
      [by apply Exists_nil in Hex | ].
    cbn [foldl]. apply Exists_cons in Hex as [Hf | Hrest].
    - unfold introFace at 2. destruct acc; rewrite ?Hf;
        apply introFace_failed.
    - by apply IH. }
  by rewrite Hfail.
Qed.

(** ** Frame pacing *)

Module FramePacerFacts.
Import FramePacer.

Lemma tick_step interval now then_ :
  0 < interval ->
  let r := tick interval now then_ in
  (r.2 = true <-> interval < now - then_)
  /\ (r.2 = false -> r.1 = then_)
  /\ (r.2 = true ->
      (exists k : Z, (1 <= k)%Z /\ r.1 = then_ + IZR k * interval)
      /\ 0 <= now - r.1 < interval).
Proof.
  intros Hi. cbv zeta. unfold tick, gtb.
  destruct (ltb interval (now - then_)) eqn:Hgt; cbn [fst snd].
  - apply ltb_true in Hgt. split; [done | ]. split; [done | ]. intros _.
    destruct (rem_bounds (now - then_) interval Hi) as [Hpos _].
    specialize (Hpos ltac:(lra)).
    destruct (rem_congr (now - then_) interval) as [k Hk].
    split; [ | lra]. exists k. split; [ | rewrite Hk; lra].
    assert (Hk0 : 0 < IZR k * interval) by lra.
    assert (Hkpos : 0 < IZR k) by nra.
    apply lt_IZR in Hkpos. lia.
  - apply ltb_false in Hgt. split; [ | done]. split; [done | lra].
Qed.

Lemma ticks_bound interval T nows : forall then_ n,
  0 < interval ->
  then_ <= T ->
  Forall (fun now => now <= T) nows ->
  let r := ticks interval nows (then_, n) in
  then_ <= r.1 <= T
  /\ (INR r.2 - INR n) * interval <= r.1 - then_.
Proof.
  induction nows as [ | now nows IH]; intros then_ n Hi HT Hnows; cbv zeta.
  - cbn. lra.
  - apply Forall_cons in Hnows as [Hnow Hnows]. cbn beta in Hnow.
    unfold ticks. cbn [foldl fst snd]. fold (ticks interval nows).
    destruct (tick_step interval now then_ Hi) as (_ & Hskip & Hrun).
    destruct (tick interval now then_) as [then' rendered].
    cbn [fst snd] in *. destruct rendered.
    + destruct (Hrun eq_refl) as [(k & Hk & Hthen) Hclose].
      apply IZR_le in Hk.
      assert (Hadv : then_ + interval <= then') by (rewrite Hthen; nra).
      assert (HT' : then' <= T) by lra.
      destruct (IH then' (S n) Hi HT' Hnows) as [Hr Hcount].
      unfold ticks in Hr, Hcount. rewrite S_INR in Hcount.
      split; [lra | ]. nra.
    + rewrite (Hskip eq_refl).
      destruct (IH then_ n Hi HT Hnows) as [Hr Hcount]. done.
Qed.

End FramePacerFacts.

Import FramePacer FramePacerFacts.

(** X27.  The frame pacer of the Wong Kar-wai effect.  A tick renders exactly when
    more than one interval has passed since [then]; a rendering tick moves
    [then] forward by a whole, positive number of intervals to within one
    interval of the clock, and any other tick leaves it alone.  So over any
    run of ticks up to a time [T], the frames rendered number at most
    [(T - then) / interval]: the long-run rate never exceeds the configured
    fps. *)
Theorem frame_pacing (interval : R) (then_ T : R) (nows : list R) :
  0 < interval ->
  (forall now,
     let r := tick interval now then_ in
     (r.2 = true <-> interval < now - then_)
     /\ (r.2 = false -> r.1 = then_)
     /\ (r.2 = true ->
         (exists k : Z, (1 <= k)%Z /\ r.1 = then_ + IZR k * interval)
         /\ 0 <= now - r.1 < interval))
  /\ (then_ <= T -> Forall (fun now => now <= T) nows ->
      INR (ticks interval nows (then_, 0%nat)).2 * interval <= T - then_).
Proof.
  intros Hi. split; [intros now; by apply tick_step | ].
  intros HT Hnows.
  destruct (ticks_bound interval T nows then_ 0 Hi HT Hnows) as [Hr Hcount].
  cbn [INR] in Hcount. lra.
Qed.

Lemma frame_pacing_witness :
  INR (ticks (intervalOf 15) [10; 70; 90; 140] (0, 0%nat)).2 * intervalOf 15
  <= 140 - 0.
Proof.
  apply (frame_pacing (intervalOf 15) 0 140 [10; 70; 90; 140]).
  - unfold intervalOf. lra.
  - lra.
  - repeat constructor; lra.
Defined.

(** ** Capturing the default pose *)



(** ** A selection, played out *)

Lemma scaleCubes_timing sc now cubeName st n cube :
  (n, cube) ∈ cubesByName sc ->
  exists tw,
    scale (anim (scaleCubes sc now cubeName st)) !! uuid cube = Some tw
    /\ sc_t0 tw = now /\ sc_dur tw = 260.
Proof.
  intros Hin. unfold scaleCubes.
  apply (foldl_establishes _
           (fun (e : string * Object3D) s =>
              exists tw, scale (anim s) !! uuid e.2 = Some tw
                         /\ sc_t0 tw = now /\ sc_dur tw = 260)
           (cubesByName sc)) with (x := (n, cube)); [ | | done].
  - intros s x _. case_bool_decide; eexists;
      by rewrite animateScale_lookup.
  - intros s x y _ _ (tw & Htw & Hrest).
    destruct (decide (uuid x.2 = uuid y.2)) as [Heq | Hne].
    + rewrite Heq. case_bool_decide; eexists;
        by rewrite animateScale_lookup.
    + exists tw. case_bool_decide; by rewrite animateScale_lookup_ne.
Qed.

Lemma focusFace_timing vals sc now clicked st face :
  face ∈ allFaceMeshes sc ->
  is_Some (material face) ->
  exists tw,
    opacity (anim (focusFace vals sc now clicked st)) !! uuid face = Some tw
    /\ op_t0 tw = now /\ op_dur tw = 250.
Proof.
  intros Hin Hm. unfold focusFace.
  apply (foldl_establishes _
           (fun f s =>
              is_Some (material f) ->
              exists tw, opacity (anim s) !! uuid f = Some tw
                         /\ op_t0 tw = now /\ op_dur tw = 250)
           (allFaceMeshes sc)); [ | | done | done].
  - intros s x _ Hx. cbv beta zeta.
    destruct (same_object x clicked); eexists;
      rewrite ?setFaceGlow_anim, ?removeFaceGlow_anim, animateOpacity_lookup
        by done;
      done.
  - intros s x y _ _ Hq Hx. destruct (Hq Hx) as (tw & Htw & Hrest).
    cbv beta zeta.
    assert (Hanim : forall s0 : State,
              anim (if same_object y clicked then setFaceGlow vals y s0
                    else removeFaceGlow y s0) = anim s0).
    { intros s0. destruct (same_object y clicked);
        [apply setFaceGlow_anim | apply removeFaceGlow_anim]. }
    rewrite Hanim.
    destruct (decide (uuid x = uuid y)) as [Heq | Hne].
    + destruct (material y) as [my | ] eqn:Hy.
      * eexists. rewrite Heq, animateOpacity_lookup by (by rewrite Hy). done.
      * unfold animateOpacity. rewrite Hy. by exists tw.
    + exists tw. by rewrite animateOpacity_lookup_ne.
Qed.

Lemma focusFace_rig vals sc now clicked st :
  cameraState (world (focusFace vals sc now clicked st)) = cameraState (world st)
  /\ controlsRef (world (focusFace vals sc now clicked st))
     = controlsRef (world st)
  /\ cameraAnimLockRef (focusFace vals sc now clicked st) = cameraAnimLockRef st.
Proof.
  unfold focusFace.
  set (P := fun s : State =>
              cameraState (world s) = cameraState (world st)
              /\ controlsRef (world s) = controlsRef (world st)
              /\ cameraAnimLockRef s = cameraAnimLockRef st).
  apply (foldl_preserves _ P); [ | done].
  intros s face _ (H1 & H2 & H3).
  unfold P, setFaceGlow, removeFaceGlow, animateOpacity.
  destruct (same_object face clicked); destruct (material face); record_simpl;
    rewrite ?(proj1 (prepareFaceForFade_camera _ _)),
            ?(proj2 (prepareFaceForFade_camera _ _)),
            ?prepareFaceForFade_id
      by (apply prepareFaceForFade_prepared; by eexists);
    rewrite ?(proj1 (prepareFaceForFade_camera _ _)),
            ?(proj2 (prepareFaceForFade_camera _ _)); done.
Qed.

(** A tap on a face of a block other than the selected one, played out by
    the render loop with the camera pass as it writes. *)
Lemma selection_settles_written (three : Three) (vals : Values) (sc : Interaction)
    (now : R) (clicked : Object3D) (allow : bool) (override : option R)
    (ts : list R) (st : State) (cubeName : string) :
  wfCubes sc ->
  findCubeName sc clicked = Some cubeName ->
  cubeName <> "" ->
  isHome cubeName = false ->
  hitsBodyMaterial sc (world st) clicked = false ->
  selectedCubeNameRef (selection st) <> Some cubeName ->
  Exists (fun t => now + 900 <= t) ts ->
  let st' :=
    frames ts
      (applyFaceSelection three vals sc now (Some clicked) allow override st) in
  Selected st' cubeName clicked
  /\ (forall n cube, (n, cube) ∈ cubesByName sc ->
        scaleOf (world st') cube
        = if bool_decide (n = cubeName) then SELECTED_CUBE_SCALE
          else DIMMED_CUBE_SCALE)
  /\ (forall face, face ∈ allFaceMeshes sc -> is_Some (material face) ->
        (uuid face = uuid clicked ->
         opacityOf (world st') face = 1 /\ emphasised vals (world st') face)
        /\ (uuid face <> uuid clicked ->
            opacityOf (world st') face = DIMMED_FACE_OPACITY
            /\ emphasisCleared (world st') face))
  /\ (is_Some (controlsRef (world st)) ->
      let pose :=
        getCameraPoseForMesh three vals sc (world st) clicked
          (Some (default (babylonClickDistance vals) override)) in
      c_polar (cameraState (world st')) = polar pose
      /\ c_distance (cameraState (world st')) = distance pose
      /\ c_fov (cameraState (world st')) = CLICK_INTERACTION_FOV
      /\ cameraAnimLockRef st' = false).
Proof.
  intros Hwf Hcube Hname Hhome Hbody Hother Hex st'.
  set (pose := getCameraPoseForMesh three vals sc (world st) clicked
                 (Some (default (babylonClickDistance vals) override))).
  set (st0 := animateCameraToPreset vals sc now pose 900
                (Some CLICK_INTERACTION_FOV) st).
  set (st1 := scaleCubes sc now cubeName st0).
  set (st2 := focusFace vals sc now clicked st1).
  assert (Hshape :
            applyFaceSelection three vals sc now (Some clicked) allow override st
            = with_selection
                (mkSelection (Some cubeName) (Some clicked) (Some cubeName) now)
                st2).
  { apply apply_block_switch; try done.
    - by rewrite Hhome, andb_false_r.
    - by rewrite bool_decide_eq_false_2, andb_false_r. }
  unfold st'. rewrite Hshape. clear st'.
  set (st3 := with_selection _ st2).
  destruct (frames_rest ts st3) as (Hsel & _ & Hbloom).
  split; [ | split; [ | split]].
  - unfold Selected. by rewrite Hsel.
  - intros n cube Hin.
    destruct (scaleCubes_timing sc now cubeName st0 n cube Hin)
      as (tw & Htw & Ht0 & Hdur).
    destruct (scaleCubes_targets sc now cubeName st0 n cube Hwf Hin)
      as (tw' & Htw' & _ & Hsel' & Hdim').
    fold st1 in Htw, Htw'. rewrite Htw in Htw'. injection Htw' as <-.
    assert (Hscale : scale (anim st3) !! uuid cube = Some tw)
      by (unfold st3, st2; record_simpl; by rewrite focusFace_scale).
    destruct (scale_settles ts st3 _ tw Hscale) as [_ Hval].
    { rewrite Hdur. lra. }
    { apply (Exists_later _ _ _ Hex). rewrite Ht0, Hdur. lra. }
    unfold scaleOf. rewrite Hval. cbn [default].
    case_bool_decide as Hn; [by destruct (Hsel' Hn) | by destruct (Hdim' Hn)].
  - intros face Hin Hm.
    destruct (focusFace_timing vals sc now clicked st1 face Hin Hm)
      as (tw & Htw & Ht0 & Hdur).
    fold st2 in Htw.
    assert (Hlate : Exists (fun t => op_t0 tw + op_dur tw <= t) ts).
    { apply (Exists_later _ _ _ Hex). rewrite Ht0, Hdur. lra. }
    assert (Hd : 0 < op_dur tw) by (rewrite Hdur; lra).
    destruct (focusFace_faces vals sc now clicked st1 face Hin Hm)
      as [Hlit Hdim].
    fold st2 in Hlit, Hdim.
    split; intros Hcase.
    + destruct (Hlit Hcase) as [(tw' & Htw' & Hto) [(m & Hmat & Hglow) Hin']].
      rewrite Htw in Htw'. injection Htw' as <-.
      destruct (opacity_settles ts st3 _ tw m Htw Hmat Hd Hlate) as [_ Hval].
      unfold opacityOf. rewrite Hval, Hto. split; [done | ].
      split; [ | by rewrite Hbloom]. eexists. by split; [exact Hval | ].
    + destruct (Hdim Hcase) as [(tw' & Htw' & Hto) [(m & Hmat & Hzero) Hout]].
      rewrite Htw in Htw'. injection Htw' as <-.
      destruct (opacity_settles ts st3 _ tw m Htw Hmat Hd Hlate) as [_ Hval].
      unfold opacityOf. rewrite Hval, Hto. split; [done | ].
      split; [ | by rewrite Hbloom]. eexists. by split; [exact Hval | ].
  - intros [c Hc]. cbv zeta.
    destruct (animateCameraToPreset_issue vals sc now pose 900
                (Some CLICK_INTERACTION_FOV) st c Hc)
      as (Htw & _ & c1 & Hc1 & _).
    fold st0 in Htw, Hc1.
    destruct (focusFace_rig vals sc now clicked st1) as (_ & Hctl & _).
    fold st2 in Hctl.
    assert (Htw3 : camera (anim st3) = camera (anim st0)).
    { unfold st3, st2, st1. record_simpl.
      by rewrite focusFace_camera, scaleCubes_camera. }
    assert (Hc3 : controlsRef (world st3) = Some c1).
    { unfold st3. record_simpl. rewrite Hctl. unfold st1.
      by rewrite scaleCubes_world. }
    rewrite Htw in Htw3.
    destruct (camera_settles ts st3 _ c1 _ _ Htw3 Hc3 eq_refl eq_refl
                ltac:(cbn; lra) Hex) as (_ & Hfree & Hstate & _).
    rewrite Hstate. by repeat split.
Qed.


(** ** The cube above a face, and the name-based pose *)

(** X29.  [findCubeName] returns the name of the nearest object on the way from
    the given object to the root, the object itself included, whose name is
    a registered cube, and nothing when there is none. *)
Theorem findCubeName_nearest (sc : Interaction) : forall obj : Object3D,
  findCubeName sc obj
  = name <$> List.find (fun a => hasCube sc (name a)) (ancestorChain obj).
Proof.
  fix IH 1. intros [u nm im mat p]. cbn [findCubeName ancestorChain List.find name].
  destruct (hasCube sc nm); [done | ].
  destruct p as [cur | ]; [apply IH | done].
Qed.

Lemma presetAngles_beta name :
  let beta := (presetAngles name).2 in
  beta = 1.5628 \/ beta = 1.5096 \/ beta = 1.5352 \/ beta = 1.5638
  \/ beta = PI - 0.5 \/ beta = 0.3.
Proof.
  cbv zeta. unfold presetAngles.
  destruct (String.get 1 name) as [[[ | ] [ | ] [ | ] [ | ] [ | ] [ | ] [ | ] [ | ]] | ];
    cbn [snd]; auto 7.
Qed.

(** X30.  [getCameraPoseForFace], the pose the solver falls back to.  Its azimuth
    lies in [[-PI, PI)], its distance is the profile's default distance, and
    it depends on the name through its second character only.  Its polar
    angle is not clamped: it is strictly between 0 and PI whenever the polar
    offset is between -0.3 and 0.5. *)
Theorem getCameraPoseForFace_pose (vals : Values) (name1 name2 : string) :
  let pose := getCameraPoseForFace vals name1 in
  - PI <= azimuth pose < PI
  /\ distance pose = defaultDistance vals
  /\ (String.get 1 name1 = String.get 1 name2 ->
      getCameraPoseForFace vals name2 = pose)
  /\ (- 0.3 < presetPolarOffset vals < 0.5 -> 0 < polar pose < PI).
Proof.
  cbv zeta. pose proof (presetAngles_beta name1) as Hbeta. cbv zeta in Hbeta.
  unfold getCameraPoseForFace.
  assert (Hsame : String.get 1 name1 = String.get 1 name2 ->
                  presetAngles name2 = presetAngles name1)
    by (intros Heq; unfold presetAngles; by rewrite Heq).
  destruct (presetAngles name1) as [alpha beta] eqn:Hp. cbn [snd] in Hbeta.
  cbn [azimuth polar distance].
  split; [apply normalizeAngleMinusPiToPi_range | ]. split; [done | ]. split.
  - intros Heq. by rewrite (Hsame Heq).
  - intros Hoff. pose proof PI2_3_2.
    destruct Hbeta as [-> | [-> | [-> | [-> | [-> | ->]]]]]; lra.
Qed.

(** ** The render loop with the orbit controls' update *)

Module OrbitFacts.
Import Orbit.

(** Case analysis on the comparisons of nested [Math.min] and [Math.max],
    innermost first. *)
Ltac cases_rle :=
  repeat match goal with
         | |- context [Rle_dec ?a ?b] =>
             lazymatch a with
             | context [Rle_dec _ _] => fail
             | _ =>
                 lazymatch b with
                 | context [Rle_dec _ _] => fail
                 | _ => destruct (Rle_dec a b)
                 end
             end
         end.

Lemma clamp_idem v lo hi : clamp (clamp v lo hi) lo hi = clamp v lo hi.
Proof.
  unfold clamp, Math_max, Math_min.
  cases_rle; lra.
Qed.

Lemma clamp_pinned v d : clamp v d d = d.
Proof.
  pose proof (clamp_bounds v d d ltac:(lra)). lra.
Qed.

Lemma clamp_inside v lo hi : lo <= v <= hi -> clamp v lo hi = v.
Proof.
  intros Hv. unfold clamp, Math_max, Math_min.
  cases_rle; lra.
Qed.

Lemma EPS_small : 0 < EPS /\ EPS < 1 / 2.
Proof.
  unfold EPS. split; [apply Rinv_0_lt_compat; lra | ].
  apply (Rmult_lt_reg_l 1000000); [lra | ].
  rewrite Rinv_r by lra. lra.
Qed.

Lemma polarWithin_bounds lim v : EPS <= polarWithin lim v <= PI - EPS.
Proof.
  unfold polarWithin. apply clamp_bounds.
  pose proof EPS_small. pose proof PI2_3_2. lra.
Qed.

Lemma clamp_below v lo hi : lo <= hi -> v <= lo -> clamp v lo hi = lo.
Proof.
  intros Hlh Hv. unfold clamp, Math_max, Math_min.
  cases_rle; lra.
Qed.

Lemma clamp_above v lo hi : lo <= hi -> hi <= v -> clamp v lo hi = hi.
Proof.
  intros Hlh Hv. unfold clamp, Math_max, Math_min.
  cases_rle; lra.
Qed.

(** A value that one pair of limits leaves alone and another pushes to its
    bound: the first pair does not push the bound further out. *)
Lemma clamp_bound_stays z a b lo hi :
  clamp z a b = z ->
  (z <= lo -> clamp lo a b <= lo) /\ (hi <= z -> hi <= clamp hi a b).
Proof.
  unfold clamp, Math_max, Math_min. split; revert H; cases_rle; lra.
Qed.

Lemma polarWithin_idem lim v :
  polarWithin lim (polarWithin lim v) = polarWithin lim v.
Proof.
  pose proof EPS_small as [He0 He]. pose proof PI2_3_2 as Hpi.
  unfold polarWithin.
  set (a := minPolarAngle lim). set (b := maxPolarAngle lim).
  pose proof (clamp_idem v a b) as Hz.
  set (z := clamp v a b) in *. clearbody z.
  destruct (clamp_bound_stays z a b EPS (PI - EPS) Hz) as [Hlow Hhigh].
  destruct (Rle_dec z EPS) as [Hle | Hgt].
  - rewrite (clamp_below z) by lra. apply clamp_below; [lra | by apply Hlow].
  - destruct (Rle_dec (PI - EPS) z) as [Hge | Hlt].
    + rewrite (clamp_above z) by lra. apply clamp_above; [lra | by apply Hhigh].
    + rewrite (clamp_inside z) by lra. rewrite Hz. apply clamp_inside. lra.
Qed.

(** A polar angle within limits that keep clear of the poles is left as it
    is. *)
Lemma polarWithin_inside lim v :
  EPS <= minPolarAngle lim -> maxPolarAngle lim <= PI - EPS ->
  minPolarAngle lim <= v <= maxPolarAngle lim ->
  polarWithin lim v = v.
Proof.
  intros Hlo Hhi Hv. unfold polarWithin.
  rewrite (clamp_inside v) by done. apply clamp_inside. lra.
Qed.

Lemma sameButRig_refl a : sameButRig a a.
Proof. by repeat split. Qed.

Lemma sameButRig_trans a b c :
  sameButRig a b -> sameButRig b c -> sameButRig a c.
Proof.
  intros (H1 & H2 & H3 & H4 & H5 & H6 & H7 & H8)
         (G1 & G2 & G3 & G4 & G5 & G6 & G7 & G8).
  repeat split; congruence.
Qed.

Lemma stepCameraUpdated_same lim now st :
  sameButRig (stepCameraUpdated lim now st) (stepCamera now st).
Proof.
  unfold stepCameraUpdated, Animator.stepCamera, updated.
  destruct (camera (anim st)) as [tw | ]; [ | apply sameButRig_refl].
  cbv zeta. record_simpl.
  destruct (finished (progress now (cam_t0 tw) (cam_dur tw)));
    destruct (controlsRef (world st)) as [c | ]; record_simpl; cbn;
    record_simpl; by repeat split.
Qed.

Lemma anim_eq (x y : Anim) :
  opacity x = opacity y -> scale x = scale y -> camera x = camera y ->
  center x = center y -> x = y.
Proof. destruct x, y. cbn. by intros -> -> -> ->. Qed.

Lemma frame_respects now a b :
  sameButRig a b -> sameButRig (frame now a) (frame now b).
Proof.
  intros (Hsel & Hanim & Hfm & Hbl & Hos & Hx & Hr & Hd).
  destruct (frame_rest now a) as (Ha1 & Ha2 & Ha3).
  destruct (frame_rest now b) as (Hb1 & Hb2 & Hb3).
  pose proof (frame_centerObject now a) as Hca.
  pose proof (frame_centerObject now b) as Hcb.
  rewrite Hanim, Hx, Hr, <- Hcb in Hca. injection Hca as Hcx Hcr.
  split; [congruence | ]. split.
  - apply anim_eq.
    + by rewrite !frame_opacity, Hanim.
    + by rewrite !frame_scale, Hanim.
    + by rewrite !frame_camera, Hanim.
    + by rewrite !frame_center, Hanim.
  - split; [by rewrite !frame_faceMaterials, Hanim, Hfm | ].
    split; [congruence | ].
    split; [by rewrite !frame_objectScale, Hanim, Hos | ].
    split; [done | ]. split; [done | congruence].
Qed.

Lemma frameUpdated_same lim now a b :
  sameButRig a b -> sameButRig (frameUpdated lim now a) (frame now b).
Proof.
  intros Hab. apply (sameButRig_trans _ (frame now a)).
  - apply stepCameraUpdated_same.
  - by apply frame_respects.
Qed.

Lemma framesUpdated_same lim ts : forall a b,
  sameButRig a b -> sameButRig (framesUpdated lim ts a) (frames ts b).
Proof.
  induction ts as [ | t ts IH]; intros a b Hab; [done | ].
  cbn [framesUpdated frames foldl]. apply IH. by apply frameUpdated_same.
Qed.

(** What the first three passes of a frame leave of the camera rig. *)
Lemma early_passes_rig now st :
  let s := stepCenter now (stepScale now (stepOpacity now st)) in
  camera (anim s) = camera (anim st)
  /\ cameraState (world s) = cameraState (world st)
  /\ controlsRef (world s) = controlsRef (world st)
  /\ cameraAnimLockRef s = cameraAnimLockRef st.
Proof.
  cbv zeta. split; [ | split; [ | split; [ | apply early_passes_lock]]].
  - destruct (stepCenter_frame now (stepScale now (stepOpacity now st)))
      as (_ & _ & -> & _).
    destruct (stepScale_frame now (stepOpacity now st)) as (_ & _ & -> & _).
    by destruct (stepOpacity_frame now st) as (_ & _ & -> & _).
  - destruct (stepCenter_frame now (stepScale now (stepOpacity now st)))
      as (_ & _ & _ & _ & _ & -> & _).
    destruct (stepScale_frame now (stepOpacity now st))
      as (_ & _ & _ & _ & _ & _ & -> & _).
    by destruct (stepOpacity_frame now st) as (_ & _ & _ & _ & _ & _ & -> & _).
  - destruct (stepCenter_frame now (stepScale now (stepOpacity now st)))
      as (_ & _ & _ & _ & _ & _ & ->).
    destruct (stepScale_frame now (stepOpacity now st))
      as (_ & _ & _ & _ & _ & _ & _ & ->).
    by destruct (stepOpacity_frame now st) as (_ & _ & _ & _ & _ & _ & _ & ->).
Qed.

Lemma frameUpdated_idle lim now st :
  camera (anim st) = None ->
  cameraState (world (frameUpdated lim now st)) = cameraState (world st)
  /\ controlsRef (world (frameUpdated lim now st)) = controlsRef (world st)
  /\ cameraAnimLockRef (frameUpdated lim now st) = cameraAnimLockRef st.
Proof.
  intros Hnone. unfold frameUpdated.
  destruct (early_passes_rig now st) as (Hcam & Hstate & Hctl & Hlock).
  cbv zeta in Hcam, Hstate, Hctl, Hlock.
  unfold stepCameraUpdated. by rewrite Hcam, Hnone.
Qed.

Lemma updated_mounted lim w c :
  controlsRef w = Some c ->
  cameraState (updated lim w) = update lim c (cameraState w)
  /\ controlsRef (updated lim w) = Some c.
Proof. intros Hc. unfold updated. by rewrite Hc. Qed.

Lemma updated_unmounted lim w : controlsRef w = None -> updated lim w = w.
Proof. intros Hc. unfold updated. by rewrite Hc. Qed.

(** What a frame with a camera tween leaves of the rig, with the controls
    mounted. *)
Lemma frameUpdated_rig lim now st tw c :
  camera (anim st) = Some tw ->
  controlsRef (world st) = Some c ->
  let t := progress now (cam_t0 tw) (cam_dur tw) in
  let cam := sampleCamera tw (c_fov (cameraState (world st))) t in
  let c1 :=
    mkControls (ctl_enabled c) (ctl_minDistance c) (ctl_maxDistance c)
      (cam_target tw) in
  let c2 :=
    if cam_lockDistanceAtEnd tw
    then mkControls true (c_distance cam) (c_distance cam) (cam_target tw)
    else mkControls true (ctl_minDistance c) (ctl_maxDistance c)
           (cam_target tw) in
  let st' := frameUpdated lim now st in
  if finished t then
    cameraState (world st') = update lim c2 (update lim c1 cam)
    /\ controlsRef (world st') = Some c2
    /\ cameraAnimLockRef st' = false
  else
    cameraState (world st') = update lim c1 cam
    /\ controlsRef (world st') = Some c1
    /\ cameraAnimLockRef st' = cameraAnimLockRef st.
Proof.
  intros Htw Hc. cbv zeta. unfold frameUpdated.
  destruct (early_passes_rig now st) as (Hcam & Hstate & Hctl & Hlock).
  cbv zeta in Hcam, Hstate, Hctl, Hlock.
  set (s := stepCenter now (stepScale now (stepOpacity now st))) in *.
  clearbody s. rewrite <- Hstate, <- Hlock. clear Hstate Hlock.
  unfold stepCameraUpdated. rewrite Hcam, Htw. cbv zeta.
  set (cam := sampleCamera tw (c_fov (cameraState (world s))) _).
  set (w0 := with_cameraState cam (world s)).
  assert (H0 : controlsRef w0 = Some c) by (by rewrite <- Hc, <- Hctl).
  rewrite H0. cbn [fmap option_fmap option_map].
  set (w1 := with_controls _ w0).
  destruct (updated_mounted lim w1 _ eq_refl) as [Hpose1 Hctl1].
  cbn [cameraState w1 with_controls w0 with_cameraState] in Hpose1.
  destruct (finished (progress now (cam_t0 tw) (cam_dur tw))).
  - rewrite Hctl1. cbn [fmap option_fmap option_map ctl_target
                         ctl_minDistance ctl_maxDistance].
    set (w3 := with_controls _ (updated lim w1)).
    destruct (updated_mounted lim w3 _ eq_refl) as [Hpose3 Hctl3].
    cbn [cameraState w3 with_controls] in Hpose3.
    cbn [world cameraAnimLockRef with_cameraAnimLock with_anim with_world].
    rewrite Hpose3, Hctl3, Hpose1.
    by destruct (cam_lockDistanceAtEnd tw).
  - cbn [world cameraAnimLockRef with_world]. by rewrite Hpose1, Hctl1.
Qed.

End OrbitFacts.

Import Orbit OrbitFacts.

Lemma framesUpdated_cons lim t ts st :
  framesUpdated lim (t :: ts) st = framesUpdated lim ts (frameUpdated lim t st).
Proof. reflexivity. Qed.

Lemma frameUpdated_anim lim now st :
  anim (frameUpdated lim now st) = anim (frame now st).
Proof.
  by destruct (frameUpdated_same lim now st st (sameButRig_refl st))
    as (_ & -> & _).
Qed.

Lemma framesUpdated_settled_camera lim ts : forall st,
  camera (anim st) = None ->
  camera (anim (framesUpdated lim ts st)) = None
  /\ cameraState (world (framesUpdated lim ts st)) = cameraState (world st)
  /\ controlsRef (world (framesUpdated lim ts st)) = controlsRef (world st)
  /\ cameraAnimLockRef (framesUpdated lim ts st) = cameraAnimLockRef st.
Proof.
  induction ts as [ | t ts IH]; intros st Hnone; [done | ].
  rewrite framesUpdated_cons.
  assert (Hnext : camera (anim (frameUpdated lim t st)) = None)
    by (by rewrite frameUpdated_anim, frame_camera, Hnone).
  destruct (IH _ Hnext) as (-> & -> & -> & ->).
  destruct (frameUpdated_idle lim t st Hnone) as (-> & -> & ->). done.
Qed.

Lemma progress_complete now t0 dur :
  fractionDefined now t0 dur -> 0 <= dur -> t0 + dur <= now ->
  progress now t0 dur = 1.
Proof.
  intros Hdef Hd Hlate. destruct (Req_dec_T dur 0) as [-> | Hne].
  - apply progress_instant. destruct Hdef as [? | ?]; [done | lra].
  - apply progress_done; lra.
Qed.

(** The pose a finishing frame leaves, after both updates. *)
Lemma finishing_pose lim tw c fov :
  let cam := sampleCamera tw fov 1 in
  let c1 :=
    mkControls (ctl_enabled c) (ctl_minDistance c) (ctl_maxDistance c)
      (cam_target tw) in
  let c2 :=
    if cam_lockDistanceAtEnd tw
    then mkControls true (c_distance cam) (c_distance cam) (cam_target tw)
    else mkControls true (ctl_minDistance c) (ctl_maxDistance c)
           (cam_target tw) in
  let final := update lim c2 (update lim c1 cam) in
  c_azimuth final = cam_fromAz tw + cam_dAz tw
  /\ c_polar final = polarWithin lim (cam_toPol tw)
  /\ c_distance final
     = (if cam_lockDistanceAtEnd tw then cam_toDist tw
        else clamp (cam_toDist tw) (ctl_minDistance c) (ctl_maxDistance c))
  /\ c_fov final = c_fov cam
  /\ c_lookAt final = cam_target tw
  /\ c2 = (if cam_lockDistanceAtEnd tw
           then mkControls true (cam_toDist tw) (cam_toDist tw) (cam_target tw)
           else mkControls true (ctl_minDistance c) (ctl_maxDistance c)
                  (cam_target tw)).
Proof.
  cbv zeta. unfold update, sampleCamera.
  cbn [c_azimuth c_polar c_distance c_fov c_lookAt].
  rewrite easeInOutCubic_1, eDist_1.
  replace (cam_fromPol tw + (cam_toPol tw - cam_fromPol tw) * 1)
    with (cam_toPol tw) by lra.
  replace (cam_fromDist tw + (cam_toDist tw - cam_fromDist tw) * 1)
    with (cam_toDist tw) by lra.
  rewrite polarWithin_idem.
  split; [lra | ]. split; [done | ].
  destruct (cam_lockDistanceAtEnd tw);
    cbn [ctl_minDistance ctl_maxDistance];
    by rewrite ?clamp_pinned, ?clamp_idem.
Qed.

(** A camera tween in flight is played out by the first frame at or after
    its end, the orbit controls holding the end pose within their limits. *)
Lemma cameraU_settles lim ts : forall st tw c,
  camera (anim st) = Some tw ->
  controlsRef (world st) = Some c ->
  0 < cam_dur tw ->
  Exists (fun t => cam_t0 tw + cam_dur tw <= t) ts ->
  let st' := framesUpdated lim ts st in
  camera (anim st') = None
  /\ cameraAnimLockRef st' = false
  /\ c_azimuth (cameraState (world st')) = cam_fromAz tw + cam_dAz tw
  /\ c_polar (cameraState (world st')) = polarWithin lim (cam_toPol tw)
  /\ c_distance (cameraState (world st'))
     = (if cam_lockDistanceAtEnd tw then cam_toDist tw
        else clamp (cam_toDist tw) (ctl_minDistance c) (ctl_maxDistance c))
  /\ (forall toFov, cam_fromFov tw <> None -> cam_toFov tw = Some toFov ->
        c_fov (cameraState (world st')) = toFov)
  /\ controlsRef (world st')
     = Some (if cam_lockDistanceAtEnd tw
             then mkControls true (cam_toDist tw) (cam_toDist tw)
                    (cam_target tw)
             else mkControls true (ctl_minDistance c) (ctl_maxDistance c)
                    (cam_target tw)).
Proof.
  induction ts as [ | t ts IH]; intros st tw c Htw Hc Hd Hex;
    [by apply Exists_nil in Hex | ].
  cbv zeta. rewrite framesUpdated_cons.
  assert (Hnext : camera (anim (frameUpdated lim t st))
                  = if finished (progress t (cam_t0 tw) (cam_dur tw))
                    then None else Some tw)
    by (by rewrite frameUpdated_anim, frame_camera, Htw).
  pose proof (frameUpdated_rig lim t st tw c Htw Hc) as Hrig.
  cbv zeta in Hrig.
  destruct (finished (progress t (cam_t0 tw) (cam_dur tw))) eqn:Hfin.
  - apply finished_progress in Hfin. rewrite Hfin in Hrig.
    destruct Hrig as (Hstate & Hctl & Hlock).
    destruct (framesUpdated_settled_camera lim ts _ Hnext)
      as (-> & -> & -> & ->).
    destruct (finishing_pose lim tw c (c_fov (cameraState (world st))))
      as (Haz & Hpol & Hdist & Hfov & _ & Hc2).
    cbv zeta in Haz, Hpol, Hdist, Hfov, Hc2.
    rewrite Hstate, Hctl, Hlock, Haz, Hpol, Hdist, Hfov, Hc2.
    repeat split; try done.
    intros toFov Hfrom Hto. unfold sampleCamera. cbn [c_fov].
    rewrite Hto. destruct (cam_fromFov tw) as [fromFov | ]; [ | done].
    rewrite eDist_1. lra.
  - apply Exists_cons in Hex as [Hhead | Htail].
    + rewrite (progress_done _ _ _ Hd Hhead) in Hfin.
      by rewrite (proj2 (finished_iff 1)) in Hfin by lra.
    + destruct Hrig as (_ & Hctl & _).
      by apply (IH _ _ _ Hnext Hctl Hd Htail).
Qed.

Lemma animateCameraToPreset_limits vals sc now to dur fov st c :
  controlsRef (world st) = Some c ->
  lockDistanceAtEnd vals = false ->
  exists c1,
    controlsRef (world (animateCameraToPreset vals sc now to dur fov st))
    = Some c1
    /\ ctl_minDistance c1 = ctl_minDistance c
    /\ ctl_maxDistance c1 = ctl_maxDistance c.
Proof.
  intros Hc Hfree. unfold animateCameraToPreset. rewrite Hc, Hfree.
  record_simpl. eexists. split; [reflexivity | ].
  by destruct (lockTargetToModelCenter vals).
Qed.

(** X11.  The camera lock protocol of [animateCameraToPreset] and the
    render loop, the orbit controls' own update included.  Issuing the tween
    sets the interaction lock and disables the controls.  Once a frame has
    run at or after the end of the tween, the lock is released and the
    controls are enabled; the camera is at the requested field of view; its
    polar angle is the requested one held within the controls' polar limits,
    so the requested one itself when that lies within them; its distance is
    the requested one where the configuration locks the distance, the zoom
    range then being pinned to it, and otherwise the requested one held
    within the controls' distance limits.  The frame that finishes the tween
    leaves the camera at the requested azimuth up to whole turns; the
    azimuth of later frames is not stated, the controls being free to
    auto-rotate once the tween is over.  The requested pose has a positive
    distance and a polar angle strictly between 0 and PI, where the pose
    the controls read back from the camera's position is the one
    written. *)
Theorem camera_arrives (lim : OrbitLimits) (vals : Values) (sc : Interaction)
    (now : R) (to : Pose) (dur : R) (fov : option R) (ts : list R)
    (st : State) (c : Controls) :
  controlsRef (world st) = Some c ->
  0 < dur ->
  0 < polar to < PI ->
  0 < distance to ->
  Exists (fun t => now + dur <= t) ts ->
  let st1 := animateCameraToPreset vals sc now to dur fov st in
  let st' := framesUpdated lim ts st1 in
  (cameraAnimLockRef st1 = true
   /\ ctl_enabled <$> controlsRef (world st1) = Some false)
  /\ camera (anim st') = None
  /\ cameraAnimLockRef st' = false
  /\ ctl_enabled <$> controlsRef (world st') = Some true
  /\ c_polar (cameraState (world st')) = polarWithin lim (polar to)
  /\ (EPS <= minPolarAngle lim -> maxPolarAngle lim <= PI - EPS ->
      minPolarAngle lim <= polar to <= maxPolarAngle lim ->
      c_polar (cameraState (world st')) = polar to)
  /\ c_distance (cameraState (world st'))
     = (if lockDistanceAtEnd vals then distance to
        else clamp (distance to) (ctl_minDistance c) (ctl_maxDistance c))
  /\ (forall pre t,
        Forall (fun u => u < now + dur) pre -> now + dur <= t ->
        exists k : Z,
          c_azimuth (cameraState (world (framesUpdated lim (pre ++ [t]) st1)))
          = azimuth to + IZR k * tau)
  /\ c_fov (cameraState (world st'))
     = default (c_fov (cameraState (world st))) fov
  /\ (lockDistanceAtEnd vals = true ->
      ctl_minDistance <$> controlsRef (world st') = Some (distance to)
      /\ ctl_maxDistance <$> controlsRef (world st') = Some (distance to)).
Proof.
  intros Hc Hd _ _ Hex st1 st'.
  destruct (animateCameraToPreset_issue vals sc now to dur fov st c Hc)
    as (Htw & Hlock & c1 & Hc1 & Hoff).
  fold st1 in Htw, Hlock, Hc1.
  destruct (cameraU_settles lim ts st1 _ c1 Htw Hc1 Hd Hex)
    as (Hgone & Hfree & _ & Hpol & Hdist & Hfov & Hctl).
  fold st' in Hgone, Hfree, Hpol, Hdist, Hfov, Hctl.
  cbn [cam_toPol cam_toDist cam_lockDistanceAtEnd
       cam_fromFov cam_toFov cam_target] in Hpol, Hdist, Hfov, Hctl.
  split; [split; [done | by rewrite Hc1; cbn; rewrite Hoff] | ].
  split; [done | ]. split; [done | ].
  split; [rewrite Hctl; by destruct (lockDistanceAtEnd vals) | ].
  split; [done | ]. split.
  { intros Hlo Hhi Hin. rewrite Hpol. by apply polarWithin_inside. }
  split.
  { rewrite Hdist. destruct (lockDistanceAtEnd vals) eqn:Hpin; [done | ].
    destruct (animateCameraToPreset_limits vals sc now to dur fov st c Hc Hpin)
      as (c1' & Hc1' & Hmin & Hmax).
    fold st1 in Hc1'. rewrite Hc1 in Hc1'. injection Hc1' as <-.
    by rewrite Hmin, Hmax. }
  split.
  { intros pre t _ Hlast.
    destruct (cameraU_settles lim (pre ++ [t]) st1 _ c1 Htw Hc1 Hd)
      as (_ & _ & Hturn & _).
    { apply Exists_app. right. by apply Exists_cons_hd. }
    cbn [cam_fromAz cam_dAz] in Hturn. rewrite Hturn.
    destruct (shortestAngleDelta_congr (c_azimuth (cameraState (world st)))
                (azimuth to)) as [k Hk].
    exists k. rewrite Hk. lra. }
  split; [by apply Hfov | ].
  intros Hpin. rewrite Hctl, Hpin. by split.
Qed.

Lemma camera_arrives_witness :
  c_polar
    (cameraState
       (world (framesUpdated babylonLimits [1500; 2000]
                 (animateCameraToPreset Example.vals Example.scene 1000
                    (mkPose 0 (PI / 2) 18) 900 (Some 26) Example.ready))))
  = PI / 2
  /\ c_polar
       (cameraState
          (world (framesUpdated babylonLimits [1500; 2000]
                    (animateCameraToPreset Example.vals Example.scene 1000
                       (mkPose 0 0.001 18) 900 (Some 26) Example.ready))))
     = 0.5.
Proof.
  pose proof PI2_3_2 as Hlo. pose proof PI_4 as Hhi.
  assert (Hex : Exists (fun t => 1000 + 900 <= t) [1500; 2000])
    by (apply Exists_cons_tl, Exists_cons_hd; lra).
  split.
  - apply (camera_arrives babylonLimits Example.vals Example.scene 1000
             (mkPose 0 (PI / 2) 18) 900 (Some 26) [1500; 2000] Example.ready
             Example.controls);
      cbn [polar distance minPolarAngle maxPolarAngle babylonLimits];
      unfold EPS; try lra; done.
  - assert (Hpolar : 0 < polar (mkPose 0 0.001 18) < PI) by (cbn; lra).
    assert (Hdist : 0 < distance (mkPose 0 0.001 18)) by (cbn; lra).
    pose proof (camera_arrives babylonLimits Example.vals Example.scene 1000
                  (mkPose 0 0.001 18) 900 (Some 26) [1500; 2000]
                  Example.ready Example.controls eq_refl ltac:(lra) Hpolar
                  Hdist Hex) as Harrives.
    cbv zeta in Harrives. destruct Harrives as (_ & _ & _ & _ & -> & _).
    unfold polarWithin, babylonLimits, clamp, Math_max, Math_min, EPS.
    cbn [polar minPolarAngle maxPolarAngle].
    cases_rle; lra.
Defined.

(** *** A selection, played out with the controls' update *)

Lemma selection_issue (three : Three) (vals : Values) (sc : Interaction)
    (now : R) (clicked : Object3D) (allow : bool) (override : option R)
    (st : State) (cubeName : string) :
  findCubeName sc clicked = Some cubeName ->
  cubeName <> "" ->
  isHome cubeName = false ->
  hitsBodyMaterial sc (world st) clicked = false ->
  selectedCubeNameRef (selection st) <> Some cubeName ->
  let pose :=
    getCameraPoseForMesh three vals sc (world st) clicked
      (Some (default (babylonClickDistance vals) override)) in
  let st0 :=
    animateCameraToPreset vals sc now pose 900 (Some CLICK_INTERACTION_FOV) st in
  let st1 :=
    applyFaceSelection three vals sc now (Some clicked) allow override st in
  camera (anim st1) = camera (anim st0)
  /\ controlsRef (world st1) = controlsRef (world st0).
Proof.
  intros Hcube Hname Hhome Hbody Hother pose st0 st1.
  assert (Hshape :
            st1
            = with_selection
                (mkSelection (Some cubeName) (Some clicked) (Some cubeName) now)
                (focusFace vals sc now clicked (scaleCubes sc now cubeName st0))).
  { apply apply_block_switch; try done.
    - by rewrite Hhome, andb_false_r.
    - by rewrite bool_decide_eq_false_2, andb_false_r. }
  rewrite Hshape. record_simpl.
  destruct (focusFace_rig vals sc now clicked (scaleCubes sc now cubeName st0))
    as (_ & Hctl & _).
  by rewrite focusFace_camera, scaleCubes_camera, Hctl, scaleCubes_world.
Qed.

(** X13.  A tap on a face of a block other than the selected one, played out
    by the render loop with the orbit controls' update.  Once a frame has
    run 900 ms or more after the tap, the block and the face are the
    selection; the block is at the selected scale and every other cube at
    the dimmed scale; the tapped face is opaque and emphasised, every other
    face carrying a material is at the dimmed opacity with its emphasis
    cleared; and, with the controls mounted, the camera is at the solver's
    azimuth up to whole turns, at the solver's polar angle held within the
    controls' polar limits (the solver's own where that lies within them),
    at the solver's distance where the configuration locks the distance and
    otherwise at that distance held within the controls' distance limits,
    and at the click field of view, with the lock released.  The solver's
    pose has a positive distance and a polar angle strictly between 0 and
    PI, which it is whenever the solver does not fall back to the name-based
    pose; there the pose the controls read back from the camera's position
    is the one written. *)
Theorem selection_settles (lim : OrbitLimits) (three : Three) (vals : Values)
    (sc : Interaction) (now : R) (clicked : Object3D) (allow : bool)
    (override : option R) (ts : list R) (st : State) (cubeName : string) :
  wfCubes sc ->
  findCubeName sc clicked = Some cubeName ->
  cubeName <> "" ->
  isHome cubeName = false ->
  hitsBodyMaterial sc (world st) clicked = false ->
  selectedCubeNameRef (selection st) <> Some cubeName ->
  0 < polar (getCameraPoseForMesh three vals sc (world st) clicked
               (Some (default (babylonClickDistance vals) override))) < PI ->
  0 < distance (getCameraPoseForMesh three vals sc (world st) clicked
                  (Some (default (babylonClickDistance vals) override))) ->
  Exists (fun t => now + 900 <= t) ts ->
  let st' :=
    framesUpdated lim ts
      (applyFaceSelection three vals sc now (Some clicked) allow override st) in
  Selected st' cubeName clicked
  /\ (forall n cube, (n, cube) ∈ cubesByName sc ->
        scaleOf (world st') cube
        = if bool_decide (n = cubeName) then SELECTED_CUBE_SCALE
          else DIMMED_CUBE_SCALE)
  /\ (forall face, face ∈ allFaceMeshes sc -> is_Some (material face) ->
        (uuid face = uuid clicked ->
         opacityOf (world st') face = 1 /\ emphasised vals (world st') face)
        /\ (uuid face <> uuid clicked ->
            opacityOf (world st') face = DIMMED_FACE_OPACITY
            /\ emphasisCleared (world st') face))
  /\ (forall c, controlsRef (world st) = Some c ->
      let pose :=
        getCameraPoseForMesh three vals sc (world st) clicked
          (Some (default (babylonClickDistance vals) override)) in
      (exists k : Z,
         c_azimuth (cameraState (world st')) = azimuth pose + IZR k * tau)
      /\ c_polar (cameraState (world st')) = polarWithin lim (polar pose)
      /\ (EPS <= minPolarAngle lim -> maxPolarAngle lim <= PI - EPS ->
          minPolarAngle lim <= polar pose <= maxPolarAngle lim ->
          c_polar (cameraState (world st')) = polar pose)
      /\ c_distance (cameraState (world st'))
         = (if lockDistanceAtEnd vals then distance pose
            else clamp (distance pose) (ctl_minDistance c) (ctl_maxDistance c))
      /\ c_fov (cameraState (world st')) = CLICK_INTERACTION_FOV
      /\ camera (anim st') = None
      /\ cameraAnimLockRef st' = false).
Proof.
  intros Hwf Hcube Hname Hhome Hbody Hother _ _ Hex st'.
  set (st1 := applyFaceSelection three vals sc now (Some clicked) allow
                override st) in *.
  pose proof (selection_settles_written three vals sc now clicked allow
                override ts st cubeName Hwf Hcube Hname Hhome Hbody Hother Hex)
    as Hwritten.
  cbv zeta in Hwritten. fold st1 in Hwritten.
  destruct Hwritten as (Hsel & Hscale & Hfaces & _).
  pose proof (framesUpdated_same lim ts st1 st1 (sameButRig_refl st1)) as Hsame.
  fold st' in Hsame.
  destruct Hsame as (Es & Ea & Em & Eb & Eo & _).
  split; [ | split; [ | split]].
  - unfold Selected in *. by rewrite Es.
  - intros n cube Hin. unfold scaleOf in *. rewrite Eo. by apply Hscale.
  - intros face Hin Hm. destruct (Hfaces face Hin Hm) as [Hlit Hdim].
    unfold opacityOf, emphasised, emphasisCleared in *. rewrite Em, Eb.
    by split.
  - intros c Hc pose.
    destruct (selection_issue three vals sc now clicked allow override st
                cubeName Hcube Hname Hhome Hbody Hother) as [Hcam Hctl].
    fold pose st1 in Hcam, Hctl.
    destruct (animateCameraToPreset_issue vals sc now pose 900
                (Some CLICK_INTERACTION_FOV) st c Hc)
      as (Htw & _ & c1 & Hc1 & _).
    rewrite Htw in Hcam. rewrite Hc1 in Hctl.
    destruct (cameraU_settles lim ts st1 _ c1 Hcam Hctl ltac:(cbn; lra) Hex)
      as (Hgone & Hfree & Haz & Hpol & Hdist & Hfov & _).
    fold st' in Hgone, Hfree, Haz, Hpol, Hdist, Hfov.
    cbn [cam_fromAz cam_dAz cam_toPol cam_toDist cam_lockDistanceAtEnd
         cam_fromFov cam_toFov] in Haz, Hpol, Hdist, Hfov.
    split.
    { rewrite Haz.
      destruct (shortestAngleDelta_congr (c_azimuth (cameraState (world st)))
                  (azimuth pose)) as [k Hk].
      exists k. rewrite Hk. lra. }
    split; [done | ]. split.
    { intros Hlo Hhi Hin. rewrite Hpol. by apply polarWithin_inside. }
    split.
    { rewrite Hdist. destruct (lockDistanceAtEnd vals) eqn:Hpin; [done | ].
      destruct (animateCameraToPreset_limits vals sc now pose 900
                  (Some CLICK_INTERACTION_FOV) st c Hc Hpin)
        as (c1' & Hc1' & Hmin & Hmax).
      rewrite Hc1 in Hc1'. injection Hc1' as <-. by rewrite Hmin, Hmax. }
    split; [by apply Hfov | done].
Qed.

Lemma selection_settles_witness :
  Selected
    (framesUpdated babylonLimits [1500; 2000]
       (Example.tap 1000 Example.faceA Example.ready))
    "mid_block_1" Example.faceA.
Proof.
  apply (selection_settles babylonLimits Example.three Example.vals
           Example.scene 1000 Example.faceA true None [1500; 2000]
           Example.ready "mid_block_1").
  - apply example_wfCubes.
  - vm_compute; reflexivity.
  - done.
  - vm_compute; reflexivity.
  - vm_compute; reflexivity.
  - done.
  - destruct (getCameraPoseForMesh_cases Example.three Example.vals
                Example.scene (world Example.ready) Example.faceA
                (Some (default (babylonClickDistance Example.vals) None)))
      as [_ Hfar].
    cbv zeta in Hfar. destruct Hfar as [Hpolar _]; [ | lra].
    unfold solverTarget, forceCenter, lengthSq, sub. cbn. lra.
  - destruct (getCameraPoseForMesh_cases Example.three Example.vals
                Example.scene (world Example.ready) Example.faceA
                (Some (default (babylonClickDistance Example.vals) None)))
      as [_ Hfar].
    cbv zeta in Hfar. destruct Hfar as (_ & _ & _ & _ & ->); [ | cbn; lra].
    unfold solverTarget, forceCenter, lengthSq, sub. cbn. lra.
  - apply Exists_cons_tl, Exists_cons_hd. lra.
Defined.

(** ** The per-frame advance, whole *)

Lemma progress_running now t0 dur :
  0 < dur -> now < t0 + dur ->
  progress now t0 dur = (now - t0) / dur /\ progress now t0 dur < 1.
Proof.
  intros Hd Hearly. rewrite progress_quotient by lra.
  pose proof (Rinv_0_lt_compat dur Hd) as Hinv.
  assert (Hone : dur * / dur = 1) by (apply Rinv_r; lra).
  assert ((now - t0) / dur < 1) by (unfold Rdiv; nra).
  destruct (Math_min_spec 1 ((now - t0) / dur)) as [[? ->] | [? ->]]; lra.
Qed.

Lemma running_unfinished now t0 dur :
  0 < dur -> now < t0 + dur -> finished (progress now t0 dur) = false.
Proof.
  intros Hd Hearly. destruct (progress_running now t0 dur Hd Hearly) as [_ Hlt].
  destruct (finished (progress now t0 dur)) eqn:Hfin; [ | done].
  apply finished_progress in Hfin. lra.
Qed.

Lemma complete_finished now t0 dur :
  0 <= dur -> fractionDefined now t0 dur -> t0 + dur <= now ->
  finished (progress now t0 dur) = true.
Proof.
  intros Hd Hdef Hlate. apply finished_progress. by apply progress_complete.
Qed.

Lemma progress_nonneg now t0 dur :
  0 <= dur -> t0 <= now -> fractionDefined now t0 dur ->
  0 <= progress now t0 dur.
Proof.
  intros Hd Hnow Hdef. destruct (Req_dec_T dur 0) as [-> | Hne].
  - rewrite progress_instant; [lra | ]. destruct Hdef as [? | ?]; [done | lra].
  - apply progress_range; lra.
Qed.

(** A frame with a camera tween and no controls mounted writes the sampled
    pose as it is. *)
Lemma frameUpdated_unmounted lim now st tw :
  camera (anim st) = Some tw ->
  controlsRef (world st) = None ->
  cameraState (world (frameUpdated lim now st))
  = sampleCamera tw (c_fov (cameraState (world st)))
      (progress now (cam_t0 tw) (cam_dur tw)).
Proof.
  intros Htw Hc. unfold frameUpdated.
  destruct (early_passes_rig now st) as (Hcam & Hstate & Hctl & Hlock).
  cbv zeta in Hcam, Hstate, Hctl, Hlock.
  set (s := stepCenter now (stepScale now (stepOpacity now st))) in *.
  clearbody s. rewrite <- Hstate. clear Hstate Hlock.
  unfold stepCameraUpdated. rewrite Hcam, Htw. cbv zeta.
  set (cam := sampleCamera tw (c_fov (cameraState (world s))) _).
  set (w0 := with_cameraState cam (world s)).
  assert (H0 : controlsRef w0 = None) by (by rewrite <- Hc, <- Hctl).
  rewrite H0. cbn [fmap option_fmap option_map].
  set (w1 := with_controls None w0).
  rewrite (updated_unmounted lim w1 eq_refl).
  destruct (finished (progress now (cam_t0 tw) (cam_dur tw))).
  - cbn [controlsRef w1 with_controls fmap option_fmap option_map].
    set (w3 := with_controls None w1).
    by rewrite (updated_unmounted lim w3 eq_refl).
  - done.
Qed.

(** C8.  The per-frame advance of the four tween kinds, the frame taken
    whole with the orbit controls' update.

    Sampling: every kind samples its start value at fraction 0 and exactly
    its end value at fraction 1.

    The fraction: it is the smaller of 1 and the elapsed time over the
    duration; it never exceeds 1 and, for a tween started no later than the
    frame's clock reading, is not below 0 (the code bounds it from above
    only); before the end of the tween it is the quotient itself, below 1;
    from the end on it is 1, also for a tween of duration 0 once time has
    passed.  A tween of duration 0 read at its very start, where the
    quotient is not a number, is left out.

    Writing and retiring: a frame removes a tween exactly when its fraction
    has reached 1, so keeps it before its end and removes it from its end
    on; it writes the sampled value to the target, so the end value from the
    end on.  The camera's pose is the sampled one as the controls' update
    leaves it: azimuth, field of view and look-at point as sampled, the
    polar angle and the distance held within the controls' limits, for a
    sampled pose of positive distance with its polar angle strictly between
    0 and PI, where the controls read back what was written; without
    controls it is the sampled one itself. *)
Theorem tween_advance_contract (lim : OrbitLimits) (now : R) (st : State) :
  (forall tw, sampleOpacity tw 0 = op_from tw /\ sampleOpacity tw 1 = op_to tw)
  /\ (forall tw, sampleScale tw 0 = sc_from tw /\ sampleScale tw 1 = sc_to tw)
  /\ (forall tw,
        sampleCenter tw 0 = (ce_fromX tw, ce_fromRotY tw)
        /\ sampleCenter tw 1 = (ce_toX tw, ce_toRotY tw))
  /\ (forall tw fov fromFov toFov,
        cam_fromFov tw = Some fromFov -> cam_toFov tw = Some toFov ->
        sampleCamera tw fov 0
        = mkCameraState (cam_fromAz tw) (cam_fromPol tw) (cam_fromDist tw)
            fromFov (cam_target tw)
        /\ sampleCamera tw fov 1
           = mkCameraState (cam_fromAz tw + cam_dAz tw) (cam_toPol tw)
               (cam_toDist tw) toFov (cam_target tw))
  /\ (forall t0 dur,
        (dur <> 0 -> progress now t0 dur = Math_min 1 ((now - t0) / dur))
        /\ (dur = 0 -> t0 < now -> progress now t0 dur = 1)
        /\ progress now t0 dur <= 1
        /\ (0 <= dur -> t0 <= now -> fractionDefined now t0 dur ->
            0 <= progress now t0 dur)
        /\ (0 < dur -> now < t0 + dur ->
            progress now t0 dur = (now - t0) / dur /\ progress now t0 dur < 1)
        /\ (0 <= dur -> fractionDefined now t0 dur -> t0 + dur <= now ->
            progress now t0 dur = 1)
        /\ (finished (progress now t0 dur) = true <-> progress now t0 dur = 1))
  /\ (forall id tw,
        opacity (anim st) !! id = Some tw ->
        opacity (anim (frameUpdated lim now st)) !! id
        = (if finished (opacityProgress now tw) then None else Some tw)
        /\ (0 < op_dur tw -> now < op_t0 tw + op_dur tw ->
            opacity (anim (frameUpdated lim now st)) !! id = Some tw)
        /\ (forall m,
              faceMaterials (world st) !! id = Some m ->
              fractionDefined now (op_t0 tw) (op_dur tw) ->
              faceMaterials (world (frameUpdated lim now st)) !! id
              = Some (mkFaceMaterial (sampleOpacity tw (opacityProgress now tw))
                        (mat_emissiveIntensity m))
              /\ (0 <= op_dur tw -> op_t0 tw + op_dur tw <= now ->
                  opacity (anim (frameUpdated lim now st)) !! id = None
                  /\ faceMaterials (world (frameUpdated lim now st)) !! id
                     = Some (mkFaceMaterial (op_to tw)
                               (mat_emissiveIntensity m)))))
  /\ (forall id tw,
        scale (anim st) !! id = Some tw ->
        scale (anim (frameUpdated lim now st)) !! id
        = (if finished (scaleProgress now tw) then None else Some tw)
        /\ (0 < sc_dur tw -> now < sc_t0 tw + sc_dur tw ->
            scale (anim (frameUpdated lim now st)) !! id = Some tw)
        /\ (fractionDefined now (sc_t0 tw) (sc_dur tw) ->
            objectScale (world (frameUpdated lim now st)) !! id
            = Some (sampleScale tw (scaleProgress now tw))
            /\ (0 <= sc_dur tw -> sc_t0 tw + sc_dur tw <= now ->
                scale (anim (frameUpdated lim now st)) !! id = None
                /\ objectScale (world (frameUpdated lim now st)) !! id
                   = Some (sc_to tw))))
  /\ (forall tw,
        center (anim st) = Some tw ->
        center (anim (frameUpdated lim now st))
        = (if finished (progress now (ce_t0 tw) (ce_dur tw)) then None
           else Some tw)
        /\ (0 < ce_dur tw -> now < ce_t0 tw + ce_dur tw ->
            center (anim (frameUpdated lim now st)) = Some tw)
        /\ (fractionDefined now (ce_t0 tw) (ce_dur tw) ->
            (centerPositionX (world (frameUpdated lim now st)),
             centerRotationY (world (frameUpdated lim now st)))
            = sampleCenter tw (progress now (ce_t0 tw) (ce_dur tw))
            /\ (0 <= ce_dur tw -> ce_t0 tw + ce_dur tw <= now ->
                center (anim (frameUpdated lim now st)) = None
                /\ (centerPositionX (world (frameUpdated lim now st)),
                    centerRotationY (world (frameUpdated lim now st)))
                   = (ce_toX tw, ce_toRotY tw))))
  /\ (forall tw,
        camera (anim st) = Some tw ->
        let t := progress now (cam_t0 tw) (cam_dur tw) in
        let cam := sampleCamera tw (c_fov (cameraState (world st))) t in
        camera (anim (frameUpdated lim now st))
        = (if finished t then None else Some tw)
        /\ (0 < cam_dur tw -> now < cam_t0 tw + cam_dur tw ->
            camera (anim (frameUpdated lim now st)) = Some tw)
        /\ (fractionDefined now (cam_t0 tw) (cam_dur tw) ->
            (controlsRef (world st) = None ->
             cameraState (world (frameUpdated lim now st)) = cam)
            /\ (forall c,
                  controlsRef (world st) = Some c ->
                  0 < c_distance cam ->
                  0 < c_polar cam < PI ->
                  cameraState (world (frameUpdated lim now st))
                  = if finished t then
                      mkCameraState (cam_fromAz tw + cam_dAz tw)
                        (polarWithin lim (cam_toPol tw))
                        (if cam_lockDistanceAtEnd tw then cam_toDist tw
                         else clamp (cam_toDist tw) (ctl_minDistance c)
                                (ctl_maxDistance c))
                        (c_fov cam) (cam_target tw)
                    else update lim c cam)
            /\ (0 <= cam_dur tw -> cam_t0 tw + cam_dur tw <= now ->
                camera (anim (frameUpdated lim now st)) = None
                /\ cameraAnimLockRef (frameUpdated lim now st) = false
                /\ t = 1))).
Proof.
  destruct (frameUpdated_same lim now st st (sameButRig_refl st))
    as (_ & Ea & Em & _ & Eo & Ex & Ey & _).
  rewrite Ea, Em, Eo, Ex, Ey.
  split; [apply sampleOpacity_ends | ].
  split; [apply sampleScale_ends | ].
  split; [apply sampleCenter_ends | ].
  split; [apply sampleCamera_ends | ].
  split.
  { intros t0 dur.
    split; [apply progress_quotient | ].
    split; [intros -> ?; by apply progress_instant | ].
    split; [apply progress_le_1 | ].
    split; [apply progress_nonneg | ].
    split; [apply progress_running | ].
    split; [ | apply finished_progress].
    intros Hd Hdef Hlate. by apply progress_complete. }
  split.
  { intros id tw Htw.
    rewrite (frame_opacity_lookup now st id tw Htw).
    split; [done | ]. split.
    { intros Hd Hearly. unfold opacityProgress.
      by rewrite running_unfinished. }
    intros m Hm Hdef. rewrite (frame_writes_opacity now st id tw m Htw Hm).
    split; [done | ]. intros Hd Hlate. unfold opacityProgress.
    rewrite complete_finished, progress_complete by done.
    by rewrite (proj2 (sampleOpacity_ends tw)). }
  split.
  { intros id tw Htw.
    rewrite (frame_scale_lookup now st id tw Htw).
    split; [done | ]. split.
    { intros Hd Hearly. unfold scaleProgress. by rewrite running_unfinished. }
    intros Hdef. rewrite (frame_writes_scale now st id tw Htw).
    split; [done | ]. intros Hd Hlate. unfold scaleProgress.
    rewrite complete_finished, progress_complete by done.
    by rewrite (proj2 (sampleScale_ends tw)). }
  split.
  { intros tw Htw. rewrite frame_center, frame_centerObject, Htw.
    split; [done | ]. split.
    { intros Hd Hearly. by rewrite running_unfinished. }
    intros Hdef. split; [done | ]. intros Hd Hlate.
    rewrite complete_finished, progress_complete by done.
    by rewrite (proj2 (sampleCenter_ends tw)). }
  intros tw Htw. cbv zeta. rewrite frame_camera, Htw.
  split; [done | ]. split.
  { intros Hd Hearly. by rewrite running_unfinished. }
  intros Hdef. split; [by apply frameUpdated_unmounted | ]. split.
  - intros c Hc _ _.
    pose proof (frameUpdated_rig lim now st tw c Htw Hc) as Hrig.
    cbv zeta in Hrig.
    destruct (finished (progress now (cam_t0 tw) (cam_dur tw))) eqn:Hfin.
    + apply finished_progress in Hfin. rewrite Hfin in *.
      destruct Hrig as (-> & _).
      destruct (finishing_pose lim tw c (c_fov (cameraState (world st))))
        as (Haz & Hpol & Hdist & Hfov & Hat & _).
      cbv zeta in Haz, Hpol, Hdist, Hfov, Hat.
      rewrite <- Haz, <- Hpol, <- Hdist, <- Hfov, <- Hat.
      by destruct (update lim _ _).
    + by destruct Hrig as (-> & _).
  - intros Hd Hlate.
    rewrite complete_finished by done. split; [done | ].
    split; [ | by apply progress_complete].
    destruct (controlsRef (world st)) as [c | ] eqn:Hc.
    + pose proof (frameUpdated_rig lim now st tw c Htw Hc) as Hrig.
      cbv zeta in Hrig. rewrite complete_finished in Hrig by done.
      by destruct Hrig as (_ & _ & ->).
    + unfold frameUpdated.
      destruct (early_passes_rig now st) as (Hcam & _).
      cbv zeta in Hcam.
      set (s := stepCenter now (stepScale now (stepOpacity now st))) in *.
      clearbody s. unfold stepCameraUpdated. rewrite Hcam, Htw. cbv zeta.
      rewrite complete_finished by done. by record_simpl.
Qed.

Lemma tween_advance_contract_witness :
  camera
    (anim
       (frameUpdated babylonLimits 2000
          (animateCameraToPreset Example.vals Example.scene 1000
             (mkPose 0 (PI / 2) 18) 900 (Some 26) Example.ready)))
  = None
  /\ progress 1450 1000 900 = (1450 - 1000) / 900.
Proof.
  split.
  - destruct (tween_advance_contract babylonLimits 2000
                (animateCameraToPreset Example.vals Example.scene 1000
                   (mkPose 0 (PI / 2) 18) 900 (Some 26) Example.ready))
      as (_ & _ & _ & _ & _ & _ & _ & _ & Hcamera).
    destruct (Hcamera _ eq_refl) as (_ & _ & Hlate).
    cbn [cam_t0 cam_dur] in Hlate.
    destruct Hlate as (_ & _ & Hgone & _); [left; lra | lra | lra | ].
    exact Hgone.
  - apply (tween_advance_contract babylonLimits 1450 Example.ready); lra.
Defined.

(** ** The solver never leaves the real numbers *)

Import CheckedSolver.

Lemma tau_nonzero : tau <> 0.
Proof. unfold tau. pose proof PI_RGT_0. lra. Qed.

Lemma normalizeAngleMinusPiToPiChecked_defined angle :
  normalizeAngleMinusPiToPiChecked angle
  = Some (normalizeAngleMinusPiToPi angle).
Proof.
  unfold normalizeAngleMinusPiToPiChecked, remChecked, normalizeAngleMinusPiToPi.
  destruct (Req_dec_T tau 0) as [Hz | _]; [by destruct tau_nonzero | ].
  done.
Qed.

Lemma getCameraPoseForFaceChecked_defined vals name :
  getCameraPoseForFaceChecked vals name
  = Some (getCameraPoseForFace vals name).
Proof.
  unfold getCameraPoseForFaceChecked, getCameraPoseForFace.
  destruct (presetAngles name) as [alpha beta].
  by rewrite normalizeAngleMinusPiToPiChecked_defined.
Qed.

Lemma lengthSq_nonneg v : 0 <= lengthSq v.
Proof. unfold lengthSq. nra. Qed.

Lemma lengthSq_multiplyScalar v k :
  lengthSq (multiplyScalar v k) = lengthSq v * (k * k).
Proof. unfold lengthSq, multiplyScalar. cbn. ring. Qed.

(** A vector that is not degenerate has a positive length, and dividing it
    by that length gives a unit vector. *)
Lemma normalize_unit v :
  / 100000000 <= lengthSq v ->
  0 < sqrt (lengthSq v)
  /\ normalizeChecked v = Some (normalize v)
  /\ lengthSq (normalize v) = 1.
Proof.
  intros Hlen.
  assert (Hpos : 0 < lengthSq v) by lra.
  pose proof (sqrt_lt_R0 _ Hpos) as Hs.
  pose proof (sqrt_sqrt (lengthSq v) (lengthSq_nonneg v)) as Hsq.
  split; [done | ]. split.
  - unfold normalizeChecked, normalize. cbv zeta.
    destruct (Req_dec_T (sqrt (lengthSq v)) 0); [lra | done].
  - unfold normalize. rewrite lengthSq_multiplyScalar.
    rewrite <- Hsq at 1. field. lra.
Qed.

(** C9.  The pose solver never leaves the real numbers: for every mesh and
    every distance its checked form, in which a division or remainder by
    zero has no result, returns a pose, the one of [getCameraPoseForMesh],
    so no component of the pose is NaN.  When the direction from the look-at
    point to the mesh is degenerate (squared length below 1e-8) the pose is
    the name-based default pose, itself free of such divisions.  Otherwise
    the direction has a positive length, so that normalising it divides by
    a number other than zero and gives a unit vector; the vector given to
    [Spherical.setFromVector3] has the squared length of the distance; the
    polar angle lies in [[0.001, PI - 0.001]], so is neither 0 nor PI; the
    azimuth lies in [[-PI, PI)] and the distance is the requested one. *)
Theorem getCameraPoseForMesh_safe (three : Three) (vals : Values)
    (sc : Interaction) (w : World) (mesh : Object3D) (override : option R) :
  let dir := sub (getWorldPosition three w mesh) (solverTarget vals sc w) in
  let dist := default (defaultDistance vals) override in
  let pose := getCameraPoseForMesh three vals sc w mesh override in
  getCameraPoseForMeshChecked three vals sc w mesh override = Some pose
  /\ (lengthSq dir < / 100000000 ->
      pose = getCameraPoseForFace vals (name mesh)
      /\ getCameraPoseForFaceChecked vals (name mesh) = Some pose)
  /\ (/ 100000000 <= lengthSq dir ->
      0 < sqrt (lengthSq dir)
      /\ normalizeChecked dir = Some (normalize dir)
      /\ lengthSq (normalize dir) = 1
      /\ lengthSq (multiplyScalar (normalize dir) dist) = dist * dist
      /\ 0.001 <= polar pose <= PI - 0.001
      /\ polar pose <> 0 /\ polar pose <> PI
      /\ - PI <= azimuth pose < PI
      /\ distance pose = dist).
Proof.
  intros dir dist pose.
  destruct (getCameraPoseForMesh_cases three vals sc w mesh override)
    as [Hnear Hfar].
  cbv zeta in Hnear, Hfar. fold dir pose in Hnear, Hfar.
  split; [ | split].
  - unfold pose, getCameraPoseForMeshChecked, getCameraPoseForMesh.
    fold dir dist. destruct (degenerate dir) eqn:Hdeg.
    + apply getCameraPoseForFaceChecked_defined.
    + apply ltb_false in Hdeg.
      destruct (normalize_unit dir) as (_ & -> & _); [lra | ].
      cbn [mbind option_bind].
      destruct (setFromVector3 three _) as [theta phi].
      by rewrite normalizeAngleMinusPiToPiChecked_defined.
  - intros Hlen. rewrite (Hnear Hlen).
    split; [done | apply getCameraPoseForFaceChecked_defined].
  - intros Hlen. destruct (normalize_unit dir Hlen) as (Hs & Hn & Hu).
    destruct (Hfar Hlen) as (Hp & H0 & Hpi & Haz & Hd).
    repeat split; try done; try lra.
    rewrite lengthSq_multiplyScalar, Hu. lra.
Qed.

Lemma getCameraPoseForMesh_safe_witness :
  getCameraPoseForMeshChecked Example.three Example.vals Example.scene
    (world Example.ready) Example.faceA (Some 18)
  = Some
      (getCameraPoseForMesh Example.three Example.vals Example.scene
         (world Example.ready) Example.faceA (Some 18)).
Proof.
  apply (getCameraPoseForMesh_safe Example.three Example.vals Example.scene
           (world Example.ready) Example.faceA (Some 18)).
Defined.

(** ** Where the controls' update changes nothing *)

(** A pose within the controls' limits, these keeping clear of the poles, is
    left as written: there a frame with the update is the frame as it
    writes. *)
Lemma update_inside (lim : OrbitLimits) (c : Controls) (cam : CameraState) :
  EPS <= minPolarAngle lim ->
  maxPolarAngle lim <= PI - EPS ->
  minPolarAngle lim <= c_polar cam <= maxPolarAngle lim ->
  ctl_minDistance c <= c_distance cam <= ctl_maxDistance c ->
  update lim c cam = cam.
Proof.
  intros Hlo Hhi Hpolar Hdist. unfold update.
  rewrite polarWithin_inside, clamp_inside by done. by destruct cam.
Qed.
